(** * The xv6 buffer cache with dirty-pressure flushing (pj3/bio.c) and the
      enqueue guard of the multilevel scheduler (pj1/xv6-public/proc.h)

    Module [proc] carries the process descriptor of [proc.h] and the
    admission guard of the scheduler.  Module [bio] embeds [bio.c] function
    by function as state-passing code over an explicit memory of
    [struct buf] cells linked by [prev] and [next] pointers, exactly as the
    C file links them, and proves the properties of the cache; the property
    of the admission guard closes the file. *)

From Stdlib Require Import ZArith String Lia.
From stdpp Require Import base tactics option list.

(** * The admission guard of the scheduler (pj1/xv6-public/proc.h) *)

Module proc.

(** [enum procstate], line 35. *)
Inductive procstate : Type :=
| UNUSED | EMBRYO | SLEEPING | RUNNABLE | RUNNING | ZOMBIE.

(** The fields of [struct proc] (lines 38-59) that the scheduler uses.  The
    link [next] has no field here: the code that walks it is not among the
    sources, and a level queue is kept as the list of the processes that
    [level_queue[l]] and the [next] links thread, in order. *)
Record proc : Type := mkProc {
  state : procstate;
  pid : Z;
  level : Z;
  priority : Z;
  time_quantum : Z;
  time_allotment : Z;
  lock_scheduler : Z;
  already_enqueued : Z
}.

(** The process table (by slot), [level_queue[3]] (line 61) and
    [global_tick] (line 62). *)
Record sched : Type := mkSched {
  ptable : list proc;
  level_queue : list (list nat);
  global_tick : Z
}.

Definition set_queued (v : Z) (p : proc) : proc :=
  mkProc (state p) (pid p) (level p) (priority p) (time_quantum p)
    (time_allotment p) (lock_scheduler p) v.

Definition set_running (q : Z) (p : proc) : proc :=
  mkProc RUNNING (pid p) (level p) (priority p) q
    (time_allotment p) (lock_scheduler p) 0.

(** Modelled from the spec: [enqueue] lives in [proc.c], which is not among
    the sources.  Admission into the queue of the process's level; an
    already-queued process (guard [already_enqueued] set) is left alone, a
    no-op and not an error; otherwise the process goes to the end of the
    queue of its level (the levels are served round-robin) and the guard
    is set. *)
Definition enqueue (i : nat) (s : sched) : sched :=
  match ptable s !! i with
  | None => s
  | Some p =>
      if (already_enqueued p =? 0)%Z
      then mkSched (<[i := set_queued 1 p]> (ptable s))
             (alter (fun q => q ++ [i]) (Z.to_nat (level p)) (level_queue s))
             (global_tick s)
      else s
  end.

(** The first non-empty level, scanning 0, 1, 2, and the head of its queue. *)
Fixpoint first_ready (qs : list (list nat)) (lvl : nat) : option (nat * nat) :=
  match qs with
  | [] => None
  | [] :: qs' => first_ready qs' (S lvl)
  | (i :: _) :: _ => Some (lvl, i)
  end.

(** Modelled from the spec: the dispatch of [proc.c], which is not among the
    sources.  The head of the first non-empty level leaves its queue,
    becomes [RUNNING], has its guard cleared and, on a fresh dispatch, its
    quantum set to that of its level ([quantum], a tunable). *)
Definition dispatch (quantum : nat -> Z) (fresh : bool) (s : sched)
  : option (nat * sched) :=
  match first_ready (level_queue s) 0 with
  | None => None
  | Some (lvl, i) =>
      match ptable s !! i with
      | None => None
      | Some p =>
          Some (i,
                mkSched
                  (<[i := set_running
                            (if fresh then quantum lvl else time_quantum p) p]>
                     (ptable s))
                  (alter (fun q => tail q) lvl (level_queue s))
                  (global_tick s))
      end
  end.

(** How many entries the process in slot [i] has in the queue of level [l]. *)
Definition entries (i : nat) (l : nat) (s : sched) : nat :=
  match level_queue s !! l with
  | Some q => count_occ Nat.eq_dec q i
  | None => 0
  end.

(** A scheduler with three empty levels and two runnable processes. *)
Definition two_procs : sched :=
  mkSched [mkProc RUNNABLE 1 0 0 0 0 0 0; mkProc RUNNABLE 2 1 0 0 0 0 0]
    [[]; []; []] 0.

End proc.

(** * The buffer cache (pj3/bio.c) *)

Module bio.

(** ** Memory of the cache *)

(** A [struct buf *] that the file ever forms: the null pointer of the
    zero-initialised image, [&bcache.head], or [&bcache.buf[i]]. *)
Inductive ptr : Type :=
| Null
| Head
| Slot (i : nat).

#[global] Instance ptr_eq_dec : EqDecision ptr.
Proof. solve_decision. Defined.

(** Modelled from the spec: [sleeplock.h]/[sleeplock.c] are not among the
    sources.  The per-buffer blocking lock of the spec keeps whether it is
    taken and by which process ([uint locked; int pid]). *)
Record sleeplock : Type := mkLock { locked : Z; pid : Z }.

(** The fields of [struct buf] that [bio.c] reads or writes ([buf.h] is not
    among the sources; the payload and the disk-queue link are never touched
    by this file). *)
Record buf : Type := mkBuf {
  flags : Z;
  dev : Z;
  blockno : Z;
  lock : sleeplock;
  refcnt : Z;
  prev : ptr;
  next : ptr
}.

(** The anonymous [struct { ... } bcache] (lines 28-36).  The spinlock
    [bcache.lock] has no field here: the embedding runs one call at a time,
    so [acquire]/[release] never change what the code sees. *)
Record bcache : Type := mkCache {
  slots : list buf;     (* struct buf buf[NBUF] *)
  isfull : Z;           (* int isfull *)
  head : buf            (* struct buf head *)
}.

Definition set_flags (v : Z) (b : buf) : buf :=
  mkBuf v (dev b) (blockno b) (lock b) (refcnt b) (prev b) (next b).
Definition set_dev (v : Z) (b : buf) : buf :=
  mkBuf (flags b) v (blockno b) (lock b) (refcnt b) (prev b) (next b).
Definition set_blockno (v : Z) (b : buf) : buf :=
  mkBuf (flags b) (dev b) v (lock b) (refcnt b) (prev b) (next b).
Definition set_lock (v : sleeplock) (b : buf) : buf :=
  mkBuf (flags b) (dev b) (blockno b) v (refcnt b) (prev b) (next b).
Definition set_refcnt (v : Z) (b : buf) : buf :=
  mkBuf (flags b) (dev b) (blockno b) (lock b) v (prev b) (next b).
Definition set_prev (v : ptr) (b : buf) : buf :=
  mkBuf (flags b) (dev b) (blockno b) (lock b) (refcnt b) v (next b).
Definition set_next (v : ptr) (b : buf) : buf :=
  mkBuf (flags b) (dev b) (blockno b) (lock b) (refcnt b) (prev b) v.

Definition set_isfull (v : Z) (st : bcache) : bcache :=
  mkCache (slots st) v (head st).

(** [*p] *)
Definition deref (st : bcache) (p : ptr) : option buf :=
  match p with
  | Null => None
  | Head => Some (head st)
  | Slot i => slots st !! i
  end.

(** [*p = b] *)
Definition store (p : ptr) (b : buf) (st : bcache) : bcache :=
  match p with
  | Null => st
  | Head => mkCache (slots st) (isfull st) b
  | Slot i => mkCache (<[i:=b]> (slots st)) (isfull st) (head st)
  end.

Arguments store : simpl never.

(** Unsigned 32-bit arithmetic of [uint refcnt], signed of [int cnt]. *)
Definition wrap_uint (z : Z) : Z := (z mod 2 ^ 32)%Z.
Definition wrap_int (z : Z) : Z := ((z + 2 ^ 31) mod 2 ^ 32 - 2 ^ 31)%Z.

(** ** What the file takes from the rest of the kernel *)

(** [param.h], [buf.h], [ide.c] and [log.c] are not among the sources.  The
    constants are parameters; of the two collaborators that receive a
    [struct buf *], the embedding keeps the one thing [bio.c] can observe
    afterwards, the flags word they leave in that buffer. *)
Class Platform : Type := {
  NBUF : nat;
  B_VALID : Z;
  B_DIRTY : Z;
  iderw : buf -> Z;
  log_write : buf -> Z;
  NBUF_int : (Z.of_nat NBUF < 2 ^ 31)%Z;
  B_DIRTY_flag : B_DIRTY <> 0%Z
}.

(** ** Calls, their outcomes and what they do outside the cache *)

(** A call into a collaborator, with the buffer as it is handed over. *)
Inductive event : Type :=
| EvSync
| EvIderw (p : ptr) (b : buf)
| EvLogWrite (p : ptr) (b : buf).

(** How a call can fail to return: [panic(msg)]; sleeping in
    [acquiresleep] on a lock that is taken (no other process runs in a
    sequential trace, so the call stays there); a dereference outside the
    cache; a loop or a nesting that never ends. *)
Inductive halt : Type :=
| Panic (msg : string)
| Blocked (p : ptr)
| Fault
| Diverge.

Inductive outcome (A : Type) : Type :=
| Ret (a : A) (st : bcache) (tr : list event)
| Stop (h : halt) (st : bcache) (tr : list event).
Arguments Ret {A} a st tr.
Arguments Stop {A} h st tr.

Definition M (A : Type) : Type := bcache -> outcome A.

Definition ret {A} (a : A) : M A := fun st => Ret a st [].

(** The calls made so far come before the calls of what runs next. *)
Definition prepend {A} (t : list event) (o : outcome A) : outcome A :=
  match o with
  | Ret a st t' => Ret a st (t ++ t')
  | Stop h st t' => Stop h st (t ++ t')
  end.

Definition bind {A B} (m : M A) (f : A -> M B) : M B :=
  fun st =>
    match m st with
    | Ret a st1 t1 => prepend t1 (f a st1)
    | Stop h st1 t1 => Stop h st1 t1
    end.

Definition omap {A B} (f : A -> B) (o : outcome A) : outcome B :=
  match o with
  | Ret a st t => Ret (f a) st t
  | Stop h st t => Stop h st t
  end.

Definition returned {A} (o : outcome A) : bool :=
  match o with Ret _ _ _ => true | Stop _ _ _ => false end.

Definition final {A} (o : outcome A) : bcache :=
  match o with Ret _ st _ | Stop _ st _ => st end.
Definition trace {A} (o : outcome A) : list event :=
  match o with Ret _ _ t | Stop _ _ t => t end.

Notation "x <- m ;; k" := (bind m (fun x => k))
  (at level 20, m at level 99, k at level 200, only parsing).
Notation "m ;; k" := (bind m (fun _ => k))
  (at level 100, k at level 200, right associativity, only parsing).

Definition stop {A} (h : halt) : M A := fun st => Stop h st [].
Definition panic {A} (msg : string) : M A := stop (Panic msg).
Definition emit (e : event) : M unit := fun st => Ret tt st [e].
Definition get : M bcache := fun st => Ret st st [].
Definition modify (f : bcache -> bcache) : M unit := fun st => Ret tt (f st) [].

(** Read through a pointer; a pointer outside the cache faults. *)
Definition load (p : ptr) : M buf :=
  fun st => match deref st p with
            | Some b => Ret b st []
            | None => Stop Fault st []
            end.

(** [p->field = v], as a change [f] of the cell [*p]. *)
Definition update (p : ptr) (f : buf -> buf) : M unit :=
  b <- load p ;; modify (store p (f b)).

(** ** The sleep lock of a buffer *)

(** Modelled from the spec: [holdingsleep] of [sleeplock.c], which is not
    among the sources.  The caller [me] holds the content lock when the
    lock is taken and taken by [me]. *)
Definition holdingsleep (me : Z) (lk : sleeplock) : bool :=
  negb (locked lk =? 0)%Z && (pid lk =? me)%Z.

(** Modelled from the spec: [acquiresleep] of [sleeplock.c], which is not
    among the sources.  There is no timeout: the caller blocks until the
    lock is free, then takes it. *)
Definition acquiresleep (me : Z) (p : ptr) : M unit :=
  b <- load p ;;
  if (locked (lock b) =? 0)%Z
  then update p (set_lock (mkLock 1 me))
  else stop (Blocked p).

(** Modelled from the spec: [releasesleep] and [initsleeplock] of
    [sleeplock.c], which is not among the sources.  Both leave the lock
    free. *)
Definition releasesleep (p : ptr) : M unit :=
  update p (set_lock (mkLock 0 0)).

Definition initsleeplock (p : ptr) : M unit :=
  update p (set_lock (mkLock 0 0)).

Section Code.
Context {pf : Platform}.

Definition dirty (b : buf) : bool := negb (Z.land (flags b) B_DIRTY =? 0)%Z.
Definition valid (b : buf) : bool := negb (Z.land (flags b) B_VALID =? 0)%Z.

(** ** binit (lines 38-56) *)

(** The image the loader hands to [binit]: every byte of [bcache] zero. *)
Definition zero_buf : buf := mkBuf 0 0 0 (mkLock 0 0) 0 Null Null.
Definition zero_bcache : bcache := mkCache (replicate NBUF zero_buf) 0 zero_buf.

(** Body of the [for] loop, lines 50-54, for [b = &bcache.buf[i]]. *)
Definition binit_step (i : nat) : M unit :=
  h <- load Head ;; update (Slot i) (set_next (next h)) ;;
  update (Slot i) (set_prev Head) ;;
  initsleeplock (Slot i) ;;
  h <- load Head ;; update (next h) (set_prev (Slot i)) ;;
  update Head (set_next (Slot i)).

Fixpoint binit_loop (todo : list nat) : M unit :=
  match todo with
  | [] => ret tt
  | i :: todo' => binit_step i ;; binit_loop todo'
  end.

Definition binit : M unit :=
  update Head (set_prev Head) ;;
  update Head (set_next Head) ;;
  binit_loop (seq 0 NBUF).

(** ** buffer_isfull (lines 179-194) *)

(** The [for] loop of lines 186-190, entered at [b] with [cnt] so far.  The
    list threads at most [NBUF] slots before it is back at the sentinel, so
    a walk of more than [NBUF + 1] cells is a walk that never ends. *)
Fixpoint buffer_isfull_loop (fuel : nat) (b : ptr) (cnt : Z) : M Z :=
  match fuel with
  | O => stop Diverge
  | S fuel' =>
      if decide (b = Head) then ret cnt
      else
        bb <- load b ;;
        buffer_isfull_loop fuel' (next bb)
          (if dirty bb then wrap_int (cnt + 1) else cnt)
  end.

Definition buffer_isfull : M Z :=
  h <- load Head ;;
  cnt <- buffer_isfull_loop (S NBUF) (next h) 0 ;;
  if (cnt >=? Z.of_nat NBUF - 3)%Z then ret 1%Z else ret 0%Z.

(** ** logDirtyBuffer (lines 158-176) *)

Definition call_log_write (p : ptr) : M unit :=
  b <- load p ;;
  emit (EvLogWrite p b) ;;
  update p (set_flags (log_write b)).

Fixpoint logDirtyBuffer_loop (fuel : nat) (b : ptr) (cnt : Z) : M Z :=
  match fuel with
  | O => stop Diverge
  | S fuel' =>
      if decide (b = Head) then ret cnt
      else
        bb <- load b ;;
        cnt' <- (if dirty bb
                 then call_log_write b ;; ret (wrap_int (cnt + 1))
                 else ret cnt) ;;
        bb' <- load b ;;
        logDirtyBuffer_loop fuel' (next bb') cnt'
  end.

Definition logDirtyBuffer : M Z :=
  h <- load Head ;;
  logDirtyBuffer_loop (S NBUF) (next h) 0.

(** ** bget (lines 61-106) *)

(** First loop, lines 82-89: is the block already cached? *)
Fixpoint bget_cached (fuel : nat) (me : Z) (b : ptr) (dv bn : Z)
  : M (option ptr) :=
  match fuel with
  | O => stop Diverge
  | S fuel' =>
      if decide (b = Head) then ret None
      else
        bb <- load b ;;
        if (dev bb =? dv)%Z && (blockno bb =? bn)%Z then
          update b (set_refcnt (wrap_uint (refcnt bb + 1))) ;;
          acquiresleep me b ;;
          ret (Some b)
        else bget_cached fuel' me (next bb) dv bn
  end.

(** Second loop, lines 94-104: recycle from the other end of the list. *)
Fixpoint bget_recycle (fuel : nat) (me : Z) (b : ptr) (dv bn : Z)
  : M (option ptr) :=
  match fuel with
  | O => stop Diverge
  | S fuel' =>
      if decide (b = Head) then ret None
      else
        bb <- load b ;;
        if (refcnt bb =? 0)%Z && negb (dirty bb) then
          update b (set_dev dv) ;;
          update b (set_blockno bn) ;;
          update b (set_flags 0) ;;
          update b (set_refcnt 1) ;;
          acquiresleep me b ;;
          ret (Some b)
        else bget_recycle fuel' me (prev bb) dv bn
  end.

(** Lines 66-77.  [sync] is what the call [sync()] does from here. *)
Definition bget_flush (sync : M unit) : M unit :=
  st <- get ;;
  full <- (if (isfull st =? 0)%Z then buffer_isfull else ret 0%Z) ;;
  if (isfull st =? 0)%Z && negb (full =? 0)%Z then
    modify (set_isfull 1) ;;
    emit EvSync ;;
    sync ;;
    modify (set_isfull 0)
  else ret tt.

(** Lines 79-105. *)
Definition bget_scan (me dv bn : Z) : M ptr :=
  h <- load Head ;;
  r <- bget_cached (S NBUF) me (next h) dv bn ;;
  match r with
  | Some b => ret b
  | None =>
      h <- load Head ;;
      r <- bget_recycle (S NBUF) me (prev h) dv bn ;;
      match r with
      | Some b => ret b
      | None => panic "bget: no buffers"
      end
  end.

Definition bget (sync : M unit) (me dv bn : Z) : M ptr :=
  bget_flush sync ;; bget_scan me dv bn.

(** ** bread, bwrite, brelse (lines 108-154) *)

Definition call_iderw (p : ptr) : M unit :=
  b <- load p ;;
  emit (EvIderw p b) ;;
  update p (set_flags (iderw b)).

Definition bread (sync : M unit) (me dv bn : Z) : M ptr :=
  b <- bget sync me dv bn ;;
  bb <- load b ;;
  (if valid bb then ret tt else call_iderw b) ;;
  ret b.

Definition bwrite (me : Z) (b : ptr) : M unit :=
  bb <- load b ;;
  if negb (holdingsleep me (lock bb)) then panic "bwrite"
  else
    update b (set_flags (Z.lor (flags bb) B_DIRTY)) ;;
    call_iderw b.

Definition brelse (me : Z) (b : ptr) : M unit :=
  bb <- load b ;;
  if negb (holdingsleep me (lock bb)) then panic "brelse"
  else
    releasesleep b ;;
    bb <- load b ;; update b (set_refcnt (wrap_uint (refcnt bb - 1))) ;;
    bb <- load b ;;
    if (refcnt bb =? 0)%Z then
      x <- load b ;; update (next x) (set_prev (prev x)) ;;
      x <- load b ;; update (prev x) (set_next (next x)) ;;
      h <- load Head ;; update b (set_next (next h)) ;;
      update b (set_prev Head) ;;
      h <- load Head ;; update (next h) (set_prev b) ;;
      update Head (set_next b)
    else ret tt.

(** ** Clients of the cache, and the flush collaborator *)

(** [bcache] is private to this file: the rest of the kernel reaches it only
    through a sequence of calls of the five functions the file exports, each
    next call chosen from what the earlier ones returned, and through the
    buffers [bread] returned, which the file system hands to [log_write]. *)
Inductive prog : Type :=
| Done
| DoBread (dv bn : Z) (k : ptr -> prog)
| DoBwrite (b : ptr) (k : prog)
| DoBrelse (b : ptr) (k : prog)
| DoLogDirtyBuffer (k : Z -> prog)
| DoBufferIsfull (k : Z -> prog)
| DoLogWrite (b : ptr) (k : prog).

Fixpoint run (sync : M unit) (me : Z) (p : prog) : M unit :=
  match p with
  | Done => ret tt
  | DoBread dv bn k => b <- bread sync me dv bn ;; run sync me (k b)
  | DoBwrite b k => bwrite me b ;; run sync me k
  | DoBrelse b k => brelse me b ;; run sync me k
  | DoLogDirtyBuffer k => n <- logDirtyBuffer ;; run sync me (k n)
  | DoBufferIsfull k => n <- buffer_isfull ;; run sync me (k n)
  | DoLogWrite b k => call_log_write b ;; run sync me k
  end.

(** [sync()] of [log.c] is such a client, [body], run by the process that
    called [bget]; the calls it makes reach [bget] again, whose own [sync()]
    is the same function one level deeper.  [depth] is how many levels the
    embedding follows. *)
Fixpoint sync (body : prog) (depth : nat) (me : Z) : M unit :=
  match depth with
  | O => stop Diverge
  | S depth' => run (sync body depth' me) me body
  end.

(** The cache as [main] leaves it. *)
Definition boot : bcache := final (binit zero_bcache).

(** ** Reading a state *)

Definition nxt (st : bcache) (p : ptr) : option ptr := next <$> deref st p.
Definition prv (st : bcache) (p : ptr) : option ptr := prev <$> deref st p.

(** What a cell holds besides its two links. *)
Definition core (b : buf) : Z * Z * Z * sleeplock * Z :=
  (flags b, dev b, blockno b, lock b, refcnt b).

(** [st'] differs from [st] in links at most. *)
Definition same_data (st st' : bcache) : Prop :=
  (forall q, core <$> deref st' q = core <$> deref st q) /\
  isfull st' = isfull st /\
  length (slots st') = length (slots st).

(** [q] follows [p] on the list, in both directions. *)
Definition succ (st : bcache) (p q : ptr) : Prop :=
  nxt st p = Some q /\ prv st q = Some p.

(** The [k]-th cell of the list that threads the slots [l] from
    [head.next] on: the sentinel, the slots in order, the sentinel again. *)
Definition pos (l : list nat) (k : nat) : ptr :=
  match k with
  | O => Head
  | S k' => match l !! k' with Some i => Slot i | None => Head end
  end.

(** The [prev]/[next] fields of [st] thread exactly the slots [l], the most
    recently used first. *)
Definition linked (st : bcache) (l : list nat) : Prop :=
  NoDup l /\
  (forall i, i ∈ l -> i < length (slots st)) /\
  (forall k, k <= length l -> succ st (pos l k) (pos l (S k))).

(** ... and these are all [NBUF] buffers of the pool. *)
Definition ring (st : bcache) (l : list nat) : Prop :=
  linked st l /\ length (slots st) = NBUF /\ (forall i, i < NBUF -> i ∈ l).

(** Following [next] from [p] meets the slots [s] and then the sentinel. *)
Fixpoint chain_next (st : bcache) (p : ptr) (s : list nat) : Prop :=
  match s with
  | [] => p = Head
  | i :: s' =>
      p = Slot i /\
      exists b, slots st !! i = Some b /\ chain_next st (next b) s'
  end.

Fixpoint chain_prev (st : bcache) (p : ptr) (s : list nat) : Prop :=
  match s with
  | [] => p = Head
  | i :: s' =>
      p = Slot i /\
      exists b, slots st !! i = Some b /\ chain_prev st (prev b) s'
  end.

(** [ring], decided. *)
Definition ring_check (st : bcache) (l : list nat) : bool :=
  bool_decide (NoDup l) &&
  forallb (fun i => i <? length (slots st)) l &&
  forallb (fun k =>
             bool_decide (nxt st (pos l k) = Some (pos l (S k))) &&
             bool_decide (prv st (pos l (S k)) = Some (pos l k)))
          (seq 0 (S (length l))) &&
  (length (slots st) =? NBUF) &&
  forallb (fun i => bool_decide (i ∈ l)) (seq 0 NBUF).

(** The tests of the two loops of [bget]. *)
Definition ident (dv bn : Z) (b : buf) : bool :=
  (dev b =? dv)%Z && (blockno b =? bn)%Z.
Definition unused (b : buf) : bool :=
  (refcnt b =? 0)%Z && negb (dirty b).

Definition test_at (st : bcache) (P : buf -> bool) (i : nat) : bool :=
  match slots st !! i with Some b => P b | None => false end.

(** The first slot of [l] whose buffer passes [P]. *)
Fixpoint first_match (st : bcache) (P : buf -> bool) (l : list nat)
  : option nat :=
  match l with
  | [] => None
  | i :: l' => if test_at st P i then Some i else first_match st P l'
  end.

Fixpoint count (P : nat -> bool) (l : list nat) : nat :=
  match l with
  | [] => 0
  | i :: l' => (if P i then 1 else 0) + count P l'
  end.

(** How many of the [NBUF] buffers have [B_DIRTY] set. *)
Definition ndirty (st : bcache) : nat :=
  count (test_at st dirty) (seq 0 NBUF).

(** The pressure test of [buffer_isfull], line 192. *)
Definition pressure (st : bcache) : bool :=
  (Z.of_nat (ndirty st) >=? Z.of_nat NBUF - 3)%Z.

(** What [logDirtyBuffer] leaves of [st] once it has walked the slots [s],
    and the calls it has made on the way. *)
Fixpoint logged (st : bcache) (s : list nat) : bcache :=
  match s with
  | [] => st
  | i :: s' =>
      logged (match slots st !! i with
              | Some b =>
                  if dirty b then store (Slot i) (set_flags (log_write b) b) st
                  else st
              | None => st
              end) s'
  end.

Fixpoint log_events (st : bcache) (s : list nat) : list event :=
  match s with
  | [] => []
  | i :: s' =>
      match slots st !! i with
      | Some b => if dirty b then [EvLogWrite (Slot i) b] else []
      | None => []
      end ++ log_events st s'
  end.

(** The end of the first loop of [bget] on the slot [i] it has found:
    one more reference, then the lock. *)
Definition take_hit (me : Z) (i : nat) (st : bcache) : outcome ptr :=
  match slots st !! i with
  | None => Stop Fault st []
  | Some b =>
      let b1 := set_refcnt (wrap_uint (refcnt b + 1)) b in
      if (locked (lock b) =? 0)%Z
      then Ret (Slot i) (store (Slot i) (set_lock (mkLock 1 me) b1) st) []
      else Stop (Blocked (Slot i)) (store (Slot i) b1 st) []
  end.

(** The end of the second loop on the slot [i] it recycles. *)
Definition take_free (me dv bn : Z) (i : nat) (st : bcache) : outcome ptr :=
  match slots st !! i with
  | None => Stop Fault st []
  | Some b =>
      let b1 := mkBuf 0 dv bn (lock b) 1 (prev b) (next b) in
      if (locked (lock b) =? 0)%Z
      then Ret (Slot i) (store (Slot i) (set_lock (mkLock 1 me) b1) st) []
      else Stop (Blocked (Slot i)) (store (Slot i) b1 st) []
  end.

(** A lock is taken exactly while its buffer has its one holder. *)
Definition held_ok (b : buf) : Prop :=
  (locked (lock b) = 0 /\ refcnt b = 0)%Z \/
  (locked (lock b) = 1 /\ refcnt b = 1)%Z.

(** Two slots with one identity are an exception [E] of that identity. *)
Definition ident_ok (E : Z -> Z -> Prop) (st : bcache) : Prop :=
  forall i j bi bj,
    i <> j -> slots st !! i = Some bi -> slots st !! j = Some bj ->
    dev bi = dev bj -> blockno bi = blockno bj ->
    E (dev bi) (blockno bi).

(** The one exception there is from boot on: the zero identity that every
    slot of the loaded image carries. *)
Definition zero_ident (d b : Z) : Prop := (d = 0 /\ b = 0)%Z.


Definition inv_with (E : Z -> Z -> Prop) (st : bcache) : Prop :=
  (exists l, ring st l) /\
  (forall i b, slots st !! i = Some b -> held_ok b) /\
  ident_ok E st /\
  locked (lock (head st)) = 0%Z.

Definition inv (st : bcache) : Prop := inv_with zero_ident st.

(** A piece of code that, when it returns, returns with the invariant. *)
Definition preserves (E : Z -> Z -> Prop) {A} (m : M A) : Prop :=
  forall st a st' tr, inv_with E st -> m st = Ret a st' tr -> inv_with E st'.

(** A piece of code that never calls [sync()] nor writes the guard. *)
Definition quiet {A} (m : M A) : Prop :=
  forall st, isfull (final (m st)) = isfull st /\ EvSync ∉ trace (m st).

(** Is [e] a call of [log_write] on the buffer at [p]? *)
Definition logs (p : ptr) (e : event) : bool :=
  match e with
  | EvLogWrite q _ => bool_decide (q = p)
  | _ => false
  end.

(** [st'] is [st] up to the flags words of the slots. *)
Definition flags_only (st st' : bcache) : Prop :=
  head st' = head st /\
  isfull st' = isfull st /\
  length (slots st') = length (slots st) /\
  forall i b', slots st' !! i = Some b' ->
    exists b, slots st !! i = Some b /\ set_flags (flags b) b' = b.

(** A piece of code that only reads. *)
Definition pure {A} (m : M A) : Prop :=
  forall st, final (m st) = st /\ trace (m st) = [].

(** A piece of code that stops on a wild pointer at worst: it has no
    [panic] and no lock to wait for. *)
Definition calm {A} (m : M A) : Prop :=
  forall st h st' tr, m st = Stop h st' tr -> h = Fault.

(** The states the kernel can bring the cache to: [binit], then one client
    after the other, each run to its end by some process. *)
Inductive reachable : bcache -> Prop :=
| reach_boot : reachable boot
| reach_run st st' body depth me p tr :
    reachable st ->
    run (sync body depth me) me p st = Ret tt st' tr ->
    reachable st'.

(** ** Predicates on code, for the properties of whole clients *)

(** What the file owes the driver for a buffer it hands over: the caller
    holds the lock of the buffer, and the buffer is not yet valid or is
    dirty, so that there is something to read or to write. *)
Definition iderw_ok (me : Z) (e : event) : Prop :=
  match e with
  | EvIderw _ b =>
      holdingsleep me (lock b) = true /\ (valid b = false \/ dirty b = true)
  | _ => True
  end.

(** Is [e] a call of the driver or of the log on the buffer at [p]? *)
Definition touches (p : ptr) (e : event) : bool :=
  match e with
  | EvIderw q _ | EvLogWrite q _ => bool_decide (q = p)
  | EvSync => false
  end.

(** A piece of code that returns with the guard as it found it. *)
Definition balanced {A} (m : M A) : Prop :=
  forall st a st' tr, m st = Ret a st' tr -> isfull st' = isfull st.

(** A piece of code all of whose calls satisfy [P], also when it does
    not return. *)
Definition emits (P : event -> Prop) {A} (m : M A) : Prop :=
  forall st, Forall P (trace (m st)).

(** A piece of code that, on a cache with the invariant, leaves a dirty
    buffer dirty and with its block, unless it calls the driver or the log
    on that buffer. *)
Definition pinned {A} (m : M A) : Prop :=
  forall st a st' tr i b,
    inv st -> m st = Ret a st' tr ->
    slots st !! i = Some b -> dirty b = true ->
    existsb (touches (Slot i)) tr = true \/
    exists b', slots st' !! i = Some b' /\ dirty b' = true /\
               dev b' = dev b /\ blockno b' = blockno b.

(** ** Processes that run the code in turn *)

(** Between two calls, and inside a call wherever it holds neither
    [bcache.lock] nor is inside an operation of a sleep lock, a process can
    give way to another.  For what the others can then see of a call, the
    file falls into parts that each run at once. *)

(** [bget] under [bcache.lock], lines 79-85, 94-100 and 105: the two scans,
    each up to its [release], with the reference counted and the lock of
    the buffer still to take, and the panic. *)
Fixpoint bget_cached_pick (fuel : nat) (b : ptr) (dv bn : Z)
  : M (option ptr) :=
  match fuel with
  | O => stop Diverge
  | S fuel' =>
      if decide (b = Head) then ret None
      else
        bb <- load b ;;
        if (dev bb =? dv)%Z && (blockno bb =? bn)%Z then
          update b (set_refcnt (wrap_uint (refcnt bb + 1))) ;;
          ret (Some b)
        else bget_cached_pick fuel' (next bb) dv bn
  end.

Fixpoint bget_recycle_pick (fuel : nat) (b : ptr) (dv bn : Z)
  : M (option ptr) :=
  match fuel with
  | O => stop Diverge
  | S fuel' =>
      if decide (b = Head) then ret None
      else
        bb <- load b ;;
        if (refcnt bb =? 0)%Z && negb (dirty bb) then
          update b (set_dev dv) ;;
          update b (set_blockno bn) ;;
          update b (set_flags 0) ;;
          update b (set_refcnt 1) ;;
          ret (Some b)
        else bget_recycle_pick fuel' (prev bb) dv bn
  end.

Definition bget_pick (dv bn : Z) : M ptr :=
  h <- load Head ;;
  r <- bget_cached_pick (S NBUF) (next h) dv bn ;;
  match r with
  | Some b => ret b
  | None =>
      h <- load Head ;;
      r <- bget_recycle_pick (S NBUF) (prev h) dv bn ;;
      match r with
      | Some b => ret b
      | None => panic "bget: no buffers"
      end
  end.

(** [brelse] up to its [releasesleep], lines 136-139, and [brelse] under
    [bcache.lock], lines 141-153. *)
Definition brelse_unlock (me : Z) (b : ptr) : M unit :=
  bb <- load b ;;
  if negb (holdingsleep me (lock bb)) then panic "brelse"
  else releasesleep b.

Definition brelse_drop (b : ptr) : M unit :=
  bb <- load b ;; update b (set_refcnt (wrap_uint (refcnt bb - 1))) ;;
  bb <- load b ;;
  if (refcnt bb =? 0)%Z then
    x <- load b ;; update (next x) (set_prev (prev x)) ;;
    x <- load b ;; update (prev x) (set_next (next x)) ;;
    h <- load Head ;; update b (set_next (next h)) ;;
    update b (set_prev Head) ;;
    h <- load Head ;; update (next h) (set_prev b) ;;
    update Head (set_next b)
  else ret tt.

(** Where a process stands that is inside a call with a reference of its
    own counted and no lock for it: it has left the scan of [bget] with
    the buffer and has its lock still to take, asleep in [acquiresleep]
    (line 86 or 101) or about to call it; or it has released the lock in
    [brelse] (line 139) and has the reference still to give back
    (line 142). *)
Inductive stage : Type :=
| Locking (b : ptr)
| Dropping (b : ptr).

Definition buffer_of (x : stage) : ptr :=
  match x with Locking b | Dropping b => b end.

(** How many of the processes [w] stand at the buffer at [p]. *)
Definition nrefs (p : ptr) (w : list (Z * stage)) : nat :=
  length (filter (fun x => buffer_of x.2 = p) w).

(** Modelled from the spec: [sleep] and [wakeup] of [proc.c], the loop of
    [acquiresleep] and the process table of [nproc] entries are not among
    the sources.  A caller of the content lock blocks until the lock is
    free, and the others run meanwhile.  [reached nproc st w] are the
    states [st] of the cache that [nproc] processes running the file in
    turn bring it to from boot, with the processes [w] at a stage inside
    [bget] or [brelse].  A process that is at no stage stores the guard
    (lines 69, 75), stores a flags word in a buffer (line 127, and what
    the driver and the log, which are not among the sources, leave there),
    runs the scan of [bget] or releases a lock in [brelse]; a process at a
    stage takes the lock it goes for once that lock is free, or gives its
    reference back.  The parts are run in any order, which is more than
    the callers of the file do. *)
Inductive reached (nproc : nat) : bcache -> list (Z * stage) -> Prop :=
| reached_boot : reached nproc boot []
| reached_guard st w me v :
    reached nproc st w ->
    me ∉ w.*1 ->
    reached nproc (set_isfull v st) w
| reached_flags st w me b v st' tr :
    reached nproc st w ->
    me ∉ w.*1 ->
    update b (set_flags v) st = Ret tt st' tr ->
    reached nproc st' w
| reached_pick st w me dv bn b st' tr :
    reached nproc st w ->
    me ∉ w.*1 ->
    length w < nproc ->
    bget_pick dv bn st = Ret b st' tr ->
    reached nproc st' ((me, Locking b) :: w)
| reached_lock st w1 w2 me b st' tr :
    reached nproc st (w1 ++ (me, Locking b) :: w2) ->
    acquiresleep me b st = Ret tt st' tr ->
    reached nproc st' (w1 ++ w2)
| reached_unlock st w me b st' tr :
    reached nproc st w ->
    me ∉ w.*1 ->
    length w < nproc ->
    brelse_unlock me b st = Ret tt st' tr ->
    reached nproc st' ((me, Dropping b) :: w)
| reached_drop st w1 w2 me b st' tr :
    reached nproc st (w1 ++ (me, Dropping b) :: w2) ->
    brelse_drop b st = Ret tt st' tr ->
    reached nproc st' (w1 ++ w2).

(** The reference count of every buffer counts the holder of its lock and
    the processes that stand at it. *)
Definition counted (nproc : nat) (st : bcache) (w : list (Z * stage))
  : Prop :=
  (exists l, ring st l) /\
  locked (lock (head st)) = 0%Z /\
  length w <= nproc /\
  nrefs Head w = 0 /\
  forall i b, slots st !! i = Some b ->
    (locked (lock b) = 0 \/ locked (lock b) = 1)%Z /\
    refcnt b = (locked (lock b) + Z.of_nat (nrefs (Slot i) w))%Z.

(** A set of states that no part run by the process [me] leads out of. *)
Definition closed (nproc : nat) (me : Z)
    (P : bcache -> list (Z * stage) -> Prop) : Prop :=
  (forall st w v, P st w -> me ∉ w.*1 -> P (set_isfull v st) w) /\
  (forall st w b v st' tr,
     P st w -> me ∉ w.*1 ->
     update b (set_flags v) st = Ret tt st' tr -> P st' w) /\
  (forall st w dv bn b st' tr,
     P st w -> me ∉ w.*1 -> length w < nproc ->
     bget_pick dv bn st = Ret b st' tr -> P st' ((me, Locking b) :: w)) /\
  (forall st w1 w2 b st' tr,
     P st (w1 ++ (me, Locking b) :: w2) ->
     acquiresleep me b st = Ret tt st' tr -> P st' (w1 ++ w2)) /\
  (forall st w b st' tr,
     P st w -> me ∉ w.*1 -> length w < nproc ->
     brelse_unlock me b st = Ret tt st' tr ->
     P st' ((me, Dropping b) :: w)) /\
  (forall st w1 w2 b st' tr,
     P st (w1 ++ (me, Dropping b) :: w2) ->
     brelse_drop b st = Ret tt st' tr -> P st' (w1 ++ w2)).

(** A piece of code that keeps its caller [me], one of the [nproc]
    processes and at no stage, inside [P]: when it returns, and when it
    leaves [me] asleep in [acquiresleep]. *)
Definition keeps (nproc : nat) (me : Z)
    (P : bcache -> list (Z * stage) -> Prop) {A} (m : M A) : Prop :=
  forall st w, P st w -> me ∉ w.*1 -> length w < nproc ->
    (forall a st' tr, m st = Ret a st' tr -> P st' w) /\
    (forall q st' tr,
       m st = Stop (Blocked q) st' tr -> P st' ((me, Locking q) :: w)).

(** A piece of code in which no process sleeps. *)
Definition awake {A} (m : M A) : Prop :=
  forall st q st' tr, m st <> Stop (Blocked q) st' tr.

(** What a process that has taken the lock in [acquiresleep] has left to
    run.  It is in [bget], at line 87 or 102, with the buffer [b] to return
    to [bread], which goes on from line 115 and returns to its caller,
    whose next calls are [k b].  When that caller is the flush [sync()],
    with [depth] levels of it left to follow, the flush was called by a
    [bget] for some block [(dv, bn)], which goes on from line 74 when the
    flush returns, then its [bread] and the caller [k'] of that; and so on
    outwards. *)
Fixpoint resume (body : prog) (me : Z) (depth : nat) (b : ptr)
    (k : ptr -> prog) (outer : list (Z * Z * (ptr -> prog))) : M unit :=
  bb <- load b ;;
  (if valid bb then ret tt else call_iderw b) ;;
  run (sync body depth me) me (k b) ;;
  match outer with
  | [] => ret tt
  | (dv, bn, k') :: outer' =>
      modify (set_isfull 0) ;;
      b' <- bget_scan me dv bn ;;
      resume body me (S depth) b' k' outer'
  end.

(** The end of the scans of [bget_pick] on the slot they have found. *)
Definition pick_hit (i : nat) (st : bcache) : outcome ptr :=
  match slots st !! i with
  | None => Stop Fault st []
  | Some b =>
      Ret (Slot i)
        (store (Slot i) (set_refcnt (wrap_uint (refcnt b + 1)) b) st) []
  end.

Definition pick_free (dv bn : Z) (i : nat) (st : bcache) : outcome ptr :=
  match slots st !! i with
  | None => Stop Fault st []
  | Some b =>
      Ret (Slot i)
        (store (Slot i) (mkBuf 0 dv bn (lock b) 1 (prev b) (next b)) st) []
  end.

End Code.


(** A pool small enough to write states out in full. *)
#[program] Definition tiny : Platform := {|
  NBUF := 5;
  B_VALID := 2;
  B_DIRTY := 4;
  iderw b := Z.land (Z.lor (flags b) 2) (Z.lnot 4);
  log_write b := Z.lor (flags b) 4
|}.
Next Obligation. reflexivity. Qed.
Next Obligation. discriminate. Qed.

(** Scenarios on the small pool, all run from boot by process 7 with a
    flush that does nothing: read block [(1, n)], hand it to the log (which
    marks it dirty) and release it; read it and keep it. *)
Definition touch (n : Z) (k : prog) : prog :=
  DoBread 1 n (fun b => DoLogWrite b (DoBrelse b k)).
Definition hold (n : Z) (k : prog) : prog :=
  DoBread 1 n (fun _ => k).
Definition visit (n : Z) (k : prog) : prog :=
  DoBread 1 n (fun b => DoBrelse b k).
Definition after (p : prog) : bcache :=
  final (@run tiny (@sync tiny Done 1 7) 7 p (@boot tiny)).

(** One dirty buffer, below the threshold of two; two dirty buffers, at it. *)
Definition one_dirty : bcache := after (touch 10 Done).
Definition two_dirty : bcache := after (touch 10 (touch 11 Done)).

(** One buffer held; all five held; all five used and released, the least
    recently used one dirty. *)
Definition one_held : bcache := after (hold 10 Done).
Definition all_held : bcache :=
  after (hold 10 (hold 11 (hold 12 (hold 13 (hold 14 Done))))).
Definition lru_dirty : bcache :=
  after (touch 10 (visit 11 (visit 12 (visit 13 (visit 14 Done))))).

(** A memory that was never zeroed: five slots with stale links, taken
    locks and counts, for [binit] to thread. *)
Definition scrap : bcache :=
  mkCache (replicate 5 (mkBuf 7 3 9 (mkLock 1 4) 2 Null (Slot 9))) 0
    (mkBuf 0 0 0 (mkLock 0 0) 0 Null (Slot 3)).

(** All five buffers dirty and released; a flush that writes block
    [(1, n)] back and one that reads three blocks and keeps them; the
    cache after process 8 has asked for the block that process 7 holds
    in [one_held]. *)
Definition all_dirty : bcache :=
  after (touch 10 (touch 11 (touch 12 (touch 13 (touch 14 Done))))).
Definition write_back (n : Z) : prog :=
  DoBread 1 n (fun b => DoBwrite b (DoBrelse b Done)).
Definition keep3 : prog := hold 20 (hold 21 (hold 22 Done)).
Definition waiting : bcache :=
  final (@bread tiny (@sync tiny Done 1 8) 8 1 10 one_held).

(** ** The same code with the pool lock *)

(** The embedding above runs one call at a time and leaves out the spin
    lock [bcache.lock].  What follows is the same file with every
    [initlock], [acquire] and [release] at its place; the lock is a flag,
    and what is kept of a run is a log: each lock operation, each store to
    a field of a buffer or to the guard, each [acquiresleep] and each call
    of a collaborator, with whether [bcache.lock] was held at that
    moment. *)
Module spin.

(** The fields of [struct buf] that the file writes. *)
Inductive field : Type :=
| Fflags | Fdev | Fblockno | Flock | Frefcnt | Fprev | Fnext.

Inductive op : Type :=
| Initlock                                   (* initlock(&bcache.lock, ...) *)
| Acquire (held : bool)                      (* acquire(&bcache.lock) *)
| Release (held : bool)                      (* release(&bcache.lock) *)
| Store (held : bool) (p : ptr) (f : field)  (* p->f = ... *)
| Guard (held : bool)                        (* bcache.isfull = ... *)
| Test (held : bool)                         (* bcache.isfull == 0 *)
| Sleep (held : bool) (p : ptr)              (* acquiresleep(&p->lock) *)
| Call (held : bool) (e : event).            (* sync(), iderw(b), log_write(b) *)

(** Modelled from the spec: [spinlock.h]/[spinlock.c] are not among the
    sources.  The pool lock is a mutual-exclusion lock: [held] says
    whether the running process has it. *)
Record kernel : Type := mkKernel {
  mem : bcache;
  held : bool;
  ops : list op
}.

Inductive result (A : Type) : Type :=
| Ok (a : A) (k : kernel)
| Halt (h : halt) (k : kernel).
Arguments Ok {A} a k.
Arguments Halt {A} h k.

Definition K (A : Type) : Type := kernel -> result A.

Definition kret {A} (a : A) : K A := fun k => Ok a k.

Definition kbind {A B} (m : K A) (f : A -> K B) : K B :=
  fun k =>
    match m k with
    | Ok a k1 => f a k1
    | Halt h k1 => Halt h k1
    end.

Declare Scope spin_scope.
Notation "x <- m ;; k" := (kbind m (fun x => k))
  (at level 20, m at level 99, k at level 200, only parsing) : spin_scope.
Notation "m ;; k" := (kbind m (fun _ => k))
  (at level 100, k at level 200, right associativity, only parsing)
  : spin_scope.
Local Open Scope spin_scope.

Definition kfinal {A} (r : result A) : kernel :=
  match r with Ok _ k | Halt _ k => k end.

(** One more line of the log. *)
Definition note (o : bool -> op) : K unit :=
  fun k => Ok tt (mkKernel (mem k) (held k) (ops k ++ [o (held k)])).

(** A piece of the code above that neither takes nor releases the lock;
    the calls it makes are noted. *)
Definition lift {A} (m : M A) : K A :=
  fun k =>
    let k' st tr :=
      mkKernel st (held k) (ops k ++ List.map (Call (held k)) tr) in
    match m (mem k) with
    | Ret a st tr => Ok a (k' st tr)
    | Stop h st tr => Halt h (k' st tr)
    end.

(** Modelled from the spec: [acquire] and [release] of [spinlock.c], which
    is not among the sources.  The lock is taken, the lock is given back;
    the log keeps whether it was held before. *)
Definition acquire : K unit :=
  fun k => Ok tt (mkKernel (mem k) true (ops k ++ [Acquire (held k)])).

Definition release : K unit :=
  fun k => Ok tt (mkKernel (mem k) false (ops k ++ [Release (held k)])).

(** A store [p->f = v]: the field and the change of the cell. *)
Definition write : Type := field * (buf -> buf).
Definition flags_is (v : Z) : write := (Fflags, set_flags v).
Definition dev_is (v : Z) : write := (Fdev, set_dev v).
Definition blockno_is (v : Z) : write := (Fblockno, set_blockno v).
Definition lock_is (v : sleeplock) : write := (Flock, set_lock v).
Definition refcnt_is (v : Z) : write := (Frefcnt, set_refcnt v).
Definition prev_is (v : ptr) : write := (Fprev, set_prev v).
Definition next_is (v : ptr) : write := (Fnext, set_next v).

Definition assign (p : ptr) (w : write) : K unit :=
  note (fun h => Store h p (fst w)) ;; lift (update p (snd w)).

Definition isfull_is (v : Z) : K unit :=
  note Guard ;; lift (modify (set_isfull v)).

Definition load (p : ptr) : K buf := lift (load p).
Definition panic {A} (msg : string) : K A := lift (panic msg).

Definition acquiresleep (me : Z) (p : ptr) : K unit :=
  note (fun h => Sleep h p) ;; lift (acquiresleep me p).
Definition releasesleep (p : ptr) : K unit := assign p (lock_is (mkLock 0 0)).
Definition initsleeplock (p : ptr) : K unit := assign p (lock_is (mkLock 0 0)).

Section Locked.
Context {pf : Platform}.

(** binit, lines 38-56. *)
Definition binit_step (i : nat) : K unit :=
  h <- load Head ;; assign (Slot i) (next_is (next h)) ;;
  assign (Slot i) (prev_is Head) ;;
  initsleeplock (Slot i) ;;
  h <- load Head ;; assign (next h) (prev_is (Slot i)) ;;
  assign Head (next_is (Slot i)).

Fixpoint binit_loop (todo : list nat) : K unit :=
  match todo with
  | [] => kret tt
  | i :: todo' => binit_step i ;; binit_loop todo'
  end.

Definition binit : K unit :=
  note (fun _ => Initlock) ;;
  assign Head (prev_is Head) ;;
  assign Head (next_is Head) ;;
  binit_loop (seq 0 NBUF).

(** buffer_isfull, lines 179-194. *)
Fixpoint buffer_isfull_loop (fuel : nat) (b : ptr) (cnt : Z) : K Z :=
  match fuel with
  | O => lift (stop Diverge)
  | S fuel' =>
      if decide (b = Head) then kret cnt
      else
        bb <- load b ;;
        buffer_isfull_loop fuel' (next bb)
          (if dirty bb then wrap_int (cnt + 1) else cnt)
  end.

Definition buffer_isfull : K Z :=
  acquire ;;
  h <- load Head ;;
  cnt <- buffer_isfull_loop (S NBUF) (next h) 0 ;;
  release ;;
  if (cnt >=? Z.of_nat NBUF - 3)%Z then kret 1%Z else kret 0%Z.

(** logDirtyBuffer, lines 158-176. *)
Fixpoint logDirtyBuffer_loop (fuel : nat) (b : ptr) (cnt : Z) : K Z :=
  match fuel with
  | O => lift (stop Diverge)
  | S fuel' =>
      if decide (b = Head) then kret cnt
      else
        bb <- load b ;;
        cnt' <- (if dirty bb
                 then lift (call_log_write b) ;; kret (wrap_int (cnt + 1))
                 else kret cnt) ;;
        bb' <- load b ;;
        logDirtyBuffer_loop fuel' (next bb') cnt'
  end.

Definition logDirtyBuffer : K Z :=
  acquire ;;
  h <- load Head ;;
  cnt <- logDirtyBuffer_loop (S NBUF) (next h) 0 ;;
  release ;;
  kret cnt.

(** bget, lines 61-106. *)
Fixpoint bget_cached (fuel : nat) (me : Z) (b : ptr) (dv bn : Z)
  : K (option ptr) :=
  match fuel with
  | O => lift (stop Diverge)
  | S fuel' =>
      if decide (b = Head) then kret None
      else
        bb <- load b ;;
        if (dev bb =? dv)%Z && (blockno bb =? bn)%Z then
          assign b (refcnt_is (wrap_uint (refcnt bb + 1))) ;;
          release ;;
          acquiresleep me b ;;
          kret (Some b)
        else bget_cached fuel' me (next bb) dv bn
  end.

Fixpoint bget_recycle (fuel : nat) (me : Z) (b : ptr) (dv bn : Z)
  : K (option ptr) :=
  match fuel with
  | O => lift (stop Diverge)
  | S fuel' =>
      if decide (b = Head) then kret None
      else
        bb <- load b ;;
        if (refcnt bb =? 0)%Z && negb (dirty bb) then
          assign b (dev_is dv) ;;
          assign b (blockno_is bn) ;;
          assign b (flags_is 0) ;;
          assign b (refcnt_is 1) ;;
          release ;;
          acquiresleep me b ;;
          kret (Some b)
        else bget_recycle fuel' me (prev bb) dv bn
  end.

Definition bget_flush (sync : K unit) : K unit :=
  note Test ;;
  st <- lift get ;;
  full <- (if (isfull st =? 0)%Z then buffer_isfull else kret 0%Z) ;;
  if (isfull st =? 0)%Z && negb (full =? 0)%Z then
    acquire ;;
    isfull_is 1 ;;
    release ;;
    lift (emit EvSync) ;;
    sync ;;
    acquire ;;
    isfull_is 0 ;;
    release
  else kret tt.

Definition bget_scan (me dv bn : Z) : K ptr :=
  acquire ;;
  h <- load Head ;;
  r <- bget_cached (S NBUF) me (next h) dv bn ;;
  match r with
  | Some b => kret b
  | None =>
      h <- load Head ;;
      r <- bget_recycle (S NBUF) me (prev h) dv bn ;;
      match r with
      | Some b => kret b
      | None => panic "bget: no buffers"
      end
  end.

Definition bget (sync : K unit) (me dv bn : Z) : K ptr :=
  bget_flush sync ;; bget_scan me dv bn.

(** bread, bwrite, brelse, lines 108-154. *)
Definition bread (sync : K unit) (me dv bn : Z) : K ptr :=
  b <- bget sync me dv bn ;;
  bb <- load b ;;
  (if valid bb then kret tt else lift (call_iderw b)) ;;
  kret b.

Definition bwrite (me : Z) (b : ptr) : K unit :=
  bb <- load b ;;
  if negb (holdingsleep me (lock bb)) then panic "bwrite"
  else
    assign b (flags_is (Z.lor (flags bb) B_DIRTY)) ;;
    lift (call_iderw b).

Definition brelse (me : Z) (b : ptr) : K unit :=
  bb <- load b ;;
  if negb (holdingsleep me (lock bb)) then panic "brelse"
  else
    releasesleep b ;;
    acquire ;;
    bb <- load b ;; assign b (refcnt_is (wrap_uint (refcnt bb - 1))) ;;
    bb <- load b ;;
    (if (refcnt bb =? 0)%Z then
       x <- load b ;; assign (next x) (prev_is (prev x)) ;;
       x <- load b ;; assign (prev x) (next_is (next x)) ;;
       h <- load Head ;; assign b (next_is (next h)) ;;
       assign b (prev_is Head) ;;
       h <- load Head ;; assign (next h) (prev_is b) ;;
       assign Head (next_is b)
     else kret tt) ;;
    release.

(** The clients, and [sync()] among them, as above. *)
Fixpoint run (sync : K unit) (me : Z) (p : prog) : K unit :=
  match p with
  | Done => kret tt
  | DoBread dv bn k => b <- bread sync me dv bn ;; run sync me (k b)
  | DoBwrite b k => bwrite me b ;; run sync me k
  | DoBrelse b k => brelse me b ;; run sync me k
  | DoLogDirtyBuffer k => n <- logDirtyBuffer ;; run sync me (k n)
  | DoBufferIsfull k => n <- buffer_isfull ;; run sync me (k n)
  | DoLogWrite b k => lift (call_log_write b) ;; run sync me k
  end.

Fixpoint sync (body : prog) (depth : nat) (me : Z) : K unit :=
  match depth with
  | O => lift (stop Diverge)
  | S depth' => run (sync body depth' me) me body
  end.

End Locked.

(** ** Reading a log *)

(** The calls of a log, in order. *)
Fixpoint calls (l : list op) : list event :=
  match l with
  | [] => []
  | Call _ e :: l' => e :: calls l'
  | _ :: l' => calls l'
  end.

(** A run with the lock, seen without it. *)
Definition view {A} (r : result A) : outcome A :=
  match r with
  | Ok a k => Ret a (mem k) (calls (ops k))
  | Halt h k => Stop h (mem k) (calls (ops k))
  end.

(** [fk] is [fm] with lock operations added. *)
Definition erases {A} (fk : K A) (fm : M A) : Prop :=
  forall k, view (fk k) = prepend (calls (ops k)) (fm (mem k)).

(** The discipline of the pool lock, line by line of a log:  the lock is
    taken when free and released when held; no process goes to sleep on a
    buffer, flushes or calls the driver with the lock held; the links, the
    reference count and the identity of a buffer, and the guard, are
    written with the lock held; the guard is tested with the lock free. *)
Definition op_ok (o : op) : Prop :=
  match o with
  | Initlock => True
  | Acquire h => h = false
  | Release h => h = true
  | Store h _ f =>
      match f with
      | Fprev | Fnext | Frefcnt | Fdev | Fblockno => h = true
      | Fflags | Flock => True
      end
  | Guard h => h = true
  | Test h => h = false
  | Sleep h _ => h = false
  | Call h e =>
      match e with
      | EvSync | EvIderw _ _ => h = false
      | EvLogWrite _ _ => True
      end
  end.

(** How a call may stop: in the panic of [bget] with the lock held, in
    any other panic and asleep without it. *)
Definition halt_ok (h : halt) (held : bool) : Prop :=
  match h with
  | Panic msg => held = String.eqb msg "bget: no buffers"
  | Blocked _ => held = false
  | Fault | Diverge => True
  end.

(** From a kernel where the lock is as [pre] says, every line that [fk]
    adds to the log satisfies [P]; [fk] returns [a] with the lock as
    [post a] says, and stops by [h] only with the lock as [Q h] says. *)
Definition obeys (P : op -> Prop) (Q : halt -> bool -> Prop) {A}
    (pre : bool) (post : A -> bool) (fk : K A) : Prop :=
  forall k, held k = pre ->
    exists new,
      ops (kfinal (fk k)) = ops k ++ new /\
      Forall P new /\
      match fk k with
      | Ok a k' => held k' = post a
      | Halt h k' => Q h (held k')
      end.

(** The two loops of [bget] start with the lock; they return a buffer
    without it and nothing with it. *)
Definition taken (r : option ptr) : bool :=
  match r with Some _ => false | None => true end.

(** The one call that the file makes with the lock held. *)
Definition under_lock (o : op) : Prop :=
  match o with
  | Call h e => h = true /\ exists q b, e = EvLogWrite q b
  | _ => True
  end.

(** A store made before there is any process to exclude. *)
Definition unlocked_store (o : op) : Prop :=
  match o with
  | Store h _ _ => h = false
  | _ => False
  end.

End spin.

(** ** Running the code by hand *)

Lemma prepend_nil {A} (o : outcome A) : prepend [] o = o.
Proof. by destruct o. Qed.

Lemma prepend_prepend {A} (t1 t2 : list event) (o : outcome A) :
  prepend t1 (prepend t2 o) = prepend (t1 ++ t2) o.
Proof. destruct o; simpl; by rewrite app_assoc. Qed.

Lemma final_prepend {A} (t : list event) (o : outcome A) :
  final (prepend t o) = final o.
Proof. by destruct o. Qed.

Lemma trace_prepend {A} (t : list event) (o : outcome A) :
  trace (prepend t o) = t ++ trace o.
Proof. by destruct o. Qed.

Lemma bind_ret {A B} (a : A) (f : A -> M B) st : bind (ret a) f st = f a st.
Proof. unfold bind, ret. apply prepend_nil. Qed.

Lemma bind_get {B} (f : bcache -> M B) st : bind get f st = f st st.
Proof. unfold bind, get. apply prepend_nil. Qed.

Lemma bind_modify {B} (g : bcache -> bcache) (f : unit -> M B) st :
  bind (modify g) f st = f tt (g st).
Proof. unfold bind, modify. apply prepend_nil. Qed.

Lemma bind_emit {B} (e : event) (f : unit -> M B) st :
  bind (emit e) f st = prepend [e] (f tt st).
Proof. reflexivity. Qed.

Lemma bind_load {B} (p : ptr) (f : buf -> M B) st b :
  deref st p = Some b -> bind (load p) f st = f b st.
Proof. intros H. unfold bind, load. rewrite H. apply prepend_nil. Qed.

Lemma bind_load_fault {B} (p : ptr) (f : buf -> M B) st :
  deref st p = None -> bind (load p) f st = Stop Fault st [].
Proof. intros H. unfold bind, load. by rewrite H. Qed.

Lemma update_eq (p : ptr) (g : buf -> buf) st b :
  deref st p = Some b -> update p g st = Ret tt (store p (g b) st) [].
Proof. intros H. unfold update. by rewrite (bind_load _ _ _ _ H). Qed.

Lemma bind_update {B} (p : ptr) (g : buf -> buf) (f : unit -> M B) st b :
  deref st p = Some b -> bind (update p g) f st = f tt (store p (g b) st).
Proof.
  intros H. unfold bind at 1. rewrite (update_eq _ _ _ _ H). apply prepend_nil.
Qed.

Lemma bind_assoc {A B C} (m : M A) (f : A -> M B) (g : B -> M C) st :
  bind (bind m f) g st = bind m (fun a => bind (f a) g) st.
Proof.
  unfold bind. destruct (m st) as [a st1 t1|h st1 t1]; [|done].
  destruct (f a st1) as [b st2 t2|h st2 t2]; simpl; [|done].
  destruct (g b st2); simpl; by rewrite app_assoc.
Qed.

(** ** Pointers and cells *)

Lemma deref_store_eq st p b :
  is_Some (deref st p) -> deref (store p b st) p = Some b.
Proof.
  destruct p as [| |i]; unfold store; simpl; intros [x Hx]; try done.
  apply list_lookup_insert_eq. by eapply lookup_lt_Some.
Qed.

Lemma deref_store_ne st p q b :
  p <> q -> deref (store p b st) q = deref st q.
Proof.
  destruct p as [| |i], q as [| |j]; unfold store; simpl; intros Hne;
    try done.
  apply list_lookup_insert_ne. congruence.
Qed.

Lemma deref_store st p q b :
  is_Some (deref st p) ->
  deref (store p b st) q = if decide (p = q) then Some b else deref st q.
Proof.
  intros Hp. case_decide as Hpq.
  - subst q. by apply deref_store_eq.
  - by apply deref_store_ne.
Qed.

Lemma length_slots_store st p b :
  length (slots (store p b st)) = length (slots st).
Proof. destruct p; unfold store; simpl; try done. apply length_insert. Qed.

Lemma isfull_store st p b : isfull (store p b st) = isfull st.
Proof. by destruct p. Qed.

Lemma store_same st p b : deref st p = Some b -> store p b st = st.
Proof.
  destruct st as [sl f h], p as [| |i]; unfold store; simpl; intros H;
    try done.
  - congruence.
  - by rewrite list_insert_id.
Qed.

Lemma store_store st p b b' : store p b (store p b' st) = store p b st.
Proof.
  destruct p as [| |i]; unfold store; simpl; try done.
  by rewrite list_insert_insert_eq.
Qed.

Lemma bind_Ret {A B} (m : M A) (f : A -> M B) st a st1 :
  m st = Ret a st1 [] -> bind m f st = f a st1.
Proof. intros H. unfold bind. rewrite H. apply prepend_nil. Qed.

Lemma nxt_Some st p q :
  nxt st p = Some q <-> exists b, deref st p = Some b /\ next b = q.
Proof.
  unfold nxt. destruct (deref st p) as [b|]; simpl; split.
  - intros [= <-]. eauto.
  - by intros (b' & [= <-] & <-).
  - done.
  - by intros (b' & ? & _).
Qed.

Lemma prv_Some st p q :
  prv st p = Some q <-> exists b, deref st p = Some b /\ prev b = q.
Proof.
  unfold prv. destruct (deref st p) as [b|]; simpl; split.
  - intros [= <-]. eauto.
  - by intros (b' & [= <-] & <-).
  - done.
  - by intros (b' & ? & _).
Qed.

Lemma same_data_refl st : same_data st st.
Proof. by repeat split. Qed.

Lemma same_data_trans st1 st2 st3 :
  same_data st1 st2 -> same_data st2 st3 -> same_data st1 st3.
Proof.
  intros (H1 & H2 & H3) (H1' & H2' & H3'). repeat split; [|congruence..].
  intros q. by rewrite H1', H1.
Qed.

Lemma same_data_valid st st' p :
  same_data st st' -> is_Some (deref st p) -> is_Some (deref st' p).
Proof.
  intros (H & _) [b Hb]. specialize (H p). rewrite Hb in H.
  destruct (deref st' p); [eauto|done].
Qed.

(** One assignment to a link field. *)
Lemma update_next_spec st p b v :
  deref st p = Some b ->
  exists st',
    update p (set_next v) st = Ret tt st' [] /\
    (forall q, nxt st' q = if decide (q = p) then Some v else nxt st q) /\
    (forall q, prv st' q = prv st q) /\
    same_data st st'.
Proof.
  intros Hp. exists (store p (set_next v b) st).
  split; [by apply update_eq|].
  assert (Hd : forall q, deref (store p (set_next v b) st) q =
                 if decide (p = q) then Some (set_next v b) else deref st q)
    by (intros q; apply deref_store; eauto).
  repeat split.
  - intros q. unfold nxt. rewrite Hd. repeat case_decide; by subst.
  - intros q. unfold prv. rewrite Hd. case_decide; [subst; by rewrite Hp|done].
  - intros q. rewrite Hd. case_decide; [subst; by rewrite Hp|done].
  - apply isfull_store.
  - apply length_slots_store.
Qed.

Lemma update_prev_spec st p b v :
  deref st p = Some b ->
  exists st',
    update p (set_prev v) st = Ret tt st' [] /\
    (forall q, nxt st' q = nxt st q) /\
    (forall q, prv st' q = if decide (q = p) then Some v else prv st q) /\
    same_data st st'.
Proof.
  intros Hp. exists (store p (set_prev v b) st).
  split; [by apply update_eq|].
  assert (Hd : forall q, deref (store p (set_prev v b) st) q =
                 if decide (p = q) then Some (set_prev v b) else deref st q)
    by (intros q; apply deref_store; eauto).
  repeat split.
  - intros q. unfold nxt. rewrite Hd. case_decide; [subst; by rewrite Hp|done].
  - intros q. unfold prv. rewrite Hd. repeat case_decide; by subst.
  - intros q. rewrite Hd. case_decide; [subst; by rewrite Hp|done].
  - apply isfull_store.
  - apply length_slots_store.
Qed.

(** ** The cells of a list, by position *)

Lemma pos_S_lookup l k i : l !! k = Some i -> pos l (S k) = Slot i.
Proof. intros H. simpl. by rewrite H. Qed.

Lemma pos_S_ge l k : length l <= k -> pos l (S k) = Head.
Proof. intros H. simpl. by rewrite lookup_ge_None_2. Qed.

Lemma pos_Slot l k i :
  pos l k = Slot i -> exists k', k = S k' /\ l !! k' = Some i.
Proof.
  destruct k as [|k]; simpl; [done|].
  destruct (l !! k) as [j|] eqn:Hk; [|done]. intros [= ->]. eauto.
Qed.

Lemma pos_Head l k : pos l k = Head -> k = 0 \/ length l < k.
Proof.
  destruct k as [|k]; simpl; [auto|].
  destruct (l !! k) as [j|] eqn:Hk; [done|]. intros _. right.
  apply lookup_ge_None in Hk. lia.
Qed.

Lemma pos_inner l k :
  1 <= k <= length l -> exists i, pos l k = Slot i /\ i ∈ l.
Proof.
  intros Hk. destruct k as [|k]; [lia|].
  destruct (lookup_lt_is_Some_2 l k) as [i Hi]; [lia|].
  exists i. split; [by apply pos_S_lookup|]. by eapply list_elem_of_lookup_2.
Qed.

Lemma pos_inj_inner l a b :
  NoDup l -> 1 <= a <= length l -> 1 <= b <= S (length l) ->
  pos l a = pos l b -> a = b.
Proof.
  intros Hnd Ha Hb Heq.
  destruct a as [|a]; [lia|]. destruct b as [|b]; [lia|].
  destruct (lookup_lt_is_Some_2 l a) as [i Hi]; [lia|].
  rewrite (pos_S_lookup _ _ _ Hi) in Heq. symmetry in Heq.
  apply pos_Slot in Heq as (b' & [= <-] & Hb').
  f_equal. by eapply NoDup_lookup.
Qed.

(** No cell occurs twice among the positions [0 .. length l]. *)
Lemma pos_inj_lo l a b :
  NoDup l -> a <= length l -> b <= length l -> pos l a = pos l b -> a = b.
Proof.
  intros Hnd Ha Hb Heq.
  destruct (decide (a = 0)) as [->|Ha0].
  - simpl in Heq. symmetry in Heq. apply pos_Head in Heq. lia.
  - destruct (decide (b = 0)) as [->|Hb0].
    + simpl in Heq. apply pos_Head in Heq. lia.
    + apply (pos_inj_inner l); [done|lia|lia|done].
Qed.

(** ... nor among the positions [1 .. length l + 1]. *)
Lemma pos_inj_hi l a b :
  NoDup l -> 1 <= a <= S (length l) -> 1 <= b <= S (length l) ->
  pos l a = pos l b -> a = b.
Proof.
  intros Hnd Ha Hb Heq.
  destruct (decide (a = S (length l))) as [->|Ha1].
  - destruct (decide (b = S (length l))) as [->|Hb1]; [done|].
    symmetry. apply (pos_inj_inner l); [done|lia|lia|done].
  - apply (pos_inj_inner l); [done|lia|lia|done].
Qed.

(** ** Splicing a buffer out of the list and in at its head *)

Section Splice.
Context {pf : Platform}.

(** Lines 147-150 of [brelse]: the buffer goes in at the head. *)
Lemma relink_spec st i F :
  is_Some (deref st (Slot i)) ->
  nxt st Head = Some F ->
  is_Some (deref st F) ->
  F <> Slot i ->
  exists st',
    bind (load Head) (fun h =>
      bind (update (Slot i) (set_next (next h))) (fun _ =>
        bind (update (Slot i) (set_prev Head)) (fun _ =>
          bind (load Head) (fun h =>
            bind (update (next h) (set_prev (Slot i))) (fun _ =>
              update Head (set_next (Slot i))))))) st
    = Ret tt st' [] /\
    (forall q, nxt st' q =
       if decide (q = Head) then Some (Slot i)
       else if decide (q = Slot i) then Some F else nxt st q) /\
    (forall q, prv st' q =
       if decide (q = F) then Some (Slot i)
       else if decide (q = Slot i) then Some Head else prv st q) /\
    same_data st st'.
Proof.
  intros [b Hb] HF HFv HFi.
  assert (next (head st) = F) as HhF.
  { apply nxt_Some in HF as (h & [= <-] & ?). done. }
  rewrite (bind_load Head _ st (head st)) by done. rewrite HhF.
  destruct (update_next_spec st (Slot i) b F Hb) as (st1 & E1 & N1 & P1 & D1).
  rewrite (bind_Ret _ _ _ _ _ E1).
  destruct (same_data_valid _ _ (Slot i) D1 (mk_is_Some _ _ Hb)) as [b1 Hb1].
  destruct (update_prev_spec st1 (Slot i) b1 Head Hb1)
    as (st2 & E2 & N2 & P2 & D2).
  rewrite (bind_Ret _ _ _ _ _ E2).
  assert (nxt st2 Head = Some F) as HF2.
  { rewrite N2, N1. by rewrite decide_False. }
  assert (next (head st2) = F) as HhF2.
  { apply nxt_Some in HF2 as (h & [= <-] & ?). done. }
  rewrite (bind_load Head _ st2 (head st2)) by done. rewrite HhF2.
  pose proof (same_data_trans _ _ _ D1 D2) as D12.
  destruct (same_data_valid _ _ F D12 HFv) as [bF HbF].
  destruct (update_prev_spec st2 F bF (Slot i) HbF)
    as (st3 & E3 & N3 & P3 & D3).
  rewrite (bind_Ret _ _ _ _ _ E3).
  destruct (update_next_spec st3 Head (head st3) (Slot i) eq_refl)
    as (st4 & E4 & N4 & P4 & D4).
  exists st4. split; [done|]. repeat split.
  - intros q. rewrite N4, N3, N2, N1. done.
  - intros q. rewrite P4, P3, P2, P1. done.
  - intros q. destruct D4 as (-> & _), D3 as (-> & _). apply D12.
  - destruct D4 as (_ & -> & _), D3 as (_ & -> & _). apply D12.
  - destruct D4 as (_ & _ & ->), D3 as (_ & _ & ->). apply D12.
Qed.

(** Lines 50-54 of [binit] on a buffer whose lock is still as loaded. *)
Lemma binit_step_spec st i F :
  (exists b, deref st (Slot i) = Some b /\ lock b = mkLock 0 0) ->
  nxt st Head = Some F ->
  is_Some (deref st F) ->
  F <> Slot i ->
  exists st',
    binit_step i st = Ret tt st' [] /\
    (forall q, nxt st' q =
       if decide (q = Head) then Some (Slot i)
       else if decide (q = Slot i) then Some F else nxt st q) /\
    (forall q, prv st' q =
       if decide (q = F) then Some (Slot i)
       else if decide (q = Slot i) then Some Head else prv st q) /\
    same_data st st'.
Proof.
  intros (b & Hb & Hlk) HF HFv HFi.
  assert (next (head st) = F) as HhF.
  { apply nxt_Some in HF as (h & [= <-] & ?). done. }
  unfold binit_step.
  rewrite (bind_load Head _ st (head st)) by done. rewrite HhF.
  destruct (update_next_spec st (Slot i) b F Hb) as (st1 & E1 & N1 & P1 & D1).
  rewrite (bind_Ret _ _ _ _ _ E1).
  destruct (same_data_valid _ _ (Slot i) D1 (mk_is_Some _ _ Hb)) as [b1 Hb1].
  destruct (update_prev_spec st1 (Slot i) b1 Head Hb1)
    as (st2 & E2 & N2 & P2 & D2).
  rewrite (bind_Ret _ _ _ _ _ E2).
  pose proof (same_data_trans _ _ _ D1 D2) as D12.
  destruct (same_data_valid _ _ (Slot i) D12 (mk_is_Some _ _ Hb)) as [b2 Hb2].
  assert (set_lock (mkLock 0 0) b2 = b2) as Hb2l.
  { destruct D12 as (D & _). specialize (D (Slot i)). rewrite Hb, Hb2 in D.
    simpl in D. injection D as _ _ _ D _.
    destruct b2. simpl in D. unfold set_lock. simpl. congruence. }
  unfold initsleeplock. rewrite (bind_update _ _ _ _ _ Hb2).
  rewrite Hb2l, (store_same _ _ _ Hb2).
  assert (nxt st2 Head = Some F) as HF2.
  { rewrite N2, N1. by rewrite decide_False. }
  assert (next (head st2) = F) as HhF2.
  { apply nxt_Some in HF2 as (h & [= <-] & ?). done. }
  rewrite (bind_load Head _ st2 (head st2)) by done. rewrite HhF2.
  destruct (same_data_valid _ _ F D12 HFv) as [bF HbF].
  destruct (update_prev_spec st2 F bF (Slot i) HbF)
    as (st3 & E3 & N3 & P3 & D3).
  rewrite (bind_Ret _ _ _ _ _ E3).
  destruct (update_next_spec st3 Head (head st3) (Slot i) eq_refl)
    as (st4 & E4 & N4 & P4 & D4).
  exists st4. split; [done|]. repeat split.
  - intros q. rewrite N4, N3, N2, N1. done.
  - intros q. rewrite P4, P3, P2, P1. done.
  - intros q. destruct D4 as (-> & _), D3 as (-> & _). apply D12.
  - destruct D4 as (_ & -> & _), D3 as (_ & -> & _). apply D12.
  - destruct D4 as (_ & _ & ->), D3 as (_ & _ & ->). apply D12.
Qed.

(** Lines 145-146 of [brelse], with whatever runs next. *)
Lemma unlink_spec st i P N :
  nxt st (Slot i) = Some N ->
  prv st (Slot i) = Some P ->
  is_Some (deref st N) ->
  is_Some (deref st P) ->
  N <> Slot i ->
  P <> Slot i ->
  exists st',
    (forall B (k : M B),
       bind (load (Slot i)) (fun x =>
         bind (update (next x) (set_prev (prev x))) (fun _ =>
           bind (load (Slot i)) (fun x =>
             bind (update (prev x) (set_next (next x))) (fun _ => k)))) st
       = k st') /\
    (forall q, nxt st' q = if decide (q = P) then Some N else nxt st q) /\
    (forall q, prv st' q = if decide (q = N) then Some P else prv st q) /\
    same_data st st'.
Proof.
  intros HN HP [bN HbN] HPv HNi HPi.
  pose proof HN as HN'. apply nxt_Some in HN' as (b & Hb & HbNx).
  pose proof HP as HP'. apply prv_Some in HP' as (b' & Hb' & HbPx).
  assert (b' = b) as -> by congruence.
  destruct (update_prev_spec st N bN P HbN) as (st1 & E1 & N1 & P1 & D1).
  assert (nxt st1 (Slot i) = Some N) as HN1 by (by rewrite N1).
  assert (prv st1 (Slot i) = Some P) as HP1.
  { rewrite P1. by rewrite decide_False. }
  apply nxt_Some in HN1 as (b1 & Hb1 & Hb1N).
  apply prv_Some in HP1 as (b1' & Hb1' & Hb1P).
  assert (b1' = b1) as -> by congruence.
  destruct (same_data_valid _ _ P D1 HPv) as [bP HbP].
  destruct (update_next_spec st1 P bP N HbP) as (st2 & E2 & N2 & P2 & D2).
  exists st2. split; [|repeat split].
  - intros B k.
    rewrite (bind_load _ _ _ _ Hb). rewrite HbNx, HbPx.
    rewrite (bind_Ret _ _ _ _ _ E1).
    rewrite (bind_load _ _ _ _ Hb1). rewrite Hb1N, Hb1P.
    by rewrite (bind_Ret _ _ _ _ _ E2).
  - intros q. by rewrite N2, N1.
  - intros q. by rewrite P2, P1.
  - intros q. destruct D2 as (-> & _). apply D1.
  - destruct D2 as (_ & -> & _). apply D1.
  - destruct D2 as (_ & _ & ->). apply D1.
Qed.

End Splice.

Lemma linked_insert st st' l i :
  linked st l ->
  i ∉ l ->
  i < length (slots st) ->
  (forall q, nxt st' q =
     if decide (q = Head) then Some (Slot i)
     else if decide (q = Slot i) then Some (pos l 1) else nxt st q) ->
  (forall q, prv st' q =
     if decide (q = pos l 1) then Some (Slot i)
     else if decide (q = Slot i) then Some Head else prv st q) ->
  length (slots st') = length (slots st) ->
  linked st' (i :: l).
Proof.
  intros (Hnd & Hlt & Hs) Hi Hil HN HP Hlen. split; [|split].
  - by apply NoDup_cons.
  - intros j [->|Hj]%elem_of_cons; rewrite Hlen; auto.
  - assert (pos l 1 <> Slot i) as HF.
    { intros (k' & _ & Hk')%pos_Slot. apply Hi. by eapply list_elem_of_lookup_2. }
    intros k Hk. destruct k as [|[|k]].
    + split; [by rewrite HN|]. simpl. rewrite HP.
      rewrite decide_False by done. by rewrite decide_True.
    + change (pos (i :: l) 1) with (Slot i).
      change (pos (i :: l) 2) with (pos l 1).
      split; [|by rewrite HP, decide_True].
      rewrite HN. by rewrite decide_False, decide_True.
    + change (pos (i :: l) (S (S k))) with (pos l (S k)).
      change (pos (i :: l) (S (S (S k)))) with (pos l (S (S k))).
      simpl in Hk. destruct (Hs (S k)) as [Hn Hp]; [lia|].
      destruct (pos_inner l (S k)) as (j & Hj & Hjl); [lia|].
      split.
      * rewrite HN, Hj. rewrite decide_False by done.
        rewrite decide_False by (intros [= ->]; done). by rewrite <- Hj.
      * rewrite HP. rewrite decide_False.
        2:{ intros Heq. apply pos_inj_hi in Heq; [lia|done|lia|lia]. }
        rewrite decide_False; [done|].
        intros (k' & _ & Hk')%pos_Slot. apply Hi.
        by eapply list_elem_of_lookup_2.
Qed.

Lemma pos_remove_lo l1 i l2 k :
  k <= length l1 -> pos (l1 ++ l2) k = pos (l1 ++ i :: l2) k.
Proof.
  intros Hk. destruct k as [|k]; [done|]. simpl.
  by rewrite !lookup_app_l by lia.
Qed.

Lemma pos_remove_hi l1 i l2 k :
  length l1 < k -> pos (l1 ++ l2) k = pos (l1 ++ i :: l2) (S k).
Proof.
  intros Hk. destruct k as [|k]; [lia|]. simpl.
  rewrite !lookup_app_r by lia.
  replace (S k - length l1) with (S (k - length l1)) by lia. done.
Qed.

Lemma linked_remove st st' l1 i l2 :
  linked st (l1 ++ i :: l2) ->
  (forall q, nxt st' q =
     if decide (q = pos (l1 ++ i :: l2) (length l1))
     then Some (pos (l1 ++ i :: l2) (S (S (length l1)))) else nxt st q) ->
  (forall q, prv st' q =
     if decide (q = pos (l1 ++ i :: l2) (S (S (length l1))))
     then Some (pos (l1 ++ i :: l2) (length l1)) else prv st q) ->
  length (slots st') = length (slots st) ->
  linked st' (l1 ++ l2).
Proof.
  set (l := l1 ++ i :: l2).
  intros (Hnd & Hlt & Hs) HN HP Hlen.
  assert (length l = S (length l1 + length l2)) as Hl
    by (unfold l; rewrite length_app; simpl; lia).
  split; [|split].
  - unfold l in Hnd. apply NoDup_app in Hnd as (H1 & H2 & H3).
    apply NoDup_cons in H3 as [H3 H4]. apply NoDup_app. split; [done|].
    split; [|done]. intros x Hx Hx2. apply (H2 x Hx). by right.
  - intros j Hj. rewrite Hlen. apply Hlt. unfold l.
    apply elem_of_app in Hj as [Hj|Hj]; apply elem_of_app; [by left|].
    right. by right.
  - intros k Hk. rewrite length_app in Hk.
    destruct (decide (k < length l1)) as [Hlo|Hhi].
    + rewrite (pos_remove_lo l1 i l2 k) by lia.
      rewrite (pos_remove_lo l1 i l2 (S k)) by lia. fold l.
      destruct (Hs k) as [Hn Hp]; [lia|]. split.
      * rewrite HN. rewrite decide_False; [done|].
        intros Heq. apply pos_inj_lo in Heq; [lia|done|lia|lia].
      * rewrite HP. rewrite decide_False; [done|].
        intros Heq. apply pos_inj_hi in Heq; [lia|done|lia|lia].
    + destruct (decide (k = length l1)) as [->|Hne].
      * rewrite (pos_remove_lo l1 i l2 (length l1)) by lia.
        rewrite (pos_remove_hi l1 i l2 (S (length l1))) by lia. fold l.
        split; [by rewrite HN, decide_True|by rewrite HP, decide_True].
      * rewrite (pos_remove_hi l1 i l2 k) by lia.
        rewrite (pos_remove_hi l1 i l2 (S k)) by lia. fold l.
        destruct (Hs (S k)) as [Hn Hp]; [lia|]. split.
        -- rewrite HN. rewrite decide_False; [done|].
           intros Heq. apply pos_inj_lo in Heq; [lia|done|lia|lia].
        -- rewrite HP. rewrite decide_False; [done|].
           intros Heq. apply pos_inj_hi in Heq; [lia|done|lia|lia].
Qed.

Lemma linked_same_links st st' l :
  linked st l ->
  (forall q, nxt st' q = nxt st q) ->
  (forall q, prv st' q = prv st q) ->
  length (slots st') = length (slots st) ->
  linked st' l.
Proof.
  intros (Hnd & Hlt & Hs) HN HP Hlen. split; [done|split].
  - intros j Hj. rewrite Hlen. auto.
  - intros k Hk. destruct (Hs k Hk) as [Hn Hp].
    split; [by rewrite HN|by rewrite HP].
Qed.

(** A store that keeps the two links of the cell keeps the list. *)
Lemma nxt_store_data st p b b' q :
  deref st p = Some b -> next b' = next b ->
  nxt (store p b' st) q = nxt st q.
Proof.
  intros Hp Hn. unfold nxt. rewrite deref_store by eauto.
  case_decide; [subst; rewrite Hp; simpl; by f_equal|done].
Qed.

Lemma prv_store_data st p b b' q :
  deref st p = Some b -> prev b' = prev b ->
  prv (store p b' st) q = prv st q.
Proof.
  intros Hp Hn. unfold prv. rewrite deref_store by eauto.
  case_decide; [subst; rewrite Hp; simpl; by f_equal|done].
Qed.

Lemma linked_store_data st p b b' l :
  linked st l ->
  deref st p = Some b -> prev b' = prev b -> next b' = next b ->
  linked (store p b' st) l.
Proof.
  intros Hl Hp Hpr Hnx. eapply linked_same_links; [done|..].
  - intros q. by eapply nxt_store_data.
  - intros q. by eapply prv_store_data.
  - apply length_slots_store.
Qed.

Lemma linked_set_isfull st v l : linked st l -> linked (set_isfull v st) l.
Proof. intros H. by eapply linked_same_links. Qed.

Lemma linked_pos_valid st l k :
  linked st l -> k <= S (length l) -> is_Some (deref st (pos l k)).
Proof.
  intros (Hnd & Hlt & Hs) Hk. destruct k as [|k]; [by eexists|].
  simpl. destruct (l !! k) as [j|] eqn:Hj; [|by eexists].
  simpl. apply lookup_lt_is_Some_2, Hlt. by eapply list_elem_of_lookup_2.
Qed.

Lemma linked_head_next st l : linked st l -> next (head st) = pos l 1.
Proof.
  intros (_ & _ & Hs). destruct (Hs 0) as [Hn _]; [lia|].
  apply nxt_Some in Hn as (b & [= <-] & ?). done.
Qed.

Lemma linked_head_prev st l : linked st l -> prev (head st) = pos l (length l).
Proof.
  intros (_ & _ & Hs). destruct (Hs (length l)) as [_ Hp]; [lia|].
  rewrite pos_S_ge in Hp by lia.
  apply prv_Some in Hp as (b & [= <-] & ?). done.
Qed.

(** The list read forwards from [head.next] ... *)
Lemma linked_chain_next_from st l pre s :
  linked st l -> l = pre ++ s ->
  chain_next st (pos l (S (length pre))) s.
Proof.
  intros Hl. revert pre. induction s as [|j s IH]; intros pre ->.
  - rewrite pos_S_ge; [done|]. rewrite length_app. simpl. lia.
  - assert ((pre ++ j :: s) !! length pre = Some j) as Hj
      by (by apply list_lookup_middle).
    simpl. rewrite Hj. split; [done|].
    destruct Hl as (Hnd & Hlt & Hs).
    destruct (Hs (S (length pre))) as [Hn _].
    { rewrite length_app. simpl. lia. }
    rewrite (pos_S_lookup _ _ _ Hj) in Hn.
    apply nxt_Some in Hn as (b & Hb & Hbn). exists b. split; [done|].
    rewrite Hbn. specialize (IH (pre ++ [j])).
    rewrite length_app in IH. simpl in IH.
    replace (length pre + 1) with (S (length pre)) in IH by lia.
    apply IH. by rewrite <- app_assoc.
Qed.

Lemma linked_chain_next st l :
  linked st l -> chain_next st (next (head st)) l.
Proof.
  intros Hl. rewrite (linked_head_next _ _ Hl).
  by apply (linked_chain_next_from st l [] l).
Qed.

(** ... and backwards from [head.prev]. *)
Lemma linked_chain_prev_from st l pre s :
  linked st l -> l = pre ++ s ->
  chain_prev st (pos l (length pre)) (rev pre).
Proof.
  intros Hl. revert s. induction pre as [|j pre IH] using rev_ind; intros s ->.
  - done.
  - rewrite rev_unit, length_app. simpl.
    replace (length pre + 1) with (S (length pre)) by lia.
    assert (((pre ++ [j]) ++ s) !! length pre = Some j) as Hj.
    { rewrite <- app_assoc. by apply list_lookup_middle. }
    rewrite (pos_S_lookup _ _ _ Hj). split; [done|].
    pose proof Hl as (Hnd & Hlt & Hs).
    destruct (Hs (length pre)) as [_ Hp].
    { rewrite !length_app. simpl. lia. }
    rewrite (pos_S_lookup _ _ _ Hj) in Hp.
    apply prv_Some in Hp as (b & Hb & Hbp). exists b. split; [done|].
    rewrite Hbp. apply (IH (j :: s)). by rewrite <- app_assoc.
Qed.

Lemma linked_chain_prev st l :
  linked st l -> chain_prev st (prev (head st)) (rev l).
Proof.
  intros Hl. rewrite (linked_head_prev _ _ Hl).
  apply (linked_chain_prev_from st l l []); [done|]. by rewrite app_nil_r.
Qed.

(** ** binit builds the list *)

Section Boot.
Context {pf : Platform}.

Lemma binit_loop_spec todo : forall st l,
  linked st l ->
  NoDup todo ->
  (forall i, i ∈ todo ->
     (i ∉ l) /\ exists b, slots st !! i = Some b /\ lock b = mkLock 0 0) ->
  exists st',
    binit_loop todo st = Ret tt st' [] /\
    linked st' (rev todo ++ l) /\
    same_data st st'.
Proof.
  induction todo as [|i todo IH]; intros st l Hl Hnd Hin.
  - exists st. simpl. split; [done|]. split; [done|]. apply same_data_refl.
  - apply NoDup_cons in Hnd as [Hi Hnd].
    destruct (Hin i) as [Hil (bi & Hbi & Hlki)]; [by left|].
    assert (i < length (slots st)) as Hilt by (by eapply lookup_lt_Some).
    destruct (binit_step_spec st i (pos l 1)) as (st1 & E1 & N1 & P1 & D1).
    + by exists bi.
    + rewrite <- (linked_head_next _ _ Hl). done.
    + apply (linked_pos_valid st l 1 Hl). lia.
    + intros (k' & _ & Hk')%pos_Slot. apply Hil.
      by eapply list_elem_of_lookup_2.
    + assert (linked st1 (i :: l)) as Hl1.
      { eapply linked_insert; try done. apply D1. }
      destruct (IH st1 (i :: l) Hl1 Hnd) as (st2 & E2 & Hl2 & D2).
      { intros j Hj. destruct (Hin j) as [Hjl (bj & Hbj & Hlkj)]; [by right|].
        split.
        - intros [->|?]%elem_of_cons; done.
        - destruct D1 as (D1 & _). specialize (D1 (Slot j)). simpl in D1.
          rewrite Hbj in D1. destruct (slots st1 !! j) as [bj'|]; [|done].
          exists bj'. split; [done|]. simpl in D1. injection D1 as _ _ _ D1 _.
          congruence. }
      exists st2. split; [|split].
      * simpl. rewrite (bind_Ret _ _ _ _ _ E1). done.
      * simpl. by rewrite <- app_assoc.
      * by eapply same_data_trans.
Qed.

Lemma binit_spec :
  exists st,
    binit zero_bcache = Ret tt st [] /\
    linked st (rev (seq 0 NBUF)) /\
    same_data zero_bcache st.
Proof.
  unfold binit.
  destruct (update_prev_spec zero_bcache Head zero_buf Head eq_refl)
    as (st1 & E1 & N1 & P1 & D1).
  rewrite (bind_Ret _ _ _ _ _ E1).
  destruct (update_next_spec st1 Head (head st1) Head eq_refl)
    as (st2 & E2 & N2 & P2 & D2).
  rewrite (bind_Ret _ _ _ _ _ E2).
  assert (linked st2 []) as Hl.
  { split; [constructor|]. split; [by intros i ?%elem_of_nil|].
    intros k Hk. simpl in Hk. assert (k = 0) as -> by lia.
    split; simpl; [by rewrite N2|by rewrite P2, P1]. }
  pose proof (same_data_trans _ _ _ D1 D2) as D12.
  destruct (binit_loop_spec (seq 0 NBUF) st2 [] Hl) as (st3 & E3 & Hl3 & D3).
  - apply NoDup_seq.
  - intros i Hi. split; [by intros ?%elem_of_nil|].
    destruct D12 as (D & _). specialize (D (Slot i)). simpl in D.
    rewrite lookup_replicate_2 in D by (apply elem_of_seq in Hi; lia).
    destruct (slots st2 !! i) as [b|]; [|done]. exists b. split; [done|].
    simpl in D. injection D as _ _ _ D _. done.
  - exists st3. split; [done|]. rewrite app_nil_r in Hl3. split; [done|].
    by eapply same_data_trans.
Qed.

End Boot.

(** ** The two counting loops *)

Lemma count_perm P l1 l2 : l1 ≡ₚ l2 -> count P l1 = count P l2.
Proof.
  induction 1 as [|x l1 l2 _ IH|x y l|l1 l2 l3 _ IH1 _ IH2]; simpl;
    [done|by rewrite IH|lia|congruence].
Qed.

Lemma count_ext P Q l :
  (forall i, i ∈ l -> P i = Q i) -> count P l = count Q l.
Proof.
  induction l as [|i l IH]; intros H; simpl; [done|].
  rewrite (H i) by (by left). rewrite IH; [done|].
  intros j Hj. apply H. by right.
Qed.

Lemma wrap_int_id z : (- 2 ^ 31 <= z < 2 ^ 31)%Z -> wrap_int z = z.
Proof. intros H. unfold wrap_int. rewrite Z.mod_small; lia. Qed.

Section Loops.
Context {pf : Platform}.

Lemma ring_perm st l : ring st l -> l ≡ₚ seq 0 NBUF.
Proof.
  intros ((Hnd & Hlt & _) & Hlen & Hall).
  apply NoDup_Permutation; [done|apply NoDup_seq|].
  intros i. rewrite elem_of_seq. split.
  - intros Hi. apply Hlt in Hi. lia.
  - intros Hi. apply Hall. lia.
Qed.

Lemma ring_length st l : ring st l -> length l = NBUF.
Proof. intros H. rewrite (ring_perm _ _ H). apply length_seq. Qed.

Lemma ring_count st l : ring st l -> count (test_at st dirty) l = ndirty st.
Proof. intros H. unfold ndirty. apply count_perm. by eapply ring_perm. Qed.

Lemma buffer_isfull_loop_spec st s : forall fuel p cnt,
  chain_next st p s ->
  length s < fuel ->
  (0 <= cnt)%Z -> (cnt + Z.of_nat (length s) < 2 ^ 31)%Z ->
  buffer_isfull_loop fuel p cnt st
  = Ret (cnt + Z.of_nat (count (test_at st dirty) s))%Z st [].
Proof.
  induction s as [|i s IH]; intros fuel p cnt Hc Hf Hcnt Hbound.
  - simpl in Hc. subst p. destruct fuel as [|fuel]; [simpl in Hf; lia|].
    simpl. unfold ret. f_equal. lia.
  - destruct Hc as (-> & b & Hb & Hc).
    destruct fuel as [|fuel]; [simpl in Hf; lia|].
    simpl in Hf, Hbound. simpl buffer_isfull_loop.
    rewrite (bind_load (Slot i) _ st b) by done.
    simpl count. unfold test_at at 1. rewrite Hb.
    destruct (dirty b).
    + rewrite wrap_int_id by lia. rewrite IH; [|done|lia|lia|lia].
      f_equal. lia.
    + rewrite IH; [|done|lia|lia|lia]. f_equal.
Qed.

Lemma ring_check_sound st l : ring_check st l = true -> ring st l.
Proof.
  unfold ring_check. rewrite !andb_true_iff.
  intros ((((Hnd & Hlt) & Hs) & Hlen) & Hall).
  apply bool_decide_eq_true in Hnd. rewrite forallb_forall in Hlt, Hs, Hall.
  apply Nat.eqb_eq in Hlen. split; [split; [done|split]|split; [done|]].
  - intros i Hi%list_elem_of_In. by apply Nat.ltb_lt, Hlt.
  - intros k Hk. assert (In k (seq 0 (S (length l)))) as Hin
      by (apply in_seq; lia).
    apply Hs, andb_true_iff in Hin as [H1 H2].
    apply bool_decide_eq_true in H1. apply bool_decide_eq_true in H2. done.
  - intros i Hi. eapply bool_decide_eq_true, Hall. apply in_seq. lia.
Qed.

Lemma buffer_isfull_spec st l :
  ring st l ->
  buffer_isfull st = Ret (if pressure st then 1 else 0)%Z st [].
Proof.
  intros Hr. pose proof Hr as (Hl & _). unfold buffer_isfull.
  rewrite (bind_load Head _ st (head st)) by done.
  rewrite (bind_Ret _ _ st (0 + Z.of_nat (count (test_at st dirty) l))%Z st).
  - rewrite (ring_count _ _ Hr). unfold pressure. simpl.
    by destruct (_ >=? _)%Z.
  - apply buffer_isfull_loop_spec.
    + by apply linked_chain_next.
    + rewrite (ring_length _ _ Hr). lia.
    + lia.
    + rewrite (ring_length _ _ Hr). pose proof NBUF_int. lia.
Qed.

Lemma bind_Ret_tr {A B} (m : M A) (f : A -> M B) st a st1 t1 :
  m st = Ret a st1 t1 -> bind m f st = prepend t1 (f a st1).
Proof. intros H. unfold bind. by rewrite H. Qed.

Lemma chain_next_store_data st p b b' : forall s q,
  deref st p = Some b -> next b' = next b ->
  chain_next st q s -> chain_next (store p b' st) q s.
Proof.
  induction s as [|i s IH]; intros q Hp Hn; simpl; [done|].
  intros (-> & bi & Hbi & Hc). split; [done|].
  change (slots (store p b' st) !! i) with (deref (store p b' st) (Slot i)).
  rewrite deref_store by eauto. case_decide as Hpi.
  - subst p. simpl in Hp. assert (bi = b) as -> by congruence.
    exists b'. split; [done|]. rewrite Hn. by apply IH.
  - exists bi. split; [done|]. by apply IH.
Qed.

Lemma slots_store_ne st i j b :
  i <> j -> slots (store (Slot i) b st) !! j = slots st !! j.
Proof. intros H. unfold store. simpl. by apply list_lookup_insert_ne. Qed.

Lemma log_events_ext st st' s :
  (forall j, j ∈ s -> slots st' !! j = slots st !! j) ->
  log_events st' s = log_events st s.
Proof.
  induction s as [|i s IH]; intros H; simpl; [done|].
  rewrite (H i) by (by left). f_equal. apply IH.
  intros j Hj. apply H. by right.
Qed.

Lemma test_at_ext st st' P i :
  slots st' !! i = slots st !! i -> test_at st' P i = test_at st P i.
Proof. intros H. unfold test_at. by rewrite H. Qed.

Lemma call_log_write_eq st p b :
  deref st p = Some b ->
  call_log_write p st
  = Ret tt (store p (set_flags (log_write b) b) st) [EvLogWrite p b].
Proof.
  intros H. unfold call_log_write. rewrite (bind_load _ _ _ _ H).
  rewrite bind_emit. by rewrite (update_eq _ _ _ _ H).
Qed.

Lemma call_iderw_eq st p b :
  deref st p = Some b ->
  call_iderw p st
  = Ret tt (store p (set_flags (iderw b) b) st) [EvIderw p b].
Proof.
  intros H. unfold call_iderw. rewrite (bind_load _ _ _ _ H).
  rewrite bind_emit. by rewrite (update_eq _ _ _ _ H).
Qed.

Lemma logDirtyBuffer_loop_spec s : forall st fuel p cnt,
  chain_next st p s ->
  NoDup s ->
  length s < fuel ->
  (0 <= cnt)%Z -> (cnt + Z.of_nat (length s) < 2 ^ 31)%Z ->
  logDirtyBuffer_loop fuel p cnt st
  = Ret (cnt + Z.of_nat (count (test_at st dirty) s))%Z
        (logged st s) (log_events st s).
Proof.
  induction s as [|i s IH]; intros st fuel p cnt Hc Hnd Hf Hcnt Hbound.
  - simpl in Hc. subst p. destruct fuel as [|fuel]; [simpl in Hf; lia|].
    simpl. unfold ret. f_equal. lia.
  - destruct Hc as (-> & b & Hb & Hc).
    apply NoDup_cons in Hnd as [Hi Hnd].
    destruct fuel as [|fuel]; [simpl in Hf; lia|].
    simpl in Hf, Hbound. simpl logDirtyBuffer_loop.
    rewrite (bind_load (Slot i) _ st b) by done.
    simpl count. simpl logged. simpl log_events.
    unfold test_at at 1. rewrite Hb.
    destruct (dirty b) eqn:Hd.
    + rewrite bind_assoc.
      rewrite (bind_Ret_tr _ _ _ _ _ _ (call_log_write_eq st (Slot i) b Hb)).
      set (st1 := store (Slot i) (set_flags (log_write b) b) st).
      rewrite bind_ret.
      assert (deref st1 (Slot i) = Some (set_flags (log_write b) b)) as Hb1.
      { unfold st1. apply deref_store_eq. by eexists. }
      rewrite (bind_load (Slot i) _ st1 _ Hb1). simpl next.
      rewrite wrap_int_id by lia.
      rewrite (IH st1); [| |done|lia|lia|lia].
      * simpl. f_equal.
        -- rewrite (count_ext (test_at st1 dirty) (test_at st dirty)); [lia|].
           intros j Hj. apply test_at_ext. unfold st1.
           apply slots_store_ne. by intros ->.
        -- f_equal. apply log_events_ext. intros j Hj. unfold st1.
           apply slots_store_ne. by intros ->.
      * unfold st1. by eapply chain_next_store_data.
    + rewrite bind_ret. rewrite (bind_load (Slot i) _ st b) by done.
      rewrite (IH st); [|done|done|lia|lia|lia]. simpl. f_equal.
Qed.

Lemma acquiresleep_eq st me p b :
  deref st p = Some b ->
  acquiresleep me p st
  = if (locked (lock b) =? 0)%Z
    then Ret tt (store p (set_lock (mkLock 1 me) b) st) []
    else Stop (Blocked p) st [].
Proof.
  intros H. unfold acquiresleep. rewrite (bind_load _ _ _ _ H).
  destruct (_ =? _)%Z; [by apply update_eq|done].
Qed.

Lemma bget_cached_spec me dv bn st s : forall fuel p,
  chain_next st p s ->
  length s < fuel ->
  bget_cached fuel me p dv bn st
  = match first_match st (ident dv bn) s with
    | Some i => omap Some (take_hit me i st)
    | None => Ret None st []
    end.
Proof.
  induction s as [|i s IH]; intros fuel p Hc Hf.
  - simpl in Hc. subst p. destruct fuel as [|fuel]; [simpl in Hf; lia|]. done.
  - destruct Hc as (-> & b & Hb & Hc).
    destruct fuel as [|fuel]; [simpl in Hf; lia|].
    simpl in Hf. simpl bget_cached.
    rewrite (bind_load (Slot i) _ st b) by done.
    simpl first_match. unfold test_at. rewrite Hb.
    fold (ident dv bn b). destruct (ident dv bn b).
    + unfold take_hit. rewrite Hb.
      rewrite (bind_update (Slot i) _ _ _ _ Hb).
      set (b1 := set_refcnt _ b). set (st1 := store (Slot i) b1 st).
      assert (deref st1 (Slot i) = Some b1) as Hb1.
      { unfold st1. apply deref_store_eq. by eexists. }
      unfold bind. rewrite (acquiresleep_eq _ _ _ _ Hb1).
      change (lock b1) with (lock b).
      destruct (locked (lock b) =? 0)%Z; [|done].
      unfold st1. rewrite store_store. done.
    + apply IH; [done|lia].
Qed.

Lemma bget_recycle_spec me dv bn st s : forall fuel p,
  chain_prev st p s ->
  length s < fuel ->
  bget_recycle fuel me p dv bn st
  = match first_match st unused s with
    | Some i => omap Some (take_free me dv bn i st)
    | None => Ret None st []
    end.
Proof.
  induction s as [|i s IH]; intros fuel p Hc Hf.
  - simpl in Hc. subst p. destruct fuel as [|fuel]; [simpl in Hf; lia|]. done.
  - destruct Hc as (-> & b & Hb & Hc).
    destruct fuel as [|fuel]; [simpl in Hf; lia|].
    simpl in Hf. simpl bget_recycle.
    rewrite (bind_load (Slot i) _ st b) by done.
    simpl first_match. unfold test_at. rewrite Hb.
    fold (unused b). destruct (unused b).
    + unfold take_free. rewrite Hb.
      rewrite (bind_update (Slot i) _ _ _ _ Hb).
      assert (forall x, deref (store (Slot i) x st) (Slot i) = Some x) as Hd
        by (intros; apply deref_store_eq; by eexists).
      rewrite (bind_update _ _ _ _ _ (Hd _)). rewrite store_store.
      rewrite (bind_update _ _ _ _ _ (Hd _)). rewrite store_store.
      rewrite (bind_update _ _ _ _ _ (Hd _)). rewrite store_store.
      unfold bind. rewrite (acquiresleep_eq _ _ _ _ (Hd _)).
      change (lock (set_refcnt 1 (set_flags 0 (set_blockno bn (set_dev dv b)))))
        with (lock b).
      destruct (locked (lock b) =? 0)%Z; [|done].
      rewrite store_store. done.
    + apply IH; [done|lia].
Qed.

End Loops.

(** ** The functions on a well-linked cache *)

Section Functions.
Context {pf : Platform}.

Lemma logDirtyBuffer_spec st l :
  ring st l ->
  logDirtyBuffer st
  = Ret (Z.of_nat (ndirty st)) (logged st l) (log_events st l).
Proof.
  intros Hr. pose proof Hr as (Hl & _). unfold logDirtyBuffer.
  rewrite (bind_load Head _ st (head st)) by done.
  rewrite (logDirtyBuffer_loop_spec l st).
  - by rewrite (ring_count _ _ Hr).
  - by apply linked_chain_next.
  - apply Hl.
  - rewrite (ring_length _ _ Hr). lia.
  - lia.
  - rewrite (ring_length _ _ Hr). pose proof NBUF_int. lia.
Qed.

(** Lines 79-105: the first cached slot from the head, else the first
    unused one from the tail, else the panic. *)
Lemma bget_scan_spec me dv bn st l :
  ring st l ->
  bget_scan me dv bn st
  = match first_match st (ident dv bn) l with
    | Some i => take_hit me i st
    | None =>
        match first_match st unused (rev l) with
        | Some j => take_free me dv bn j st
        | None => Stop (Panic "bget: no buffers") st []
        end
    end.
Proof.
  intros Hr. pose proof Hr as (Hl & _). unfold bget_scan.
  rewrite (bind_load Head _ st (head st)) by done.
  unfold bind at 1.
  rewrite (bget_cached_spec me dv bn st l);
    [|by apply linked_chain_next|rewrite (ring_length _ _ Hr); lia].
  destruct (first_match st (ident dv bn) l) as [i|].
  - destruct (take_hit me i st) as [p st' tr|h st' tr];
      cbn [omap prepend ret]; [|done].
    by rewrite app_nil_r.
  - rewrite prepend_nil.
    rewrite (bind_load Head _ st (head st)) by done.
    unfold bind.
    rewrite (bget_recycle_spec me dv bn st (rev l));
      [|by apply linked_chain_prev
       |rewrite length_rev, (ring_length _ _ Hr); lia].
    destruct (first_match st unused (rev l)) as [j|]; [|done].
    destruct (take_free me dv bn j st) as [p st' tr|h st' tr];
      cbn [omap prepend ret]; [|done].
    by rewrite app_nil_r.
Qed.

(** Lines 66-77 when the guard is set: nothing happens. *)
Lemma bget_flush_guarded syn st :
  isfull st <> 0%Z -> bget_flush syn st = Ret tt st [].
Proof.
  intros H. unfold bget_flush. rewrite bind_get.
  apply Z.eqb_neq in H. rewrite H. by rewrite bind_ret.
Qed.

Lemma bget_guarded syn me dv bn st :
  isfull st <> 0%Z -> bget syn me dv bn st = bget_scan me dv bn st.
Proof.
  intros H. unfold bget.
  by rewrite (bind_Ret _ _ _ _ _ (bget_flush_guarded syn st H)).
Qed.

(** Lines 66-77 when the guard is clear. *)
Lemma bget_flush_spec syn st l :
  ring st l ->
  isfull st = 0%Z ->
  bget_flush syn st
  = if pressure st
    then prepend [EvSync]
           match syn (set_isfull 1 st) with
           | Ret _ st2 t2 => Ret tt (set_isfull 0 st2) t2
           | Stop h st2 t2 => Stop h st2 t2
           end
    else Ret tt st [].
Proof.
  intros Hr H0. unfold bget_flush. rewrite bind_get. rewrite H0. simpl.
  rewrite (bind_Ret _ _ _ _ _ (buffer_isfull_spec st l Hr)).
  destruct (pressure st); simpl; [|done].
  rewrite bind_modify, bind_emit. f_equal. unfold bind.
  destruct (syn (set_isfull 1 st)) as [[] st2 t2|h st2 t2]; [|done].
  unfold modify. simpl. by rewrite app_nil_r.
Qed.

End Functions.

(** ** What the scans find *)

Lemma first_match_None st P l :
  first_match st P l = None <-> forall j, j ∈ l -> test_at st P j = false.
Proof.
  induction l as [|i l IH]; simpl.
  - split; [by intros _ j ?%elem_of_nil|done].
  - destruct (test_at st P i) eqn:Hi.
    + split; [done|]. intros H. rewrite H in Hi; [done|by left].
    + rewrite IH. split.
      * intros H j [->|Hj]%elem_of_cons; auto.
      * intros H j Hj. apply H. by right.
Qed.

Lemma first_match_Some st P l i :
  first_match st P l = Some i <->
  exists l1 l2, l = l1 ++ i :: l2 /\ test_at st P i = true /\
                forall j, j ∈ l1 -> test_at st P j = false.
Proof.
  revert i. induction l as [|x l IH]; intros i; simpl.
  - split; [done|]. intros (l1 & l2 & H & _). by destruct l1.
  - destruct (test_at st P x) eqn:Hx.
    + split.
      * intros [= ->]. exists [], l. split; [done|]. split; [done|].
        by intros j ?%elem_of_nil.
      * intros (l1 & l2 & H & Hi & Hno). destruct l1 as [|y l1].
        -- simpl in H. congruence.
        -- simpl in H. injection H as <- _. rewrite Hno in Hx; [done|by left].
    + rewrite IH. split.
      * intros (l1 & l2 & -> & Hi & Hno). exists (x :: l1), l2.
        split; [done|]. split; [done|].
        intros j [->|Hj]%elem_of_cons; auto.
      * intros (l1 & l2 & H & Hi & Hno). destruct l1 as [|y l1].
        -- simpl in H. injection H as -> _. congruence.
        -- simpl in H. injection H as <- ->. exists l1, l2.
           split; [done|]. split; [done|]. intros j Hj. apply Hno. by right.
Qed.

Lemma first_match_elem st P l i :
  first_match st P l = Some i -> i ∈ l /\ test_at st P i = true.
Proof.
  intros (l1 & l2 & -> & Hi & _)%first_match_Some. split; [|done].
  apply elem_of_app. right. by left.
Qed.

(** ** The invariant under one store *)

Section Invariant.
Context {pf : Platform}.
Variable Ex : Z -> Z -> Prop.

Lemma ring_store_data st p b b' l :
  ring st l ->
  deref st p = Some b -> prev b' = prev b -> next b' = next b ->
  ring (store p b' st) l.
Proof.
  intros (Hl & Hlen & Hall) Hp Hpr Hnx. split; [|split; [|done]].
  - by eapply linked_store_data.
  - by rewrite length_slots_store.
Qed.

Lemma ring_set_isfull st v l : ring st l -> ring (set_isfull v st) l.
Proof. intros (Hl & Hlen & Hall). split; [by apply linked_set_isfull|done]. Qed.

Lemma inv_set_isfull st v : inv_with Ex st -> inv_with Ex (set_isfull v st).
Proof.
  intros ([l Hr] & Hh & Hi). split; [|done]. exists l. by apply ring_set_isfull.
Qed.

Lemma inv_store st p b b' :
  inv_with Ex st ->
  deref st p = Some b -> prev b' = prev b -> next b' = next b ->
  (p = Head -> lock b' = lock b) ->
  (forall i, p = Slot i ->
     held_ok b' /\
     forall j bj, j <> i -> slots st !! j = Some bj ->
       dev bj = dev b' -> blockno bj = blockno b' ->
       Ex (dev b') (blockno b')) ->
  inv_with Ex (store p b' st).
Proof.
  intros ([l Hr] & Hh & Hi & Hhd) Hp Hpr Hnx Hlk Hnew.
  split; [|split; [|split]].
  4:{ change (head (store p b' st)) with
        (default (head st) (deref (store p b' st) Head)).
      rewrite deref_store by eauto. case_decide as Hph; [|done].
      subst p. simpl. rewrite Hlk by done. by injection Hp as <-. }
  - exists l. by eapply ring_store_data.
  - intros i bi.
    change (slots (store p b' st) !! i) with (deref (store p b' st) (Slot i)).
    rewrite deref_store by eauto. case_decide as Hpi.
    + intros [= <-]. by apply (Hnew i).
    + apply Hh.
  - intros i j bi bj Hij.
    change (slots (store p b' st) !! i) with (deref (store p b' st) (Slot i)).
    change (slots (store p b' st) !! j) with (deref (store p b' st) (Slot j)).
    rewrite !deref_store by eauto.
    destruct (decide (p = Slot i)) as [Hpi|Hpi];
      destruct (decide (p = Slot j)) as [Hpj|Hpj].
    + congruence.
    + intros [= <-] Hbj Hd Hb. destruct (Hnew i Hpi) as [_ H].
      apply (H j bj); [congruence|done|done|done].
    + intros Hbi [= <-] Hd Hb. destruct (Hnew j Hpj) as [_ H].
      rewrite Hd, Hb. apply (H i bi); [congruence|done|done|done].
    + by apply Hi.
Qed.

Lemma inv_store_flags st p b v :
  inv_with Ex st -> deref st p = Some b -> inv_with Ex (store p (set_flags v b) st).
Proof.
  intros Hinv Hp. eapply inv_store; [done|done|done|done|done|].
  intros i ->. destruct Hinv as (_ & Hh & Hi & _). split; [exact (Hh i b Hp)|].
  intros j bj Hj Hbj Hd Hb. simpl in *.
  symmetry in Hd, Hb. apply (Hi i j b bj); auto.
Qed.

Lemma inv_logged l : forall st, inv_with Ex st -> inv_with Ex (logged st l).
Proof.
  induction l as [|i l IH]; intros st Hinv; simpl; [done|].
  apply IH. destruct (slots st !! i) as [b|] eqn:Hb; [|done].
  destruct (dirty b); [|done]. by apply inv_store_flags.
Qed.

Lemma inv_take_hit st me i p st' tr :
  inv_with Ex st -> take_hit me i st = Ret p st' tr -> inv_with Ex st'.
Proof.
  intros Hinv. unfold take_hit.
  destruct (slots st !! i) as [b|] eqn:Hb; [|done].
  destruct (locked (lock b) =? 0)%Z eqn:Hlk; [|done].
  intros [= _ <- _]. apply Z.eqb_eq in Hlk.
  eapply (inv_store st (Slot i) b); [done|done|done|done|done|].
  intros ? [= <-]. pose proof Hinv as (_ & Hh & Hi & _).
  destruct (Hh i b Hb) as [[_ Hrc]|[Hl1 _]]; [|lia]. split.
  - right. simpl. rewrite Hrc. done.
  - intros j bj Hj Hbj Hd Hbn. simpl in *. symmetry in Hd, Hbn.
    apply (Hi i j b bj); auto.
Qed.

Lemma inv_take_free st l me dv bn i p st' tr :
  inv_with Ex st -> ring st l ->
  first_match st (ident dv bn) l = None ->
  take_free me dv bn i st = Ret p st' tr -> inv_with Ex st'.
Proof.
  intros Hinv Hr Hno. unfold take_free.
  destruct (slots st !! i) as [b|] eqn:Hb; [|done].
  destruct (locked (lock b) =? 0)%Z eqn:Hlk; [|done].
  intros [= _ <- _].
  eapply (inv_store st (Slot i) b); [done|done|done|done|done|].
  intros ? [= <-]. split; [by right|].
  intros j bj Hj Hbj Hd Hbn. simpl in *. exfalso.
  rewrite first_match_None in Hno.
  assert (j ∈ l) as Hjl.
  { destruct Hr as (_ & Hlen & Hall). apply Hall. rewrite <- Hlen.
    by eapply lookup_lt_Some. }
  specialize (Hno j Hjl). unfold test_at in Hno. rewrite Hbj in Hno.
  unfold ident in Hno. rewrite Hd, Hbn, !Z.eqb_refl in Hno. done.
Qed.

(** ** bread, bwrite and brelse *)

Lemma bread_spec syn me dv bn st :
  bread syn me dv bn st
  = match bget syn me dv bn st with
    | Ret p st1 t1 =>
        match deref st1 p with
        | Some b =>
            if valid b then Ret p st1 t1
            else Ret p (store p (set_flags (iderw b) b) st1)
                   (t1 ++ [EvIderw p b])
        | None => Stop Fault st1 t1
        end
    | Stop h st1 t1 => Stop h st1 t1
    end.
Proof.
  unfold bread. unfold bind at 1.
  destruct (bget syn me dv bn st) as [p st1 t1|h st1 t1]; [|done].
  destruct (deref st1 p) as [b|] eqn:Hb.
  - rewrite (bind_load _ _ _ _ Hb). destruct (valid b).
    + rewrite bind_ret. unfold ret. simpl. by rewrite app_nil_r.
    + rewrite (bind_Ret_tr _ _ _ _ _ _ (call_iderw_eq _ _ _ Hb)). done.
  - rewrite (bind_load_fault _ _ _ Hb). simpl. by rewrite app_nil_r.
Qed.

Lemma bwrite_spec me p st b :
  deref st p = Some b ->
  bwrite me p st
  = if holdingsleep me (lock b)
    then
      let b1 := set_flags (Z.lor (flags b) B_DIRTY) b in
      Ret tt (store p (set_flags (iderw b1) b1) st) [EvIderw p b1]
    else Stop (Panic "bwrite") st [].
Proof.
  intros Hb. unfold bwrite. rewrite (bind_load _ _ _ _ Hb).
  destruct (holdingsleep me (lock b)); simpl; [|done].
  rewrite (bind_update _ _ _ _ _ Hb).
  rewrite (call_iderw_eq _ _ (set_flags (Z.lor (flags b) B_DIRTY) b)).
  - by rewrite store_store.
  - apply deref_store_eq. by eexists.
Qed.

Lemma brelse_panic me p st b :
  deref st p = Some b ->
  holdingsleep me (lock b) = false ->
  brelse me p st = Stop (Panic "brelse") st [].
Proof.
  intros Hb Hh. unfold brelse. rewrite (bind_load _ _ _ _ Hb).
  by rewrite Hh.
Qed.

(** The buffer as [brelse] leaves it: unlocked, one reference fewer. *)
Lemma brelse_spec me i st l1 l2 b :
  linked st (l1 ++ i :: l2) ->
  slots st !! i = Some b ->
  holdingsleep me (lock b) = true ->
  let b2 := set_refcnt (wrap_uint (refcnt b - 1)) (set_lock (mkLock 0 0) b) in
  exists st',
    brelse me (Slot i) st = Ret tt st' [] /\
    same_data (store (Slot i) b2 st) st' /\
    linked st' (if (refcnt b2 =? 0)%Z then i :: l1 ++ l2 else l1 ++ i :: l2).
Proof.
  set (l := l1 ++ i :: l2). intros Hl Hb Hh b2.
  assert (forall x, deref (store (Slot i) x st) (Slot i) = Some x) as Hd
    by (intros; apply deref_store_eq; by eexists).
  set (st2 := store (Slot i) b2 st).
  assert (linked st2 l) as Hl2 by (by eapply linked_store_data).
  assert (brelse me (Slot i) st
          = (if (refcnt b2 =? 0)%Z
             then bind (load (Slot i)) (fun x =>
               bind (update (next x) (set_prev (prev x))) (fun _ =>
                 bind (load (Slot i)) (fun x =>
                   bind (update (prev x) (set_next (next x))) (fun _ =>
                     bind (load Head) (fun h =>
                       bind (update (Slot i) (set_next (next h))) (fun _ =>
                         bind (update (Slot i) (set_prev Head)) (fun _ =>
                           bind (load Head) (fun h =>
                             bind (update (next h) (set_prev (Slot i)))
                               (fun _ => update Head (set_next (Slot i)))))))))))
             else ret tt) st2) as ->.
  { unfold brelse. rewrite (bind_load (Slot i) _ _ _ Hb). rewrite Hh.
    cbn [negb]. unfold releasesleep.
    rewrite (bind_update (Slot i) _ _ _ _ Hb).
    rewrite (bind_load (Slot i) _ _ _ (Hd _)).
    rewrite (bind_update (Slot i) _ _ _ _ (Hd _)). rewrite store_store.
    rewrite (bind_load (Slot i) _ _ _ (Hd _)). done. }
  destruct (refcnt b2 =? 0)%Z.
  2:{ exists st2. split; [done|]. split; [apply same_data_refl|done]. }
  assert (length l = S (length l1 + length l2)) as Hlen
    by (unfold l; rewrite length_app; simpl; lia).
  assert (l !! length l1 = Some i) as Hli by (by apply list_lookup_middle).
  pose proof Hl2 as (Hnd & Hlt & Hs).
  destruct (Hs (length l1)) as [_ HP]; [lia|].
  destruct (Hs (S (length l1))) as [HN _]; [lia|].
  rewrite (pos_S_lookup _ _ _ Hli) in HP, HN.
  destruct (unlink_spec st2 i _ _ HN HP) as (st3 & E3 & N3 & P3 & D3).
  - apply linked_pos_valid; [done|lia].
  - apply linked_pos_valid; [done|lia].
  - rewrite <- (pos_S_lookup _ _ _ Hli). intros Heq.
    apply pos_inj_hi in Heq; [lia|done|lia|lia].
  - rewrite <- (pos_S_lookup _ _ _ Hli). intros Heq.
    apply pos_inj_lo in Heq; [lia|done|lia|lia].
  - rewrite E3.
    assert (linked st3 (l1 ++ l2)) as Hl3.
    { eapply (linked_remove st2 st3 l1 i l2); [done|done|done|]. apply D3. }
    assert (i ∉ l1 ++ l2) as Hni.
    { unfold l in Hnd. apply NoDup_app in Hnd as (_ & Hn1 & Hn2).
      apply NoDup_cons in Hn2 as [Hn2 _].
      intros [H|H]%elem_of_app; [|done]. apply (Hn1 i H). by left. }
    destruct (relink_spec st3 i (pos (l1 ++ l2) 1))
      as (st4 & E4 & N4 & P4 & D4).
    + eapply same_data_valid; [done|]. unfold st2. rewrite Hd. by eexists.
    + rewrite <- (linked_head_next _ _ Hl3). done.
    + apply linked_pos_valid; [done|lia].
    + intros (k' & _ & Hk')%pos_Slot. apply Hni.
      by eapply list_elem_of_lookup_2.
    + exists st4. split; [done|]. split; [by eapply same_data_trans|].
      eapply linked_insert; try done.
      * destruct D3 as (_ & _ & ->). unfold st2.
        rewrite length_slots_store. by eapply lookup_lt_Some.
      * apply D4.
Qed.

(** ** Every function keeps the invariant *)

Lemma bind_Ret_inv {A B} (m : M A) (f : A -> M B) st b st' tr :
  bind m f st = Ret b st' tr ->
  exists a st1 t1 t2,
    m st = Ret a st1 t1 /\ f a st1 = Ret b st' t2 /\ tr = t1 ++ t2.
Proof.
  unfold bind. destruct (m st) as [a st1 t1|h st1 t1]; [|done].
  destruct (f a st1) as [b' st2 t2|h st2 t2] eqn:Hf; [|done].
  simpl. intros [= -> -> <-]. by exists a, st1, t1, t2.
Qed.

Lemma preserves_bind {A B} (m : M A) (f : A -> M B) :
  preserves Ex m -> (forall a, preserves Ex (f a)) -> preserves Ex (bind m f).
Proof.
  intros Hm Hf st b st' tr Hinv (a & st1 & t1 & t2 & E1 & E2 & _)%bind_Ret_inv.
  eapply Hf; [|done]. by eapply Hm.
Qed.

Lemma preserves_ret {A} (a : A) : preserves Ex (ret a).
Proof. by intros st a' st' tr Hinv [= _ <- _]. Qed.

Lemma core_eq b b' :
  core b' = core b ->
  flags b' = flags b /\ dev b' = dev b /\ blockno b' = blockno b /\
  lock b' = lock b /\ refcnt b' = refcnt b.
Proof. unfold core. intros [= -> -> -> -> ->]. done. Qed.

Lemma same_data_slot st st' i b' :
  same_data st st' -> slots st' !! i = Some b' ->
  exists b, slots st !! i = Some b /\ core b' = core b.
Proof.
  intros (H & _) Hb'. specialize (H (Slot i)). simpl in H. rewrite Hb' in H.
  destruct (slots st !! i) as [b|]; [|done]. simpl in H.
  exists b. split; [done|]. congruence.
Qed.

Lemma inv_same_data st st' l :
  inv_with Ex st -> same_data st st' -> ring st' l -> inv_with Ex st'.
Proof.
  intros (_ & Hh & Hi & Hhd) Hd Hr. split; [eauto|split; [|split]].
  - intros i b' Hb'. destruct (same_data_slot _ _ _ _ Hd Hb') as (b & Hb & Hc).
    apply core_eq in Hc as (_ & _ & _ & Hlk & Hrc).
    unfold held_ok. rewrite Hlk, Hrc. by apply (Hh i).
  - intros i j bi' bj' Hij Hbi' Hbj'.
    destruct (same_data_slot _ _ _ _ Hd Hbi') as (bi & Hbi & Hci).
    destruct (same_data_slot _ _ _ _ Hd Hbj') as (bj & Hbj & Hcj).
    apply core_eq in Hci as (_ & -> & -> & _).
    apply core_eq in Hcj as (_ & -> & -> & _). by apply (Hi i j).
  - destruct Hd as (H & _). specialize (H Head). simpl in H.
    assert (core (head st') = core (head st)) as Hc by congruence.
    apply core_eq in Hc as (_ & _ & _ & -> & _). done.
Qed.

Lemma holdingsleep_locked me lk :
  holdingsleep me lk = true -> locked lk <> 0%Z /\ pid lk = me.
Proof.
  unfold holdingsleep. intros [H1 H2]%andb_true_iff.
  apply negb_true_iff, Z.eqb_neq in H1. apply Z.eqb_eq in H2. done.
Qed.

Lemma preserves_brelse me p : preserves Ex (brelse me p).
Proof.
  intros st [] st' tr Hinv Hrun.
  destruct (deref st p) as [b|] eqn:Hb.
  2:{ unfold brelse in Hrun. by rewrite (bind_load_fault _ _ _ Hb) in Hrun. }
  destruct (holdingsleep me (lock b)) eqn:Hh.
  2:{ by rewrite (brelse_panic _ _ _ _ Hb Hh) in Hrun. }
  apply holdingsleep_locked in Hh as Hlk. destruct Hlk as [Hlk _].
  pose proof Hinv as ([l Hr] & Hheld & Hid & Hhd).
  destruct p as [| |i]; [done| |].
  { injection Hb as <-. done. }
  simpl in Hb.
  assert (i ∈ l) as Hil.
  { destruct Hr as (_ & Hlen & Hall). apply Hall. rewrite <- Hlen.
    by eapply lookup_lt_Some. }
  apply list_elem_of_split in Hil as (l1 & l2 & ->).
  pose proof Hr as (Hl & Hlen & Hall).
  destruct (brelse_spec me i st l1 l2 b Hl Hb Hh) as (st2 & E & Hd & Hl2).
  rewrite E in Hrun. injection Hrun as <- _.
  set (b2 := set_refcnt _ _) in *.
  assert (inv_with Ex (store (Slot i) b2 st)) as Hinv2.
  { eapply (inv_store st (Slot i) b); [done|done|done|done|done|].
    intros ? [= <-]. split.
    - left. simpl. split; [done|].
      destruct (Hheld i b Hb) as [[H0 _]|[_ ->]]; [done|done].
    - intros j bj Hj Hbj Hdv Hbn. simpl in *. symmetry in Hdv, Hbn.
      apply (Hid i j b bj); auto. }
  eapply inv_same_data; [done|done|].
  split; [done|]. split.
  - destruct Hd as (_ & _ & ->). by rewrite length_slots_store.
  - intros j Hj. specialize (Hall j Hj). destruct (refcnt b2 =? 0)%Z; [|done].
    apply elem_of_app in Hall as [H|[->|H]%elem_of_cons].
    + right. apply elem_of_app. by left.
    + by left.
    + right. apply elem_of_app. by right.
Qed.

Lemma preserves_call_log_write p : preserves Ex (call_log_write p).
Proof.
  intros st [] st' tr Hinv Hrun. destruct (deref st p) as [b|] eqn:Hb.
  - rewrite (call_log_write_eq _ _ _ Hb) in Hrun. injection Hrun as <- _.
    by apply inv_store_flags.
  - unfold call_log_write in Hrun.
    by rewrite (bind_load_fault _ _ _ Hb) in Hrun.
Qed.

Lemma preserves_bwrite me p : preserves Ex (bwrite me p).
Proof.
  intros st [] st' tr Hinv Hrun. destruct (deref st p) as [b|] eqn:Hb.
  - rewrite (bwrite_spec _ _ _ _ Hb) in Hrun.
    destruct (holdingsleep me (lock b)); [|done].
    injection Hrun as <- _.
    rewrite <- (store_store st p _ (set_flags (Z.lor (flags b) B_DIRTY) b)).
    apply inv_store_flags; [by apply inv_store_flags|].
    apply deref_store_eq. by eexists.
  - unfold bwrite in Hrun. by rewrite (bind_load_fault _ _ _ Hb) in Hrun.
Qed.

Lemma preserves_logDirtyBuffer : preserves Ex logDirtyBuffer.
Proof.
  intros st n st' tr Hinv Hrun. pose proof Hinv as ([l Hr] & _).
  rewrite (logDirtyBuffer_spec _ _ Hr) in Hrun. injection Hrun as _ <- _.
  by apply inv_logged.
Qed.

Lemma preserves_buffer_isfull : preserves Ex buffer_isfull.
Proof.
  intros st n st' tr Hinv Hrun. pose proof Hinv as ([l Hr] & _).
  rewrite (buffer_isfull_spec _ _ Hr) in Hrun. by injection Hrun as _ <- _.
Qed.

Lemma preserves_bget_scan me dv bn : preserves Ex (bget_scan me dv bn).
Proof.
  intros st p st' tr Hinv Hrun. pose proof Hinv as ([l Hr] & _).
  rewrite (bget_scan_spec _ _ _ _ _ Hr) in Hrun.
  destruct (first_match st (ident dv bn) l) as [i|] eqn:Hhit.
  - by eapply inv_take_hit.
  - destruct (first_match st unused (rev l)) as [j|]; [|done].
    by eapply inv_take_free.
Qed.

Lemma preserves_bget_flush syn : preserves Ex syn -> preserves Ex (bget_flush syn).
Proof.
  intros Hsyn st [] st' tr Hinv Hrun. pose proof Hinv as ([l Hr] & _).
  destruct (decide (isfull st = 0%Z)) as [H0|H0].
  - rewrite (bget_flush_spec _ _ _ Hr H0) in Hrun.
    destruct (pressure st); [|by injection Hrun as <- _].
    destruct (syn (set_isfull 1 st)) as [[] st2 t2|h st2 t2] eqn:Hs; [|done].
    injection Hrun as <- _. apply inv_set_isfull.
    eapply Hsyn; [|done]. by apply inv_set_isfull.
  - rewrite (bget_flush_guarded _ _ H0) in Hrun. by injection Hrun as <- _.
Qed.

Lemma preserves_bget syn me dv bn :
  preserves Ex syn -> preserves Ex (bget syn me dv bn).
Proof.
  intros Hsyn. apply preserves_bind; [by apply preserves_bget_flush|].
  intros _. apply preserves_bget_scan.
Qed.

Lemma preserves_bread syn me dv bn :
  preserves Ex syn -> preserves Ex (bread syn me dv bn).
Proof.
  intros Hsyn st p st' tr Hinv Hrun. rewrite bread_spec in Hrun.
  destruct (bget syn me dv bn st) as [q st1 t1|h st1 t1] eqn:Hg; [|done].
  assert (inv_with Ex st1) as Hinv1 by (by eapply preserves_bget).
  destruct (deref st1 q) as [b|] eqn:Hb; [|done].
  destruct (valid b); injection Hrun as _ <- _; [done|].
  by apply inv_store_flags.
Qed.

Lemma preserves_run syn me p : preserves Ex syn -> preserves Ex (run syn me p).
Proof.
  intros Hsyn. induction p as [|dv bn k IH|b k IH|b k IH|k IH|k IH|b k IH];
    simpl.
  - apply preserves_ret.
  - apply preserves_bind; [by apply preserves_bread|done].
  - apply preserves_bind; [apply preserves_bwrite|done].
  - apply preserves_bind; [apply preserves_brelse|done].
  - apply preserves_bind; [apply preserves_logDirtyBuffer|done].
  - apply preserves_bind; [apply preserves_buffer_isfull|done].
  - apply preserves_bind; [apply preserves_call_log_write|done].
Qed.

Lemma preserves_sync body depth me : preserves Ex (sync body depth me).
Proof.
  induction depth as [|d IH]; simpl; [done|]. by apply preserves_run.
Qed.

End Invariant.

Section Reachable.
Context {pf : Platform}.

Lemma zero_data st i b :
  same_data zero_bcache st -> slots st !! i = Some b ->
  core b = core zero_buf.
Proof.
  intros Hd Hb. destruct (same_data_slot _ _ _ _ Hd Hb) as (b0 & Hb0 & Hc).
  simpl in Hb0. apply lookup_replicate in Hb0 as [-> _]. done.
Qed.

Lemma boot_spec :
  binit zero_bcache = Ret tt boot [] /\
  ring boot (rev (seq 0 NBUF)) /\
  same_data zero_bcache boot.
Proof.
  destruct binit_spec as (st & E & Hl & Hd). unfold boot. rewrite E. simpl.
  split; [done|]. split; [|done]. split; [done|]. split.
  - destruct Hd as (_ & _ & ->). simpl. apply length_replicate.
  - intros i Hi. apply list_elem_of_In, (proj1 (in_rev _ _)), in_seq. lia.
Qed.

Lemma inv_boot : inv boot.
Proof.
  destruct boot_spec as (_ & Hr & Hd). split; [eauto|split; [|split]].
  - intros i b Hb. apply (zero_data _ _ _ Hd), core_eq in Hb
      as (_ & _ & _ & Hlk & Hrc). left. by rewrite Hlk, Hrc.
  - intros i j bi bj _ Hbi _ _ _.
    apply (zero_data _ _ _ Hd), core_eq in Hbi as (_ & -> & -> & _). done.
  - destruct Hd as (H & _). specialize (H Head). simpl in H.
    assert (core (head boot) = core zero_buf) as Hc by congruence.
    apply core_eq in Hc as (_ & _ & _ & -> & _). done.
Qed.

Lemma reachable_final st body depth me p :
  reachable st ->
  returned (run (sync body depth me) me p st) = true ->
  reachable (final (run (sync body depth me) me p st)).
Proof.
  intros Hr Hret.
  destruct (run (sync body depth me) me p st) as [[] st' tr|] eqn:E; [|done].
  by eapply reach_run.
Qed.

Lemma reachable_inv st : reachable st -> inv st.
Proof.
  induction 1 as [|st st' body depth me p tr _ IH Hrun].
  - apply inv_boot.
  - eapply preserves_run; [apply preserves_sync|done|done].
Qed.

End Reachable.

(** ** The guard: code that neither flushes nor touches [isfull] *)

Section Guard.
Context {pf : Platform}.

Lemma quiet_bind {A B} (m : M A) (f : A -> M B) :
  quiet m -> (forall a, quiet (f a)) -> quiet (bind m f).
Proof.
  intros Hm Hf st. specialize (Hm st). unfold bind.
  destruct (m st) as [a st1 t1|h st1 t1]; [|done].
  destruct Hm as [H1 H2]. specialize (Hf a st1) as [H3 H4].
  simpl in H1, H2. rewrite final_prepend, trace_prepend. split; [congruence|].
  intros [?|?]%elem_of_app; done.
Qed.

Lemma quiet_ret {A} (a : A) : quiet (ret a).
Proof. intros st. split; [done|]. by intros ?%elem_of_nil. Qed.

Lemma quiet_stop {A} (h : halt) : quiet (@stop A h).
Proof. intros st. split; [done|]. by intros ?%elem_of_nil. Qed.

Lemma quiet_load p : quiet (load p).
Proof.
  intros st. unfold load. destruct (deref st p); simpl;
    (split; [done|by intros ?%elem_of_nil]).
Qed.

Lemma quiet_store p b : quiet (modify (store p b)).
Proof.
  intros st. simpl. split; [apply isfull_store|by intros ?%elem_of_nil].
Qed.

Lemma quiet_update p g : quiet (update p g).
Proof.
  apply quiet_bind; [apply quiet_load|]. intros b. apply quiet_store.
Qed.

Lemma quiet_emit e : e <> EvSync -> quiet (emit e).
Proof.
  intros He st. split; [done|]. simpl.
  intros H%list_elem_of_singleton. congruence.
Qed.

Lemma quiet_acquiresleep me p : quiet (acquiresleep me p).
Proof.
  apply quiet_bind; [apply quiet_load|]. intros b.
  destruct (_ =? _)%Z; [apply quiet_update|apply quiet_stop].
Qed.

Lemma quiet_call_iderw p : quiet (call_iderw p).
Proof.
  apply quiet_bind; [apply quiet_load|]. intros b.
  apply quiet_bind; [by apply quiet_emit|]. intros _. apply quiet_update.
Qed.

Lemma quiet_call_log_write p : quiet (call_log_write p).
Proof.
  apply quiet_bind; [apply quiet_load|]. intros b.
  apply quiet_bind; [by apply quiet_emit|]. intros _. apply quiet_update.
Qed.

Lemma quiet_buffer_isfull_loop fuel : forall p cnt,
  quiet (buffer_isfull_loop fuel p cnt).
Proof.
  induction fuel as [|fuel IH]; intros p cnt; simpl; [apply quiet_stop|].
  case_decide; [apply quiet_ret|].
  apply quiet_bind; [apply quiet_load|]. intros b. apply IH.
Qed.

Lemma quiet_buffer_isfull : quiet buffer_isfull.
Proof.
  apply quiet_bind; [apply quiet_load|]. intros h.
  apply quiet_bind; [apply quiet_buffer_isfull_loop|]. intros cnt.
  destruct (_ >=? _)%Z; apply quiet_ret.
Qed.

Lemma quiet_logDirtyBuffer_loop fuel : forall p cnt,
  quiet (logDirtyBuffer_loop fuel p cnt).
Proof.
  induction fuel as [|fuel IH]; intros p cnt; simpl; [apply quiet_stop|].
  case_decide; [apply quiet_ret|].
  apply quiet_bind; [apply quiet_load|]. intros b.
  apply quiet_bind.
  - destruct (dirty b); [|apply quiet_ret].
    apply quiet_bind; [apply quiet_call_log_write|]. intros _. apply quiet_ret.
  - intros cnt'. apply quiet_bind; [apply quiet_load|]. intros b'. apply IH.
Qed.

Lemma quiet_logDirtyBuffer : quiet logDirtyBuffer.
Proof.
  apply quiet_bind; [apply quiet_load|]. intros h.
  apply quiet_logDirtyBuffer_loop.
Qed.

Lemma quiet_bget_cached me dv bn fuel : forall p,
  quiet (bget_cached fuel me p dv bn).
Proof.
  induction fuel as [|fuel IH]; intros p; simpl; [apply quiet_stop|].
  case_decide; [apply quiet_ret|].
  apply quiet_bind; [apply quiet_load|]. intros b.
  destruct (_ && _); [|apply IH].
  apply quiet_bind; [apply quiet_update|]. intros _.
  apply quiet_bind; [apply quiet_acquiresleep|]. intros _. apply quiet_ret.
Qed.

Lemma quiet_bget_recycle me dv bn fuel : forall p,
  quiet (bget_recycle fuel me p dv bn).
Proof.
  induction fuel as [|fuel IH]; intros p; simpl; [apply quiet_stop|].
  case_decide; [apply quiet_ret|].
  apply quiet_bind; [apply quiet_load|]. intros b.
  destruct (_ && _); [|apply IH].
  do 4 (apply quiet_bind; [apply quiet_update|]; intros _).
  apply quiet_bind; [apply quiet_acquiresleep|]. intros _. apply quiet_ret.
Qed.

Lemma quiet_bget_scan me dv bn : quiet (bget_scan me dv bn).
Proof.
  apply quiet_bind; [apply quiet_load|]. intros h.
  apply quiet_bind; [apply quiet_bget_cached|]. intros [b|]; [apply quiet_ret|].
  apply quiet_bind; [apply quiet_load|]. intros h'.
  apply quiet_bind; [apply quiet_bget_recycle|].
  intros [b|]; [apply quiet_ret|apply quiet_stop].
Qed.

Lemma quiet_bwrite me p : quiet (bwrite me p).
Proof.
  apply quiet_bind; [apply quiet_load|]. intros b.
  destruct (negb _); [apply quiet_stop|].
  apply quiet_bind; [apply quiet_update|]. intros _. apply quiet_call_iderw.
Qed.

Lemma quiet_brelse me p : quiet (brelse me p).
Proof.
  apply quiet_bind; [apply quiet_load|]. intros b.
  destruct (negb _); [apply quiet_stop|].
  apply quiet_bind; [apply quiet_update|]. intros _.
  apply quiet_bind; [apply quiet_load|]. intros b1.
  apply quiet_bind; [apply quiet_update|]. intros _.
  apply quiet_bind; [apply quiet_load|]. intros b2.
  destruct (_ =? _)%Z; [|apply quiet_ret].
  apply quiet_bind; [apply quiet_load|]. intros x.
  apply quiet_bind; [apply quiet_update|]. intros _.
  apply quiet_bind; [apply quiet_load|]. intros x'.
  apply quiet_bind; [apply quiet_update|]. intros _.
  apply quiet_bind; [apply quiet_load|]. intros h.
  do 2 (apply quiet_bind; [apply quiet_update|]; intros _).
  apply quiet_bind; [apply quiet_load|]. intros h'.
  apply quiet_bind; [apply quiet_update|]. intros _. apply quiet_update.
Qed.

(** With the guard set, [bread] is [bget_scan] and the read that follows. *)
Lemma bread_guarded syn me dv bn st :
  isfull st <> 0%Z ->
  bread syn me dv bn st
  = bind (bget_scan me dv bn) (fun b =>
      bind (load b) (fun bb =>
        bind (if valid bb then ret tt else call_iderw b) (fun _ => ret b))) st.
Proof.
  intros H. unfold bread. unfold bind at 1 5.
  by rewrite (bget_guarded syn me dv bn st H).
Qed.

Lemma quiet_bread_tail me dv bn :
  quiet (bind (bget_scan me dv bn) (fun b =>
      bind (load b) (fun bb =>
        bind (if valid bb then ret tt else call_iderw b) (fun _ => ret b)))).
Proof.
  apply quiet_bind; [apply quiet_bget_scan|]. intros b.
  apply quiet_bind; [apply quiet_load|]. intros bb.
  apply quiet_bind; [|intros _; apply quiet_ret].
  destruct (valid bb); [apply quiet_ret|apply quiet_call_iderw].
Qed.

(** A client that starts with the guard set never reaches [sync()]: what
    [sync()] would do is irrelevant, the guard stays as it is, and no flush
    is among its calls. *)
Lemma run_guarded syn1 syn2 me p : forall st,
  isfull st <> 0%Z ->
  run syn1 me p st = run syn2 me p st /\
  isfull (final (run syn1 me p st)) = isfull st /\
  EvSync ∉ trace (run syn1 me p st).
Proof.
  assert (forall A (m : M A) (f1 f2 : A -> M unit) st,
    quiet m -> isfull st <> 0%Z ->
    (forall a st1, isfull st1 <> 0%Z ->
       f1 a st1 = f2 a st1 /\
       isfull (final (f1 a st1)) = isfull st1 /\
       EvSync ∉ trace (f1 a st1)) ->
    bind m f1 st = bind m f2 st /\
    isfull (final (bind m f1 st)) = isfull st /\
    EvSync ∉ trace (bind m f1 st)) as Hstep.
  { intros A m f1 f2 st Hq H0 Hf. specialize (Hq st) as [Hq1 Hq2].
    unfold bind. destruct (m st) as [a st1 t1|h st1 t1]; [|done].
    simpl in Hq1, Hq2. destruct (Hf a st1) as (E & Hi & Ht); [congruence|].
    rewrite <- E. rewrite final_prepend, trace_prepend.
    split; [done|]. split; [congruence|]. intros [?|?]%elem_of_app; done. }
  induction p as [|dv bn k IH|b k IH|b k IH|k IH|k IH|b k IH]; intros st H0.
  - simpl. split; [done|]. split; [done|]. by intros ?%elem_of_nil.
  - simpl. unfold bind at 1 2 3 4.
    rewrite !(bread_guarded _ me dv bn st H0).
    apply (Hstep _ _ (fun b => run syn1 me (k b)) (fun b => run syn2 me (k b)));
      [apply quiet_bread_tail|done|]. intros a st1 H1. by apply IH.
  - simpl. apply Hstep; [apply quiet_bwrite|done|]. intros _ st1 H1. by apply IH.
  - simpl. apply Hstep; [apply quiet_brelse|done|]. intros _ st1 H1. by apply IH.
  - simpl. apply Hstep; [apply quiet_logDirtyBuffer|done|].
    intros n st1 H1. by apply IH.
  - simpl. apply Hstep; [apply quiet_buffer_isfull|done|].
    intros n st1 H1. by apply IH.
  - simpl. apply Hstep; [apply quiet_call_log_write|done|].
    intros _ st1 H1. by apply IH.
Qed.

Lemma sync_guarded body depth me syn st :
  isfull st <> 0%Z ->
  sync body (S depth) me st = run syn me body st /\
  isfull (final (run syn me body st)) = isfull st /\
  EvSync ∉ trace (run syn me body st).
Proof.
  intros H0. simpl.
  destruct (run_guarded (sync body depth me) syn me body st H0) as (-> & _).
  destruct (run_guarded syn syn me body st H0) as (_ & H1 & H2). done.
Qed.

End Guard.

(** ** Code that cannot panic *)

Lemma calm_bind {A B} (m : M A) (f : A -> M B) :
  calm m -> (forall a, calm (f a)) -> calm (bind m f).
Proof.
  intros Hm Hf st h st' tr. unfold bind.
  destruct (m st) as [a st1 t1|h1 st1 t1] eqn:E.
  - destruct (f a st1) as [b st2 t2|h2 st2 t2] eqn:E2; [done|].
    simpl. intros [= <- _ _]. by eapply Hf.
  - intros [= <- _ _]. by eapply Hm.
Qed.

Lemma calm_ret {A} (a : A) : calm (ret a).
Proof. by intros st h st' tr. Qed.

Lemma calm_load p : calm (load p).
Proof.
  intros st h st' tr. unfold load. destruct (deref st p); [done|].
  by intros [= <- _ _].
Qed.

Lemma calm_update p g : calm (update p g).
Proof. apply calm_bind; [apply calm_load|]. by intros b st h st' tr. Qed.

Lemma land_lor_same f d : Z.land (Z.lor f d) d = d.
Proof.
  apply Z.bits_inj'. intros n Hn. rewrite Z.land_spec, Z.lor_spec.
  by destruct (Z.testbit f n), (Z.testbit d n).
Qed.

(** ** Code that only reads, code that only writes flags *)

Lemma final_bind {A B} (m : M A) (f : A -> M B) st :
  final (bind m f st)
  = match m st with
    | Ret a st1 _ => final (f a st1)
    | Stop _ st1 _ => st1
    end.
Proof.
  unfold bind. destruct (m st) as [a st1 t1|h st1 t1]; [|done].
  apply final_prepend.
Qed.

Lemma trace_bind {A B} (m : M A) (f : A -> M B) st :
  trace (bind m f st)
  = match m st with
    | Ret a st1 t1 => t1 ++ trace (f a st1)
    | Stop _ _ t1 => t1
    end.
Proof.
  unfold bind. destruct (m st) as [a st1 t1|h st1 t1]; [|done].
  apply trace_prepend.
Qed.

Lemma pure_bind {A B} (m : M A) (f : A -> M B) :
  pure m -> (forall a, pure (f a)) -> pure (bind m f).
Proof.
  intros Hm Hf st. specialize (Hm st). rewrite final_bind, trace_bind.
  destruct (m st) as [a st1 t1|h st1 t1]; [|done].
  simpl in Hm. destruct Hm as [-> ->]. apply Hf.
Qed.

Lemma pure_ret {A} (a : A) : pure (ret a).
Proof. done. Qed.

Lemma pure_stop {A} (h : halt) : pure (@stop A h).
Proof. done. Qed.

Lemma pure_load p : pure (load p).
Proof. intros st. unfold load. by destruct (deref st p). Qed.

Lemma set_flags_same b : set_flags (flags b) b = b.
Proof. by destruct b. Qed.

Lemma flags_only_refl st : flags_only st st.
Proof.
  split; [done|]. split; [done|]. split; [done|].
  intros i b Hb. exists b. split; [done|apply set_flags_same].
Qed.

Lemma flags_only_trans st1 st2 st3 :
  flags_only st1 st2 -> flags_only st2 st3 -> flags_only st1 st3.
Proof.
  intros (H1 & H2 & H3 & H4) (H1' & H2' & H3' & H4').
  split; [congruence|]. split; [congruence|]. split; [congruence|].
  intros i b3 Hb3. destruct (H4' i b3 Hb3) as (b2 & Hb2 & E2).
  destruct (H4 i b2 Hb2) as (b1 & Hb1 & E1). exists b1. split; [done|].
  rewrite <- E1, <- E2. by destruct b3.
Qed.

Lemma flags_only_store st i b v :
  slots st !! i = Some b -> flags_only st (store (Slot i) (set_flags v b) st).
Proof.
  intros Hb. split; [done|]. split; [done|].
  split; [apply length_slots_store|]. intros j b' Hb'.
  change (slots (store (Slot i) ?x st) !! j)
    with (deref (store (Slot i) x st) (Slot j)) in Hb'.
  rewrite deref_store in Hb' by (by eexists). case_decide as Hij.
  - injection Hij as <-. injection Hb' as <-. exists b. split; [done|].
    by destruct b.
  - exists b'. split; [done|apply set_flags_same].
Qed.

(** ** The claims about the buffer cache *)

Section Claims.
Context {pf : Platform}.

Lemma pure_buffer_isfull_loop fuel : forall p cnt,
  pure (buffer_isfull_loop fuel p cnt).
Proof.
  induction fuel as [|fuel IH]; intros p cnt; simpl; [apply pure_stop|].
  case_decide; [apply pure_ret|].
  apply pure_bind; [apply pure_load|]. intros b. apply IH.
Qed.

Lemma pure_buffer_isfull : pure buffer_isfull.
Proof.
  apply pure_bind; [apply pure_load|]. intros h.
  apply pure_bind; [apply pure_buffer_isfull_loop|]. intros cnt.
  destruct (_ >=? _)%Z; apply pure_ret.
Qed.

(** The loop of [logDirtyBuffer] from any cell of any cache: it writes
    flags words only, it calls [log_write] only, and it leaves the cache as
    it found it if [log_write] leaves the flags of a dirty buffer alone. *)
Lemma logDirtyBuffer_loop_frame fuel : forall p cnt st,
  let o := logDirtyBuffer_loop fuel p cnt st in
  flags_only st (final o) /\
  (forall e, e ∈ trace o -> exists q b, e = EvLogWrite q b) /\
  ((forall b, dirty b = true -> log_write b = flags b) -> final o = st).
Proof.
  induction fuel as [|fuel IH]; intros p cnt st; simpl.
  { split; [apply flags_only_refl|]. split; [by intros e ?%elem_of_nil|done]. }
  case_decide as Hp.
  { split; [apply flags_only_refl|]. split; [by intros e ?%elem_of_nil|done]. }
  destruct (deref st p) as [b|] eqn:Hb.
  2:{ rewrite (bind_load_fault _ _ _ Hb). simpl.
      split; [apply flags_only_refl|].
      split; [by intros e ?%elem_of_nil|done]. }
  rewrite (bind_load _ _ _ _ Hb). destruct (dirty b) eqn:Hd.
  - rewrite bind_assoc.
    rewrite (bind_Ret_tr _ _ _ _ _ _ (call_log_write_eq st p b Hb)).
    rewrite bind_ret.
    set (st1 := store p (set_flags (log_write b) b) st).
    assert (deref st1 p = Some (set_flags (log_write b) b)) as Hb1.
    { unfold st1. apply deref_store_eq. by eexists. }
    rewrite (bind_load _ _ _ _ Hb1). simpl next.
    rewrite final_prepend, trace_prepend.
    destruct (IH (next b) (wrap_int (cnt + 1)) st1) as (H1 & H2 & H3).
    split; [|split].
    + eapply flags_only_trans; [|exact H1].
      destruct p as [| |i]; [done|done|]. by apply flags_only_store.
    + intros e [->%list_elem_of_singleton|He]%elem_of_app; [eauto|auto].
    + intros Hlog. rewrite H3 by done. unfold st1.
      rewrite (Hlog b Hd), set_flags_same. by apply store_same.
  - rewrite bind_ret. rewrite (bind_load _ _ _ _ Hb). apply IH.
Qed.

Lemma logged_lookup l : forall st i,
  NoDup l ->
  slots (logged st l) !! i
  = match slots st !! i with
    | Some b =>
        Some (if bool_decide (i ∈ l) && dirty b
              then set_flags (log_write b) b else b)
    | None => None
    end.
Proof.
  induction l as [|j l IH]; intros st i Hnd; cbn [logged].
  { destruct (slots st !! i); [|done]. done. }
  apply NoDup_cons in Hnd as [Hj Hnd]. rewrite IH by done.
  destruct (decide (i = j)) as [->|Hij].
  - rewrite (bool_decide_eq_false_2 (j ∈ l)) by done.
    rewrite (bool_decide_eq_true_2 (j ∈ j :: l)) by (by left).
    destruct (slots st !! j) as [b|] eqn:Hb; [|by rewrite Hb].
    destruct (dirty b) eqn:Hd; [|by rewrite Hb, Hd].
    change (slots (store (Slot j) ?x st) !! j)
      with (deref (store (Slot j) x st) (Slot j)).
    rewrite deref_store_eq by (by eexists). done.
  - assert (bool_decide (i ∈ j :: l) = bool_decide (i ∈ l)) as ->.
    { apply bool_decide_ext. rewrite elem_of_cons.
      split; [by intros [?|?]|by right]. }
    destruct (slots st !! j) as [b|] eqn:Hb; [|done].
    destruct (dirty b); [|done]. by rewrite slots_store_ne.
Qed.

Lemma log_events_filter l : forall st i b,
  NoDup l ->
  slots st !! i = Some b ->
  List.filter (logs (Slot i)) (log_events st l)
  = if bool_decide (i ∈ l) && dirty b then [EvLogWrite (Slot i) b] else [].
Proof.
  induction l as [|j l IH]; intros st i b Hnd Hb; cbn [log_events]; [done|].
  apply NoDup_cons in Hnd as [Hj Hnd]. rewrite List.filter_app, (IH st i b) by done.
  destruct (decide (i = j)) as [->|Hij].
  - rewrite (bool_decide_eq_false_2 (j ∈ l)) by done.
    rewrite (bool_decide_eq_true_2 (j ∈ j :: l)) by (by left).
    rewrite Hb. simpl. destruct (dirty b); [|done]. simpl.
    by rewrite bool_decide_eq_true_2.
  - assert (bool_decide (i ∈ j :: l) = bool_decide (i ∈ l)) as ->.
    { apply bool_decide_ext. rewrite elem_of_cons.
      split; [by intros [?|?]|by right]. }
    destruct (slots st !! j) as [bj|]; [|done].
    destruct (dirty bj); [|done]. simpl.
    rewrite bool_decide_eq_false_2; [done|]. congruence.
Qed.

Lemma log_events_elem l : forall st e,
  e ∈ log_events st l ->
  exists i b, e = EvLogWrite (Slot i) b /\ slots st !! i = Some b /\
              dirty b = true.
Proof.
  induction l as [|j l IH]; intros st e; cbn [log_events].
  { by intros ?%elem_of_nil. }
  intros [He|He]%elem_of_app; [|by apply IH].
  destruct (slots st !! j) as [b|] eqn:Hb; [|by apply elem_of_nil in He].
  destruct (dirty b) eqn:Hd; [|by apply elem_of_nil in He].
  apply list_elem_of_singleton in He as ->. eauto.
Qed.

Lemma ring_slot_elem st l i b : ring st l -> slots st !! i = Some b -> i ∈ l.
Proof.
  intros (_ & Hlen & Hall) Hb. apply Hall. rewrite <- Hlen.
  by eapply lookup_lt_Some.
Qed.

(** C5.  On a cache whose list threads the slots [l], [logDirtyBuffer]
    returns the number of dirty buffers of the pool; among its calls there
    is, for every dirty buffer, exactly one [log_write] of that buffer and,
    for every clean one, none, and there is no other call; afterwards every
    buffer is as it was, but for the flags word that [log_write] itself
    left in a dirty one: [logDirtyBuffer] clears no flag, and no buffer
    that [log_write] leaves dirty comes out clean. *)
Theorem logDirtyBuffer_hands_dirty st l :
  ring st l ->
  exists st' tr,
    logDirtyBuffer st = Ret (Z.of_nat (ndirty st)) st' tr /\
    (forall i b, slots st !! i = Some b ->
       List.filter (logs (Slot i)) tr
       = (if dirty b then [EvLogWrite (Slot i) b] else []) /\
       slots st' !! i
       = Some (if dirty b then set_flags (log_write b) b else b)) /\
    (forall e, e ∈ tr ->
       exists i b, e = EvLogWrite (Slot i) b /\ slots st !! i = Some b /\
                   dirty b = true) /\
    ((forall b, dirty b = true -> dirty (set_flags (log_write b) b) = true) ->
     forall i, test_at st' dirty i = test_at st dirty i).
Proof.
  intros Hr. pose proof Hr as ((Hnd & _) & _).
  exists (logged st l), (log_events st l).
  split; [by apply logDirtyBuffer_spec|].
  assert (forall i b, slots st !! i = Some b ->
            slots (logged st l) !! i
            = Some (if dirty b then set_flags (log_write b) b else b)) as Hlk.
  { intros i b Hb. rewrite logged_lookup, Hb by done.
    by rewrite bool_decide_eq_true_2 by (by eapply ring_slot_elem). }
  split; [|split].
  - intros i b Hb. split; [|by apply Hlk].
    rewrite (log_events_filter l st i b) by done.
    by rewrite bool_decide_eq_true_2 by (by eapply ring_slot_elem).
  - apply log_events_elem.
  - intros Hkeep i. unfold test_at.
    destruct (slots st !! i) as [b|] eqn:Hb.
    + rewrite (Hlk i b Hb). destruct (dirty b) eqn:Hd; [by apply Hkeep|done].
    + rewrite logged_lookup, Hb by done. done.
Qed.

(** C10.  The two observers.  [buffer_isfull] leaves every cache exactly as
    it was and makes no call.  [logDirtyBuffer] writes no field of its own:
    whatever the cache, the head, the guard and, in every buffer, the
    identity, the reference count, the lock and the two list links are as
    before, the only calls are calls of [log_write], and only the flags
    word that a [log_write] returned can differ; with a [log_write] that
    leaves the flags of a dirty buffer as they are, the cache is the same
    cache, field for field. *)
Theorem observers_change_nothing st :
  (final (buffer_isfull st) = st /\ trace (buffer_isfull st) = []) /\
  flags_only st (final (logDirtyBuffer st)) /\
  (forall e, e ∈ trace (logDirtyBuffer st) -> exists q b, e = EvLogWrite q b) /\
  ((forall b, dirty b = true -> log_write b = flags b) ->
   final (logDirtyBuffer st) = st).
Proof.
  split; [apply pure_buffer_isfull|].
  unfold logDirtyBuffer. rewrite (bind_load Head _ st (head st)) by done.
  apply logDirtyBuffer_loop_frame.
Qed.

Lemma brelse_held_calm me p st b h st' tr :
  deref st p = Some b ->
  holdingsleep me (lock b) = true ->
  brelse me p st = Stop h st' tr -> h = Fault.
Proof.
  intros Hb Hh. unfold brelse. rewrite (bind_load _ _ _ _ Hb), Hh.
  cbn [negb]. apply calm_bind; [apply calm_update|]. intros _.
  apply calm_bind; [apply calm_load|]. intros b1.
  apply calm_bind; [apply calm_update|]. intros _.
  apply calm_bind; [apply calm_load|]. intros b2.
  destruct (_ =? _)%Z; [|apply calm_ret].
  apply calm_bind; [apply calm_load|]. intros x.
  apply calm_bind; [apply calm_update|]. intros _.
  apply calm_bind; [apply calm_load|]. intros x'.
  apply calm_bind; [apply calm_update|]. intros _.
  apply calm_bind; [apply calm_load|]. intros hd.
  do 2 (apply calm_bind; [apply calm_update|]; intros _).
  apply calm_bind; [apply calm_load|]. intros hd'.
  apply calm_bind; [apply calm_update|]. intros _. apply calm_update.
Qed.

(** C6.  On a buffer [b] of the cache, [bwrite] and [brelse] each panic
    (with their own name, leaving the cache as it was) exactly when
    [holdingsleep] says that the caller does not hold the sleep lock of
    [b], and neither can panic in any other way.  When the caller holds the
    lock, [bwrite] sets [B_DIRTY] in the flags, hands the buffer with the
    flag set to [iderw], and returns only with what [iderw] left. *)
Theorem bwrite_brelse_lock me p st b :
  deref st p = Some b ->
  (bwrite me p st = Stop (Panic "bwrite") st []
   <-> holdingsleep me (lock b) = false) /\
  (brelse me p st = Stop (Panic "brelse") st []
   <-> holdingsleep me (lock b) = false) /\
  (forall msg st' tr,
     bwrite me p st = Stop (Panic msg) st' tr \/
     brelse me p st = Stop (Panic msg) st' tr ->
     holdingsleep me (lock b) = false) /\
  (holdingsleep me (lock b) = true ->
   let b1 := set_flags (Z.lor (flags b) B_DIRTY) b in
   dirty b1 = true /\
   bwrite me p st
   = Ret tt (store p (set_flags (iderw b1) b1) st) [EvIderw p b1]).
Proof.
  intros Hb. pose proof (bwrite_spec me p st b Hb) as Hw.
  destruct (holdingsleep me (lock b)) eqn:Hh.
  - split; [|split; [|split]].
    + rewrite Hw. split; done.
    + split; [|done]. intros H.
      by apply (brelse_held_calm _ _ _ _ _ _ _ Hb Hh) in H.
    + intros msg st' tr [H|H].
      * by rewrite Hw in H.
      * by apply (brelse_held_calm _ _ _ _ _ _ _ Hb Hh) in H.
    + intros _ b1. split; [|done]. unfold dirty, b1. simpl.
      rewrite land_lor_same. apply negb_true_iff, Z.eqb_neq, B_DIRTY_flag.
  - split; [|split; [|split]]; [done| |done|done].
    split; [done|]. intros _. by apply (brelse_panic me p st b).
Qed.


Lemma pressure_false st :
  pressure st = false <-> (Z.of_nat (ndirty st) < Z.of_nat NBUF - 3)%Z.
Proof. unfold pressure. rewrite Z.geb_leb, Z.leb_gt. done. Qed.

Lemma pressure_true st :
  pressure st = true <-> (Z.of_nat (ndirty st) >= Z.of_nat NBUF - 3)%Z.
Proof. unfold pressure. rewrite Z.geb_leb, Z.leb_le. lia. Qed.

(** When the check of lines 66-77 does not fire, [bget] is its scan. *)
Lemma bget_no_flush syn me dv bn st l :
  ring st l ->
  isfull st <> 0%Z \/ (Z.of_nat (ndirty st) < Z.of_nat NBUF - 3)%Z ->
  bget syn me dv bn st = bget_scan me dv bn st.
Proof.
  intros Hr Hno. destruct (decide (isfull st = 0%Z)) as [H0|H0].
  - destruct Hno as [?|Hp%pressure_false]; [done|]. unfold bget.
    rewrite (bind_Ret _ _ st tt st); [done|].
    by rewrite (bget_flush_spec _ _ _ Hr H0), Hp.
  - by apply bget_guarded.
Qed.

(** C1 as the code has it.  [bget] makes its dirty-pressure check first, on
    every call and before it looks for the block: with the guard clear and
    [NBUF - 3] or more dirty buffers it sets the guard, calls [sync()] and
    clears the guard, whether the block is cached or not; otherwise it
    changes nothing; and where the flush does not return, [bget] stops
    with it.  Then, on the pool [st1] as the check leaves it, which is the
    pool [bget] was called on when the check does not fire, a [bget] that
    finds the block cached in slot [i], the first match from the head of
    the list, adds one reference to that buffer, takes its sleep lock (or
    sleeps on it, the reference counted) and returns it, with no call to
    the device nor any other call after those of the flush; [bread] then
    calls [iderw] exactly when the buffer found has not [B_VALID] set. *)
Theorem bget_hit st l syn me dv bn :
  ring st l ->
  (isfull st <> 0%Z \/ (Z.of_nat (ndirty st) < Z.of_nat NBUF - 3)%Z ->
   bget_flush syn st = Ret tt st []) /\
  (isfull st = 0%Z -> (Z.of_nat (ndirty st) >= Z.of_nat NBUF - 3)%Z ->
   bget_flush syn st
   = prepend [EvSync]
       match syn (set_isfull 1 st) with
       | Ret _ st2 t2 => Ret tt (set_isfull 0 st2) t2
       | Stop h st2 t2 => Stop h st2 t2
       end) /\
  (forall h st1 t1,
     bget_flush syn st = Stop h st1 t1 ->
     bget syn me dv bn st = Stop h st1 t1) /\
  (forall st1 t1 l1 i b,
     bget_flush syn st = Ret tt st1 t1 ->
     ring st1 l1 ->
     first_match st1 (ident dv bn) l1 = Some i ->
     slots st1 !! i = Some b ->
     let b0 := set_refcnt (wrap_uint (refcnt b + 1)) b in
     let b1 := set_lock (mkLock 1 me) b0 in
     (locked (lock b) = 0%Z ->
      bget syn me dv bn st = Ret (Slot i) (store (Slot i) b1 st1) t1 /\
      bread syn me dv bn st
      = if valid b then Ret (Slot i) (store (Slot i) b1 st1) t1
        else Ret (Slot i) (store (Slot i) (set_flags (iderw b1) b1) st1)
               (t1 ++ [EvIderw (Slot i) b1])) /\
     (locked (lock b) <> 0%Z ->
      bget syn me dv bn st
      = Stop (Blocked (Slot i)) (store (Slot i) b0 st1) t1 /\
      bread syn me dv bn st
      = Stop (Blocked (Slot i)) (store (Slot i) b0 st1) t1)).
Proof.
  intros Hr. split; [|split; [|split]].
  - intros Hno. destruct (decide (isfull st = 0%Z)) as [H0|H0].
    + destruct Hno as [?|Hp%pressure_false]; [done|].
      by rewrite (bget_flush_spec _ _ _ Hr H0), Hp.
    + by apply bget_flush_guarded.
  - intros H0 Hp%pressure_true. by rewrite (bget_flush_spec _ _ _ Hr H0), Hp.
  - intros h st1 t1 Hf. unfold bget, bind. by rewrite Hf.
  - intros st1 t1 l1 i b Hf Hr1 Hhit Hb b0 b1.
    assert (bget syn me dv bn st = prepend t1 (take_hit me i st1)) as Hg.
    { unfold bget. rewrite (bind_Ret_tr _ _ _ _ _ _ Hf).
      by rewrite (bget_scan_spec _ _ _ _ _ Hr1), Hhit. }
    rewrite bread_spec, Hg. unfold take_hit. rewrite Hb. fold b0. fold b1.
    split.
    + intros Hl. apply Z.eqb_eq in Hl. rewrite Hl. cbn [prepend].
      rewrite app_nil_r. split; [done|].
      rewrite deref_store_eq by (by eexists). change (valid b1) with (valid b).
      destruct (valid b); [done|]. by rewrite store_store.
    + intros Hl. apply Z.eqb_neq in Hl. rewrite Hl. cbn [prepend].
      by rewrite app_nil_r.
Qed.


(** C2.  In every state the kernel can reach, a [bread] that returns has
    either found the block cached, or taken the first buffer from the tail
    of the list that had no reference and was not dirty when the scan
    started; it then gives that buffer the new identity, flags 0, one
    reference and the lock, and reads it from the device.  Every buffer
    that was dirty when the scan started has kept its identity, also one
    without reference. *)
Theorem bget_never_recycles_dirty st body depth me dv bn p st' tr :
  reachable st ->
  bread (sync body depth me) me dv bn st = Ret p st' tr ->
  exists st1 t1 l i b,
    bget_flush (sync body depth me) st = Ret tt st1 t1 /\
    ring st1 l /\
    p = Slot i /\
    slots st1 !! i = Some b /\
    (forall j bj, slots st1 !! j = Some bj -> dirty bj = true ->
       exists bj', slots st' !! j = Some bj' /\
                   dev bj' = dev bj /\ blockno bj' = blockno bj) /\
    (first_match st1 (ident dv bn) l = Some i \/
     (first_match st1 (ident dv bn) l = None /\
      first_match st1 unused (rev l) = Some i /\
      refcnt b = 0%Z /\
      dirty b = false /\
      let b1 := mkBuf 0 dv bn (mkLock 1 me) 1 (prev b) (next b) in
      st' = store (Slot i) (set_flags (iderw b1) b1) st1 /\
      tr = t1 ++ [EvIderw (Slot i) b1])).
Proof.
  intros Hinv%reachable_inv Hrun. rewrite bread_spec in Hrun.
  destruct (bget (sync body depth me) me dv bn st) as [q st2 t2|] eqn:Hg;
    [|done].
  unfold bget in Hg.
  apply bind_Ret_inv in Hg as ([] & st1 & t1 & t2' & Hf & Hs & ->).
  assert (inv st1) as Hinv1.
  { eapply preserves_bget_flush; [apply preserves_sync|done|done]. }
  pose proof Hinv1 as ([l Hr] & Hheld & _).
  rewrite (bget_scan_spec _ _ _ _ _ Hr) in Hs.
  exists st1, t1, l.
  destruct (first_match st1 (ident dv bn) l) as [i|] eqn:Hhit.
  - unfold take_hit in Hs. destruct (slots st1 !! i) as [b|] eqn:Hb; [|done].
    destruct (locked (lock b) =? 0)%Z; [|done].
    injection Hs as <- <- <-. exists i, b.
    rewrite deref_store_eq in Hrun by (by eexists).
    assert (p = Slot i) as ->.
    { match type of Hrun with
      | (if ?c then _ else _) = _ => destruct c
      end; by injection Hrun. }
    split; [done|]. split; [done|]. split; [done|]. split; [done|].
    split; [|by left].
    intros j bj Hj Hd.
    assert (forall v, exists bj',
              deref (store (Slot i) (set_flags v
                (set_lock (mkLock 1 me)
                   (set_refcnt (wrap_uint (refcnt b + 1)) b))) st1) (Slot j)
              = Some bj' /\ dev bj' = dev bj /\ blockno bj' = blockno bj)
      as Hkeep.
    { intros v. rewrite deref_store by (by eexists). case_decide as Hij.
      - injection Hij as <-. assert (bj = b) as -> by congruence.
        eexists. split; [done|]. done.
      - exists bj. done. }
    match type of Hrun with
    | (if ?c then _ else _) = _ => destruct c
    end; injection Hrun as <- _.
    + destruct (Hkeep (flags (set_lock (mkLock 1 me)
                  (set_refcnt (wrap_uint (refcnt b + 1)) b)))) as (bj' & H1 & H2).
      exists bj'. split; [|done]. rewrite <- H1. by rewrite set_flags_same.
    + destruct (Hkeep (iderw (set_lock (mkLock 1 me)
                  (set_refcnt (wrap_uint (refcnt b + 1)) b)))) as (bj' & H1 & H2).
      exists bj'. split; [|done]. rewrite <- H1. by rewrite store_store.
  - destruct (first_match st1 unused (rev l)) as [i|] eqn:Hfree; [|done].
    unfold take_free in Hs. destruct (slots st1 !! i) as [b|] eqn:Hb; [|done].
    destruct (locked (lock b) =? 0)%Z; [|done].
    injection Hs as <- <- <-. exists i, b.
    rewrite deref_store_eq in Hrun by (by eexists).
    change (valid (set_lock _ _)) with false in Hrun.
    injection Hrun as <- <- <-. rewrite store_store.
    destruct (first_match_elem _ _ _ _ Hfree) as [_ Hu]. unfold test_at in Hu.
    rewrite Hb in Hu. apply andb_true_iff in Hu as [Hrc Hnd].
    apply Z.eqb_eq in Hrc. apply negb_true_iff in Hnd.
    split; [done|]. split; [done|]. split; [done|]. split; [done|]. split.
    + intros j bj Hj Hd. exists bj. split; [|done].
      rewrite slots_store_ne; [done|]. intros <-. congruence.
    + right. split; [done|]. split; [done|]. split; [done|]. split; [done|].
      split; [done|]. by rewrite app_nil_r.
Qed.

Lemma first_match_rev_None st P l :
  first_match st P (rev l) = None <-> first_match st P l = None.
Proof.
  rewrite !first_match_None. split; intros H j Hj; apply H.
  - by apply list_elem_of_In, (proj1 (in_rev _ _)), list_elem_of_In.
  - by apply list_elem_of_In, (proj2 (in_rev _ _)), list_elem_of_In.
Qed.

(** The slot that the second loop of [bget] finds is free to take on a
    cache with the invariant. *)
Lemma take_free_returns st me dv bn j :
  inv st -> test_at st unused j = true ->
  exists st', take_free me dv bn j st = Ret (Slot j) st' [].
Proof.
  intros (_ & Hh & _) Hu. unfold test_at in Hu. unfold take_free.
  destruct (slots st !! j) as [b|] eqn:Hb; [|done].
  apply andb_true_iff in Hu as [Hrc _]. apply Z.eqb_eq in Hrc.
  destruct (Hh j b Hb) as [[-> _]|[_ ?]]; [|lia]. eauto.
Qed.

(** C4.  [buffer_isfull] answers 1 exactly when at least [NBUF - 3] buffers
    are dirty and 0 otherwise, changing nothing.  When it answers 1 and the
    guard [isfull] is clear, [bget] calls [sync()] once, before its scan:
    the flush runs with the guard set, so the fetches made from inside the
    flush never reach [sync()] again (whatever [sync()] would do there is
    irrelevant and no second flush is among the calls), the guard is still
    set when the flush ends, and the scan runs with the guard cleared.
    With the guard set, [bget] is its scan alone. *)
Theorem buffer_isfull_flush_once st body depth me dv bn :
  inv st ->
  buffer_isfull st
  = Ret (if (Z.of_nat (ndirty st) >=? Z.of_nat NBUF - 3)%Z
         then 1 else 0)%Z st [] /\
  (isfull st = 0%Z ->
   (Z.of_nat (ndirty st) >= Z.of_nat NBUF - 3)%Z ->
   forall syn',
     let inner := run syn' me body (set_isfull 1 st) in
     bget (sync body (S depth) me) me dv bn st
     = prepend [EvSync]
         match inner with
         | Ret _ st2 t2 => prepend t2 (bget_scan me dv bn (set_isfull 0 st2))
         | Stop h st2 t2 => Stop h st2 t2
         end /\
     isfull (final inner) = 1%Z /\
     (EvSync ∉ trace inner) /\
     exists tr,
       trace (bget (sync body (S depth) me) me dv bn st) = EvSync :: tr /\
       EvSync ∉ tr) /\
  (isfull st <> 0%Z ->
   forall syn,
     bget syn me dv bn st = bget_scan me dv bn st /\
     EvSync ∉ trace (bget syn me dv bn st)).
Proof.
  intros ([l Hr] & _). split; [|split].
  - by apply (buffer_isfull_spec st l).
  - intros H0 Hp syn' inner.
    assert (pressure st = true) as Hpr.
    { unfold pressure. apply Z.geb_le. lia. }
    assert (isfull (set_isfull 1 st) <> 0%Z) as H1 by done.
    destruct (sync_guarded body depth me syn' _ H1) as (Es & Hi & Ht).
    fold inner in Es, Hi, Ht.
    assert (bget (sync body (S depth) me) me dv bn st
            = prepend [EvSync]
                match inner with
                | Ret _ st2 t2 =>
                    prepend t2 (bget_scan me dv bn (set_isfull 0 st2))
                | Stop h st2 t2 => Stop h st2 t2
                end) as Eb.
    { unfold bget. unfold bind.
      rewrite (bget_flush_spec _ _ _ Hr H0), Hpr, Es.
      destruct inner as [[] st2 t2|h st2 t2]; [|done].
      cbn [prepend]. by rewrite prepend_prepend. }
    split; [done|]. split; [done|]. split; [done|].
    rewrite Eb. destruct inner as [[] st2 t2|h st2 t2].
    + exists (t2 ++ trace (bget_scan me dv bn (set_isfull 0 st2))).
      split; [by rewrite !trace_prepend|].
      destruct (quiet_bget_scan me dv bn (set_isfull 0 st2)) as [_ Hq].
      simpl in Ht. intros [?|?]%elem_of_app; done.
    + exists t2. split; [done|]. done.
  - intros H0 syn. rewrite (bget_guarded _ _ _ _ _ H0). split; [done|].
    apply quiet_bget_scan.
Qed.

End Claims.

(** ** Processes at a stage: who is counted *)

Lemma nrefs_nil p : nrefs p [] = 0.
Proof. done. Qed.

Lemma nrefs_cons p me x w :
  nrefs p ((me, x) :: w)
  = (if decide (buffer_of x = p) then 1 else 0) + nrefs p w.
Proof. unfold nrefs. rewrite filter_cons. simpl. by case_decide. Qed.

Lemma nrefs_app p w1 w2 : nrefs p (w1 ++ w2) = nrefs p w1 + nrefs p w2.
Proof. unfold nrefs. by rewrite filter_app, length_app. Qed.

Lemma nrefs_middle p w1 me x w2 :
  nrefs p (w1 ++ (me, x) :: w2)
  = (if decide (buffer_of x = p) then 1 else 0) + nrefs p (w1 ++ w2).
Proof. rewrite !nrefs_app, nrefs_cons. lia. Qed.

Lemma nrefs_length p w : nrefs p w <= length w.
Proof. unfold nrefs. apply length_filter. Qed.

Lemma wrap_uint_id z : (0 <= z < 2 ^ 32)%Z -> wrap_uint z = z.
Proof. intros H. unfold wrap_uint. by apply Z.mod_small. Qed.

Lemma bind_ext {A B} (m : M A) (f g : A -> M B) st :
  (forall a s, f a s = g a s) -> bind m f st = bind m g st.
Proof.
  intros H. unfold bind. destruct (m st) as [a s t|h s t]; [|done].
  by rewrite H.
Qed.

Lemma bind_ext_l {A B} (m m' : M A) (f : A -> M B) st :
  m st = m' st -> bind m f st = bind m' f st.
Proof. intros H. unfold bind. by rewrite H. Qed.

(** *** The parts make the calls *)

Section Parts.
Context {pf : Platform}.

Lemma bget_cached_parts me dv bn fuel : forall b st,
  bget_cached fuel me b dv bn st
  = bind (bget_cached_pick fuel b dv bn)
      (fun r => match r with
                | Some p => acquiresleep me p ;; ret (Some p)
                | None => ret None
                end) st.
Proof.
  induction fuel as [|fuel IH]; intros b st; simpl; [done|].
  case_decide; [by rewrite bind_ret|].
  rewrite bind_assoc. apply bind_ext. intros bb s.
  destruct (_ && _); [|apply IH].
  rewrite bind_assoc. apply bind_ext. intros _ s'. by rewrite bind_ret.
Qed.

Lemma bget_recycle_parts me dv bn fuel : forall b st,
  bget_recycle fuel me b dv bn st
  = bind (bget_recycle_pick fuel b dv bn)
      (fun r => match r with
                | Some p => acquiresleep me p ;; ret (Some p)
                | None => ret None
                end) st.
Proof.
  induction fuel as [|fuel IH]; intros b st; simpl; [done|].
  case_decide; [by rewrite bind_ret|].
  rewrite bind_assoc. apply bind_ext. intros bb s.
  destruct (_ && _); [|apply IH].
  rewrite bind_assoc. apply bind_ext. intros _ s1.
  rewrite bind_assoc. apply bind_ext. intros _ s2.
  rewrite bind_assoc. apply bind_ext. intros _ s3.
  rewrite bind_assoc. apply bind_ext. intros _ s4. by rewrite bind_ret.
Qed.

(** [bget] from line 79 on is its scan, then [acquiresleep], then the
    [return]. *)
Lemma bget_scan_parts me dv bn st :
  bget_scan me dv bn st
  = bind (bget_pick dv bn) (fun b => acquiresleep me b ;; ret b) st.
Proof.
  unfold bget_scan, bget_pick.
  rewrite bind_assoc. apply bind_ext. intros h s.
  rewrite (bind_ext_l _ _ _ _ (bget_cached_parts me dv bn _ _ _)).
  rewrite !bind_assoc. apply bind_ext. intros [b|] s1.
  - rewrite bind_ret. rewrite bind_assoc. apply bind_ext. intros _ s2.
    by rewrite !bind_ret.
  - rewrite !bind_ret. rewrite !bind_assoc. apply bind_ext. intros h' s2.
    rewrite (bind_ext_l _ _ _ _ (bget_recycle_parts me dv bn _ _ _)).
    rewrite !bind_assoc. apply bind_ext. intros [b|] s3.
    + rewrite bind_ret. rewrite bind_assoc. apply bind_ext. intros _ s4.
      by rewrite !bind_ret.
    + by rewrite !bind_ret.
Qed.

(** [brelse] is its two parts. *)
Lemma brelse_parts me b st :
  brelse me b st = bind (brelse_unlock me b) (fun _ => brelse_drop b) st.
Proof.
  unfold brelse, brelse_unlock, brelse_drop.
  rewrite bind_assoc. apply bind_ext. intros bb s.
  destruct (negb _); [done|]. done.
Qed.

End Parts.

(** *** What the parts do *)

Section PartSpecs.
Context {pf : Platform}.

Lemma bget_cached_pick_spec dv bn st s : forall fuel p,
  chain_next st p s ->
  length s < fuel ->
  bget_cached_pick fuel p dv bn st
  = match first_match st (ident dv bn) s with
    | Some i => omap Some (pick_hit i st)
    | None => Ret None st []
    end.
Proof.
  induction s as [|i s IH]; intros fuel p Hc Hf.
  - simpl in Hc. subst p. destruct fuel as [|fuel]; [simpl in Hf; lia|]. done.
  - destruct Hc as (-> & b & Hb & Hc).
    destruct fuel as [|fuel]; [simpl in Hf; lia|].
    simpl in Hf. simpl bget_cached_pick.
    rewrite (bind_load (Slot i) _ st b) by done.
    simpl first_match. unfold test_at. rewrite Hb.
    fold (ident dv bn b). destruct (ident dv bn b).
    + unfold pick_hit. rewrite Hb.
      by rewrite (bind_update (Slot i) _ _ _ _ Hb).
    + apply IH; [done|lia].
Qed.

Lemma bget_recycle_pick_spec dv bn st s : forall fuel p,
  chain_prev st p s ->
  length s < fuel ->
  bget_recycle_pick fuel p dv bn st
  = match first_match st unused s with
    | Some i => omap Some (pick_free dv bn i st)
    | None => Ret None st []
    end.
Proof.
  induction s as [|i s IH]; intros fuel p Hc Hf.
  - simpl in Hc. subst p. destruct fuel as [|fuel]; [simpl in Hf; lia|]. done.
  - destruct Hc as (-> & b & Hb & Hc).
    destruct fuel as [|fuel]; [simpl in Hf; lia|].
    simpl in Hf. simpl bget_recycle_pick.
    rewrite (bind_load (Slot i) _ st b) by done.
    simpl first_match. unfold test_at. rewrite Hb.
    fold (unused b). destruct (unused b).
    + unfold pick_free. rewrite Hb.
      rewrite (bind_update (Slot i) _ _ _ _ Hb).
      assert (forall x, deref (store (Slot i) x st) (Slot i) = Some x) as Hd
        by (intros; apply deref_store_eq; by eexists).
      rewrite (bind_update _ _ _ _ _ (Hd _)). rewrite store_store.
      rewrite (bind_update _ _ _ _ _ (Hd _)). rewrite store_store.
      rewrite (bind_update _ _ _ _ _ (Hd _)). rewrite store_store.
      done.
    + apply IH; [done|lia].
Qed.

(** Lines 79-100 and 105: the first cached slot from the head, else the
    first unused one from the tail, else the panic. *)
Lemma bget_pick_spec dv bn st l :
  ring st l ->
  bget_pick dv bn st
  = match first_match st (ident dv bn) l with
    | Some i => pick_hit i st
    | None =>
        match first_match st unused (rev l) with
        | Some j => pick_free dv bn j st
        | None => Stop (Panic "bget: no buffers") st []
        end
    end.
Proof.
  intros Hr. pose proof Hr as (Hl & _). unfold bget_pick.
  rewrite (bind_load Head _ st (head st)) by done.
  unfold bind at 1.
  rewrite (bget_cached_pick_spec dv bn st l);
    [|by apply linked_chain_next|rewrite (ring_length _ _ Hr); lia].
  destruct (first_match st (ident dv bn) l) as [i|].
  - destruct (pick_hit i st) as [p st' tr|h st' tr];
      cbn [omap prepend ret]; [|done].
    by rewrite app_nil_r.
  - rewrite prepend_nil.
    rewrite (bind_load Head _ st (head st)) by done.
    unfold bind.
    rewrite (bget_recycle_pick_spec dv bn st (rev l));
      [|by apply linked_chain_prev
       |rewrite length_rev, (ring_length _ _ Hr); lia].
    destruct (first_match st unused (rev l)) as [j|]; [|done].
    destruct (pick_free dv bn j st) as [p st' tr|h st' tr];
      cbn [omap prepend ret]; [|done].
    by rewrite app_nil_r.
Qed.

Lemma brelse_unlock_spec me p st b :
  deref st p = Some b ->
  brelse_unlock me p st
  = if holdingsleep me (lock b)
    then Ret tt (store p (set_lock (mkLock 0 0) b) st) []
    else Stop (Panic "brelse") st [].
Proof.
  intros Hb. unfold brelse_unlock. rewrite (bind_load _ _ _ _ Hb).
  destruct (holdingsleep me (lock b)); simpl; [|done].
  unfold releasesleep. by rewrite (update_eq _ _ _ _ Hb).
Qed.

(** The buffer as lines 141-153 leave it: one reference fewer, and at the
    head of the list when that was the last. *)
Lemma brelse_drop_spec i st l1 l2 b :
  linked st (l1 ++ i :: l2) ->
  slots st !! i = Some b ->
  let b2 := set_refcnt (wrap_uint (refcnt b - 1)) b in
  exists st',
    brelse_drop (Slot i) st = Ret tt st' [] /\
    same_data (store (Slot i) b2 st) st' /\
    linked st' (if (refcnt b2 =? 0)%Z then i :: l1 ++ l2 else l1 ++ i :: l2).
Proof.
  set (l := l1 ++ i :: l2). intros Hl Hb b2.
  assert (forall x, deref (store (Slot i) x st) (Slot i) = Some x) as Hd
    by (intros; apply deref_store_eq; by eexists).
  set (st2 := store (Slot i) b2 st).
  assert (linked st2 l) as Hl2 by (by eapply linked_store_data).
  assert (brelse_drop (Slot i) st
          = (if (refcnt b2 =? 0)%Z
             then bind (load (Slot i)) (fun x =>
               bind (update (next x) (set_prev (prev x))) (fun _ =>
                 bind (load (Slot i)) (fun x =>
                   bind (update (prev x) (set_next (next x))) (fun _ =>
                     bind (load Head) (fun h =>
                       bind (update (Slot i) (set_next (next h))) (fun _ =>
                         bind (update (Slot i) (set_prev Head)) (fun _ =>
                           bind (load Head) (fun h =>
                             bind (update (next h) (set_prev (Slot i)))
                               (fun _ => update Head (set_next (Slot i)))))))))))
             else ret tt) st2) as ->.
  { unfold brelse_drop. rewrite (bind_load (Slot i) _ _ _ Hb).
    rewrite (bind_update (Slot i) _ _ _ _ Hb).
    rewrite (bind_load (Slot i) _ _ _ (Hd _)). done. }
  destruct (refcnt b2 =? 0)%Z.
  2:{ exists st2. split; [done|]. split; [apply same_data_refl|done]. }
  assert (length l = S (length l1 + length l2)) as Hlen
    by (unfold l; rewrite length_app; simpl; lia).
  assert (l !! length l1 = Some i) as Hli by (by apply list_lookup_middle).
  pose proof Hl2 as (Hnd & Hlt & Hs).
  destruct (Hs (length l1)) as [_ HP]; [lia|].
  destruct (Hs (S (length l1))) as [HN _]; [lia|].
  rewrite (pos_S_lookup _ _ _ Hli) in HP, HN.
  destruct (unlink_spec st2 i _ _ HN HP) as (st3 & E3 & N3 & P3 & D3).
  - apply linked_pos_valid; [done|lia].
  - apply linked_pos_valid; [done|lia].
  - rewrite <- (pos_S_lookup _ _ _ Hli). intros Heq.
    apply pos_inj_hi in Heq; [lia|done|lia|lia].
  - rewrite <- (pos_S_lookup _ _ _ Hli). intros Heq.
    apply pos_inj_lo in Heq; [lia|done|lia|lia].
  - rewrite E3.
    assert (linked st3 (l1 ++ l2)) as Hl3.
    { eapply (linked_remove st2 st3 l1 i l2); [done|done|done|]. apply D3. }
    assert (i ∉ l1 ++ l2) as Hni.
    { unfold l in Hnd. apply NoDup_app in Hnd as (_ & Hn1 & Hn2).
      apply NoDup_cons in Hn2 as [Hn2 _].
      intros [H|H]%elem_of_app; [|done]. apply (Hn1 i H). by left. }
    destruct (relink_spec st3 i (pos (l1 ++ l2) 1))
      as (st4 & E4 & N4 & P4 & D4).
    + eapply same_data_valid; [done|]. unfold st2. rewrite Hd. by eexists.
    + rewrite <- (linked_head_next _ _ Hl3). done.
    + apply linked_pos_valid; [done|lia].
    + intros (k' & _ & Hk')%pos_Slot. apply Hni.
      by eapply list_elem_of_lookup_2.
    + exists st4. split; [done|]. split; [by eapply same_data_trans|].
      eapply linked_insert; try done.
      * destruct D3 as (_ & _ & ->). unfold st2.
        rewrite length_slots_store. by eapply lookup_lt_Some.
      * apply D4.
Qed.

(** No process sleeps in a part but in [acquiresleep]. *)
Lemma awake_bind {A B} (m : M A) (f : A -> M B) :
  awake m -> (forall a, awake (f a)) -> awake (bind m f).
Proof.
  intros Hm Hf st q st' tr. unfold bind.
  destruct (m st) as [a st1 t1|h st1 t1] eqn:E.
  - destruct (f a st1) as [b st2 t2|h st2 t2] eqn:E2; [done|].
    simpl. intros [= -> -> _]. by apply Hf in E2.
  - intros [= -> -> ->]. by apply Hm in E.
Qed.

Lemma awake_ret {A} (a : A) : awake (ret a).
Proof. done. Qed.

Lemma awake_load p : awake (load p).
Proof. intros st q st' tr. unfold load. by destruct (deref st p). Qed.

Lemma awake_modify f : awake (modify f).
Proof. done. Qed.

Lemma awake_update p g : awake (update p g).
Proof.
  apply awake_bind; [apply awake_load|]. intros b. apply awake_modify.
Qed.

Lemma awake_bget_cached_pick dv bn fuel : forall b,
  awake (bget_cached_pick fuel b dv bn).
Proof.
  induction fuel as [|fuel IH]; intros b; simpl; [done|].
  case_decide; [apply awake_ret|].
  apply awake_bind; [apply awake_load|]. intros bb.
  destruct (_ && _); [|apply IH].
  apply awake_bind; [apply awake_update|]. intros _. apply awake_ret.
Qed.

Lemma awake_bget_recycle_pick dv bn fuel : forall b,
  awake (bget_recycle_pick fuel b dv bn).
Proof.
  induction fuel as [|fuel IH]; intros b; simpl; [done|].
  case_decide; [apply awake_ret|].
  apply awake_bind; [apply awake_load|]. intros bb.
  destruct (_ && _); [|apply IH].
  do 4 (apply awake_bind; [apply awake_update|]; intros _). apply awake_ret.
Qed.

Lemma awake_bget_pick dv bn : awake (bget_pick dv bn).
Proof.
  unfold bget_pick. apply awake_bind; [apply awake_load|]. intros h.
  apply awake_bind; [apply awake_bget_cached_pick|]. intros [b|].
  { apply awake_ret. }
  apply awake_bind; [apply awake_load|]. intros h'.
  apply awake_bind; [apply awake_bget_recycle_pick|]. intros [b|]; [|done].
  apply awake_ret.
Qed.

Lemma awake_brelse_unlock me b : awake (brelse_unlock me b).
Proof.
  unfold brelse_unlock. apply awake_bind; [apply awake_load|]. intros bb.
  destruct (negb _); [done|]. apply awake_update.
Qed.

Lemma awake_brelse_drop b : awake (brelse_drop b).
Proof.
  unfold brelse_drop.
  apply awake_bind; [apply awake_load|]. intros bb.
  apply awake_bind; [apply awake_update|]. intros _.
  apply awake_bind; [apply awake_load|]. intros bb'.
  destruct (_ =? _)%Z; [|apply awake_ret].
  repeat (first [apply awake_update
                |apply awake_bind; [first [apply awake_load
                                          |apply awake_update]|]; intros ?]).
Qed.

End PartSpecs.

(** *** The count under every part *)

Section Counted.
Context {pf : Platform}.
Variable nproc : nat.
Hypothesis nproc_uint : (Z.of_nat nproc < 2 ^ 32 - 1)%Z.

(** One store that keeps the links, with the stages it comes with. *)
Lemma counted_store st w w' p b b' :
  counted nproc st w ->
  deref st p = Some b -> prev b' = prev b -> next b' = next b ->
  (p = Head -> lock b' = lock b) ->
  length w' <= nproc ->
  nrefs Head w' = 0 ->
  (forall j, Slot j <> p -> nrefs (Slot j) w' = nrefs (Slot j) w) ->
  (forall i, p = Slot i ->
     (locked (lock b') = 0 \/ locked (lock b') = 1)%Z /\
     refcnt b' = (locked (lock b') + Z.of_nat (nrefs (Slot i) w'))%Z) ->
  counted nproc (store p b' st) w'.
Proof.
  intros ([l Hr] & Hhd & Hlen & Hnh & Hc) Hp Hpr Hnx Hlk Hlen' Hnh' Hoth Hnew.
  split; [|split; [|split; [|split]]]; [| |done|done|].
  - exists l. by eapply ring_store_data.
  - change (head (store p b' st)) with
      (default (head st) (deref (store p b' st) Head)).
    rewrite deref_store by eauto. case_decide as Hph; [|done].
    subst p. simpl. rewrite Hlk by done. by injection Hp as <-.
  - intros i bi.
    change (slots (store p b' st) !! i) with (deref (store p b' st) (Slot i)).
    rewrite deref_store by eauto. case_decide as Hpi.
    + intros [= <-]. by apply Hnew.
    + intros Hbi. rewrite Hoth by done. by apply Hc.
Qed.

Lemma counted_store_flags st w p b v :
  counted nproc st w -> deref st p = Some b ->
  counted nproc (store p (set_flags v b) st) w.
Proof.
  intros Hc Hp. pose proof Hc as (_ & _ & Hlen & Hnh & Hs).
  eapply counted_store; try done. intros i ->. exact (Hs i b Hp).
Qed.

Lemma counted_set_isfull st w v :
  counted nproc st w -> counted nproc (set_isfull v st) w.
Proof.
  intros ([l Hr] & H). split; [|exact H]. exists l. by apply ring_set_isfull.
Qed.

Lemma counted_same_data st st' w l :
  counted nproc st w -> same_data st st' -> ring st' l -> counted nproc st' w.
Proof.
  intros (_ & Hhd & Hlen & Hnh & Hc) Hd Hr.
  split; [eauto|split; [|split; [done|split; [done|]]]].
  - destruct Hd as (H & _). specialize (H Head). simpl in H.
    assert (core (head st') = core (head st)) as Hcore by congruence.
    apply core_eq in Hcore as (_ & _ & _ & -> & _). done.
  - intros i b' Hb'. destruct (same_data_slot _ _ _ _ Hd Hb') as (b & Hb & Hcore).
    apply core_eq in Hcore as (_ & _ & _ & Hlk & Hrc).
    rewrite Hlk, Hrc. by apply Hc.
Qed.

(** Lines 79-100: the reference is counted with the caller, who goes for
    the lock. *)
Lemma counted_bget_pick st w me dv bn q st' tr :
  counted nproc st w ->
  length w < nproc ->
  bget_pick dv bn st = Ret q st' tr ->
  counted nproc st' ((me, Locking q) :: w).
Proof.
  intros Hc Hlt. pose proof Hc as ([l Hr] & _ & Hlen & Hnh & Hs).
  rewrite (bget_pick_spec _ _ _ _ Hr).
  destruct (first_match st (ident dv bn) l) as [i|] eqn:Hhit.
  - unfold pick_hit. destruct (slots st !! i) as [b|] eqn:Hb; [|done].
    intros [= <- <- _]. destruct (Hs i b Hb) as [Hl Hrc].
    pose proof (nrefs_length (Slot i) w) as Hn.
    eapply (counted_store st w _ (Slot i) b); try done.
    + intros j Hj. rewrite nrefs_cons. simpl. rewrite decide_False; [done|].
      congruence.
    + intros ? [= <-]. simpl. split; [done|].
      rewrite nrefs_cons. simpl. rewrite decide_True by done.
      rewrite wrap_uint_id by lia. lia.
  - destruct (first_match st unused (rev l)) as [j|] eqn:Hfree; [|done].
    apply first_match_elem in Hfree as [_ Hu]. unfold test_at in Hu.
    unfold pick_free. destruct (slots st !! j) as [b|] eqn:Hb; [|done].
    intros [= <- <- _]. destruct (Hs j b Hb) as [Hl Hrc].
    apply andb_true_iff in Hu as [H0 _]. apply Z.eqb_eq in H0.
    assert (locked (lock b) = 0%Z /\ nrefs (Slot j) w = 0) as [Hl0 Hn0]
      by lia.
    eapply (counted_store st w _ (Slot j) b); try done.
    + intros k Hk. rewrite nrefs_cons. simpl. rewrite decide_False; [done|].
      congruence.
    + intros ? [= <-]. simpl. split; [by left|].
      rewrite nrefs_cons. simpl. rewrite decide_True by done. lia.
Qed.

(** Lines 86 and 101: the reference counted with the caller is counted
    with the lock. *)
Lemma counted_acquiresleep st w1 w2 me q st' tr :
  counted nproc st (w1 ++ (me, Locking q) :: w2) ->
  acquiresleep me q st = Ret tt st' tr ->
  counted nproc st' (w1 ++ w2).
Proof.
  intros Hc Hrun. pose proof Hc as (_ & _ & Hlen & Hnh & Hs).
  destruct (deref st q) as [b|] eqn:Hb.
  2:{ unfold acquiresleep in Hrun.
      by rewrite (bind_load_fault _ _ _ Hb) in Hrun. }
  rewrite (acquiresleep_eq _ _ _ _ Hb) in Hrun.
  destruct (locked (lock b) =? 0)%Z eqn:Hlk; [|done].
  apply Z.eqb_eq in Hlk. injection Hrun as <- _.
  rewrite nrefs_middle in Hnh. simpl in Hnh.
  destruct q as [| |i]; [done| |].
  { rewrite decide_True in Hnh by done. lia. }
  rewrite decide_False in Hnh by done.
  rewrite length_app in Hlen. simpl in Hlen.
  eapply (counted_store st _ _ (Slot i) b); try done.
  - rewrite length_app. lia.
  - intros j Hj. rewrite nrefs_middle. simpl. rewrite decide_False; [done|].
    congruence.
  - intros ? [= <-]. simpl. split; [by right|].
    destruct (Hs i b Hb) as [_ Hrc]. rewrite Hrc, Hlk, nrefs_middle. simpl.
    rewrite decide_True by done. lia.
Qed.

(** Lines 136-139: the reference counted with the lock is counted with
    the caller, who has it to give back. *)
Lemma counted_brelse_unlock st w me p st' tr :
  counted nproc st w ->
  length w < nproc ->
  brelse_unlock me p st = Ret tt st' tr ->
  counted nproc st' ((me, Dropping p) :: w).
Proof.
  intros Hc Hlt Hrun. pose proof Hc as (_ & Hhd & Hlen & Hnh & Hs).
  destruct (deref st p) as [b|] eqn:Hb.
  2:{ unfold brelse_unlock in Hrun.
      by rewrite (bind_load_fault _ _ _ Hb) in Hrun. }
  rewrite (brelse_unlock_spec _ _ _ _ Hb) in Hrun.
  destruct (holdingsleep me (lock b)) eqn:Hh; [|done].
  injection Hrun as <- _.
  apply holdingsleep_locked in Hh as [Hlk _].
  destruct p as [| |i]; [done| |].
  { injection Hb as <-. done. }
  simpl in Hb. destruct (Hs i b Hb) as [Hl Hrc].
  eapply (counted_store st w _ (Slot i) b); try done.
  - intros j Hj. rewrite nrefs_cons. simpl. rewrite decide_False; [done|].
    congruence.
  - intros ? [= <-]. simpl. split; [by left|].
    rewrite nrefs_cons. simpl. rewrite decide_True by done. lia.
Qed.

(** Lines 141-153: the reference is given back, and was there to give. *)
Lemma counted_brelse_drop st w1 w2 me p st' tr :
  counted nproc st (w1 ++ (me, Dropping p) :: w2) ->
  brelse_drop p st = Ret tt st' tr ->
  counted nproc st' (w1 ++ w2) /\
  exists i b b',
    p = Slot i /\ slots st !! i = Some b /\ slots st' !! i = Some b' /\
    (1 <= refcnt b)%Z /\ refcnt b' = (refcnt b - 1)%Z /\
    flags b' = flags b.
Proof.
  intros Hc Hrun. pose proof Hc as ([l Hr] & Hhd & Hlen & Hnh & Hs).
  destruct (deref st p) as [b|] eqn:Hb.
  2:{ unfold brelse_drop in Hrun.
      by rewrite (bind_load_fault _ _ _ Hb) in Hrun. }
  rewrite nrefs_middle in Hnh. simpl in Hnh.
  destruct p as [| |i]; [done| |].
  { rewrite decide_True in Hnh by done. lia. }
  rewrite decide_False in Hnh by done.
  simpl in Hb.
  assert (i ∈ l) as Hil by (by eapply ring_slot_elem).
  apply list_elem_of_split in Hil as (l1 & l2 & ->).
  pose proof Hr as (Hl & Hlen' & Hall).
  destruct (brelse_drop_spec i st l1 l2 b Hl Hb) as (st2 & E & Hd & Hl2).
  rewrite E in Hrun. injection Hrun as <- _.
  set (b2 := set_refcnt _ _) in *.
  destruct (Hs i b Hb) as [Hl01 Hrc].
  rewrite nrefs_middle in Hrc. simpl in Hrc.
  rewrite decide_True in Hrc by done.
  pose proof (nrefs_length (Slot i) (w1 ++ w2)) as Hn.
  rewrite length_app in Hlen, Hn. simpl in Hlen.
  assert (wrap_uint (refcnt b - 1) = (refcnt b - 1)%Z) as Hw
    by (apply wrap_uint_id; lia).
  assert (counted nproc (store (Slot i) b2 st) (w1 ++ w2)) as Hc2.
  { eapply (counted_store st _ _ (Slot i) b); try done.
    - rewrite length_app. lia.
    - intros j Hj. rewrite nrefs_middle. simpl.
      rewrite decide_False; [done|]. congruence.
    - intros ? [= <-]. simpl. split; [done|]. rewrite Hw. lia. }
  split.
  - eapply counted_same_data; [done|done|].
    split; [done|]. split.
    + destruct Hd as (_ & _ & ->). by rewrite length_slots_store.
    + intros j Hj. specialize (Hall j Hj).
      destruct (refcnt b2 =? 0)%Z; [|done].
      apply elem_of_app in Hall as [H|[->|H]%elem_of_cons].
      * right. apply elem_of_app. by left.
      * by left.
      * right. apply elem_of_app. by right.
  - destruct Hd as (Hd & _). specialize (Hd (Slot i)).
    rewrite deref_store_eq in Hd by (by eexists). simpl in Hd.
    destruct (slots st2 !! i) as [b'|] eqn:Hb'; [|done].
    simpl in Hd. assert (core b' = core b2) as Hcore by congruence.
    apply core_eq in Hcore as (Hfl' & _ & _ & _ & Hrc'). simpl in Hrc', Hfl'.
    exists i, b, b'. split; [done|]. split; [done|]. split; [done|].
    split; [lia|]. split; [|done]. by rewrite Hrc', Hw.
Qed.

(** No part leads out of the counted states. *)
Lemma counted_closed me : closed nproc me (counted nproc).
Proof.
  split; [|split; [|split; [|split; [|split]]]].
  - intros st w v Hc _. by apply counted_set_isfull.
  - intros st w b v st' tr Hc _ Hrun.
    destruct (deref st b) as [x|] eqn:Hb.
    + rewrite (update_eq _ _ _ _ Hb) in Hrun. injection Hrun as <- _.
      by apply counted_store_flags.
    + unfold update in Hrun. by rewrite (bind_load_fault _ _ _ Hb) in Hrun.
  - intros st w dv bn b st' tr Hc _ Hlt Hrun. by eapply counted_bget_pick.
  - intros st w1 w2 b st' tr Hc Hrun. by eapply counted_acquiresleep.
  - intros st w b st' tr Hc _ Hlt Hrun. by eapply counted_brelse_unlock.
  - intros st w1 w2 b st' tr Hc Hrun.
    by apply (counted_brelse_drop _ _ _ _ _ _ _ Hc Hrun).
Qed.

End Counted.

(** *** Whole calls, made of the parts *)

Section Keeps.
Context {pf : Platform}.
Variable nproc : nat.
Variable me : Z.
Variable P : bcache -> list (Z * stage) -> Prop.
Hypothesis HP : closed nproc me P.

Lemma keeps_bind {A B} (m : M A) (f : A -> M B) :
  keeps nproc me P m -> (forall a, keeps nproc me P (f a)) ->
  keeps nproc me P (bind m f).
Proof.
  intros Hm Hf st w HPst Hme Hlt.
  destruct (Hm st w HPst Hme Hlt) as [Hr Hs]. split.
  - intros b st' tr (a & st1 & t1 & t2 & E1 & E2 & _)%bind_Ret_inv.
    destruct (Hf a st1 w (Hr _ _ _ E1) Hme Hlt) as [Hr2 _]. by eapply Hr2.
  - intros q st' tr Hrun. unfold bind in Hrun.
    destruct (m st) as [a st1 t1|h st1 t1] eqn:E1.
    + destruct (f a st1) as [b st2 t2|h st2 t2] eqn:E2; [done|].
      simpl in Hrun. injection Hrun as -> -> _.
      destruct (Hf a st1 w (Hr _ _ _ eq_refl) Hme Hlt) as [_ Hs2].
      by eapply Hs2.
    + injection Hrun as -> -> ->. by eapply Hs.
Qed.

(** Code that changes nothing and in which no process sleeps. *)
Lemma keeps_pure {A} (m : M A) :
  (forall st a st' tr, m st = Ret a st' tr -> st' = st) ->
  awake m -> keeps nproc me P m.
Proof.
  intros Hm Ha st w HPst Hme Hlt. split.
  - intros a st' tr E. by rewrite (Hm _ _ _ _ E).
  - intros q st' tr E. by apply Ha in E.
Qed.

Lemma keeps_ret {A} (a : A) : keeps nproc me P (ret a).
Proof.
  apply keeps_pure; [|done]. intros st a' st' tr E. unfold ret in E.
  by simplify_eq.
Qed.

Lemma keeps_get : keeps nproc me P get.
Proof.
  apply keeps_pure; [|done]. intros st a' st' tr E. unfold get in E.
  by simplify_eq.
Qed.

Lemma keeps_emit e : keeps nproc me P (emit e).
Proof.
  apply keeps_pure; [|done]. intros st a' st' tr E. unfold emit in E.
  by simplify_eq.
Qed.

Lemma keeps_load p : keeps nproc me P (load p).
Proof.
  apply keeps_pure; [|apply awake_load].
  intros st a st' tr. unfold load. destruct (deref st p); [|done].
  intros E. by simplify_eq.
Qed.

Lemma keeps_stop {A} h :
  (forall q, h <> Blocked q) -> keeps nproc me P (@stop A h).
Proof.
  intros Hh. apply keeps_pure; [done|].
  intros st q st' tr [= -> _ _]. by apply (Hh q).
Qed.

(** Lines 69 and 75. *)
Lemma keeps_guard v : keeps nproc me P (modify (set_isfull v)).
Proof.
  intros st w HPst Hme Hlt. destruct HP as (Hg & _). split; [|done].
  intros [] st' tr [= <- _]. by apply Hg.
Qed.

(** Line 127, and the word the driver or the log leaves. *)
Lemma keeps_flags b v : keeps nproc me P (update b (set_flags v)).
Proof.
  intros st w HPst Hme Hlt. destruct HP as (_ & Hf & _). split.
  - intros [] st' tr E. by eapply Hf.
  - intros q st' tr E. by apply awake_update in E.
Qed.

Lemma keeps_call_iderw b : keeps nproc me P (call_iderw b).
Proof.
  unfold call_iderw. apply keeps_bind; [apply keeps_load|]. intros bb.
  apply keeps_bind; [apply keeps_emit|]. intros _. apply keeps_flags.
Qed.

Lemma keeps_call_log_write b : keeps nproc me P (call_log_write b).
Proof.
  unfold call_log_write. apply keeps_bind; [apply keeps_load|]. intros bb.
  apply keeps_bind; [apply keeps_emit|]. intros _. apply keeps_flags.
Qed.

(** Lines 79-105: the scan, then [acquiresleep]. *)
Lemma keeps_bget_scan dv bn : keeps nproc me P (bget_scan me dv bn).
Proof.
  intros st w HPst Hme Hlt.
  destruct HP as (_ & _ & Hpick & Hlock & _). split.
  - intros a st' tr. rewrite bget_scan_parts.
    intros (q & st1 & t1 & t2 & E1 & E2 & _)%bind_Ret_inv.
    apply bind_Ret_inv in E2 as ([] & st2 & t3 & t4 & E2 & E3 & _).
    injection E3 as _ <- _.
    apply (Hlock st1 [] w q st2 t3); [|done]. by eapply Hpick.
  - intros q st' tr. rewrite bget_scan_parts. unfold bind at 1.
    destruct (bget_pick dv bn st) as [p st1 t1|h st1 t1] eqn:E1.
    2:{ intros [= -> -> ->]. by apply awake_bget_pick in E1. }
    assert (P st1 ((me, Locking p) :: w)) as HP1 by (by eapply Hpick).
    destruct (deref st1 p) as [b|] eqn:Hb.
    + unfold bind. rewrite (acquiresleep_eq _ _ _ _ Hb).
      destruct (_ =? _)%Z; [done|]. simpl. by intros [= <- <- _].
    + unfold acquiresleep. rewrite bind_assoc.
      by rewrite (bind_load_fault _ _ _ Hb).
Qed.

(** Lines 133-154: the lock released, then the reference given back. *)
Lemma keeps_brelse b : keeps nproc me P (brelse me b).
Proof.
  intros st w HPst Hme Hlt.
  destruct HP as (_ & _ & _ & _ & Hun & Hdrop). split.
  - intros [] st' tr. rewrite brelse_parts.
    intros ([] & st1 & t1 & t2 & E1 & E2 & _)%bind_Ret_inv.
    apply (Hdrop st1 [] w b st' t2); [|done]. by eapply Hun.
  - intros q st' tr E. rewrite brelse_parts in E. exfalso. revert E.
    apply awake_bind; [apply awake_brelse_unlock|]. intros _.
    apply awake_brelse_drop.
Qed.

Lemma keeps_bwrite b : keeps nproc me P (bwrite me b).
Proof.
  unfold bwrite. apply keeps_bind; [apply keeps_load|]. intros bb.
  destruct (negb _); [by apply keeps_stop|].
  apply keeps_bind; [apply keeps_flags|]. intros _. apply keeps_call_iderw.
Qed.

Lemma keeps_buffer_isfull_loop fuel : forall b cnt,
  keeps nproc me P (buffer_isfull_loop fuel b cnt).
Proof.
  induction fuel as [|fuel IH]; intros b cnt; simpl; [by apply keeps_stop|].
  case_decide; [apply keeps_ret|].
  apply keeps_bind; [apply keeps_load|]. intros bb. apply IH.
Qed.

Lemma keeps_buffer_isfull : keeps nproc me P buffer_isfull.
Proof.
  unfold buffer_isfull. apply keeps_bind; [apply keeps_load|]. intros h.
  apply keeps_bind; [apply keeps_buffer_isfull_loop|]. intros cnt.
  destruct (_ >=? _)%Z; apply keeps_ret.
Qed.

Lemma keeps_logDirtyBuffer_loop fuel : forall b cnt,
  keeps nproc me P (logDirtyBuffer_loop fuel b cnt).
Proof.
  induction fuel as [|fuel IH]; intros b cnt; simpl; [by apply keeps_stop|].
  case_decide; [apply keeps_ret|].
  apply keeps_bind; [apply keeps_load|]. intros bb.
  apply keeps_bind.
  { destruct (dirty bb); [|apply keeps_ret].
    apply keeps_bind; [apply keeps_call_log_write|]. intros _.
    apply keeps_ret. }
  intros cnt'. apply keeps_bind; [apply keeps_load|]. intros bb'. apply IH.
Qed.

Lemma keeps_logDirtyBuffer : keeps nproc me P logDirtyBuffer.
Proof.
  unfold logDirtyBuffer. apply keeps_bind; [apply keeps_load|]. intros h.
  apply keeps_logDirtyBuffer_loop.
Qed.

Lemma keeps_bget_flush syn :
  keeps nproc me P syn -> keeps nproc me P (bget_flush syn).
Proof.
  intros Hsyn. unfold bget_flush. apply keeps_bind; [apply keeps_get|].
  intros st. apply keeps_bind.
  { destruct (_ =? _)%Z; [apply keeps_buffer_isfull|apply keeps_ret]. }
  intros full. destruct (_ && _); [|apply keeps_ret].
  apply keeps_bind; [apply keeps_guard|]. intros _.
  apply keeps_bind; [apply keeps_emit|]. intros _.
  apply keeps_bind; [done|]. intros _. apply keeps_guard.
Qed.

Lemma keeps_bread syn dv bn :
  keeps nproc me P syn -> keeps nproc me P (bread syn me dv bn).
Proof.
  intros Hsyn. unfold bread, bget.
  apply keeps_bind.
  { apply keeps_bind; [by apply keeps_bget_flush|]. intros _.
    apply keeps_bget_scan. }
  intros b. apply keeps_bind; [apply keeps_load|]. intros bb.
  apply keeps_bind; [|intros _; apply keeps_ret].
  destruct (valid bb); [apply keeps_ret|apply keeps_call_iderw].
Qed.

Lemma keeps_run syn p :
  keeps nproc me P syn -> keeps nproc me P (run syn me p).
Proof.
  intros Hsyn. induction p as [|dv bn k IH|b k IH|b k IH|k IH|k IH|b k IH];
    simpl.
  - apply keeps_ret.
  - apply keeps_bind; [by apply keeps_bread|done].
  - apply keeps_bind; [apply keeps_bwrite|done].
  - apply keeps_bind; [apply keeps_brelse|done].
  - apply keeps_bind; [apply keeps_logDirtyBuffer|done].
  - apply keeps_bind; [apply keeps_buffer_isfull|done].
  - apply keeps_bind; [apply keeps_call_log_write|done].
Qed.

Lemma keeps_sync body depth : keeps nproc me P (sync body depth me).
Proof.
  induction depth as [|d IH]; simpl; [by apply keeps_stop|].
  by apply keeps_run.
Qed.

Lemma keeps_resume body outer : forall depth b k,
  keeps nproc me P (resume body me depth b k outer).
Proof.
  induction outer as [|[[dv bn] k'] outer IH]; intros depth b k; simpl.
  - apply keeps_bind; [apply keeps_load|]. intros bb.
    apply keeps_bind.
    { destruct (valid bb); [apply keeps_ret|apply keeps_call_iderw]. }
    intros _. apply keeps_bind; [|intros _; apply keeps_ret].
    apply keeps_run, keeps_sync.
  - apply keeps_bind; [apply keeps_load|]. intros bb.
    apply keeps_bind.
    { destruct (valid bb); [apply keeps_ret|apply keeps_call_iderw]. }
    intros _. apply keeps_bind; [apply keeps_run, keeps_sync|]. intros _.
    apply keeps_bind; [apply keeps_guard|]. intros _.
    apply keeps_bind; [apply keeps_bget_scan|]. intros b'.
    apply IH.
Qed.

End Keeps.

Section Processes.
Context {pf : Platform}.
Variable nproc : nat.

Lemma reached_closed me : closed nproc me (reached nproc).
Proof.
  split; [|split; [|split; [|split; [|split]]]].
  - intros st w v H Hme. by eapply reached_guard.
  - intros st w b v st' tr H Hme E. by eapply reached_flags.
  - intros st w dv bn b st' tr H Hme Hlt E. by eapply reached_pick.
  - intros st w1 w2 b st' tr H E. by eapply reached_lock.
  - intros st w b st' tr H Hme Hlt E. by eapply reached_unlock.
  - intros st w1 w2 b st' tr H E. by eapply reached_drop.
Qed.

(** The states of [reachable] are among those the processes reach with
    none of them at a stage. *)
Lemma reachable_reached st : 0 < nproc -> reachable st -> reached nproc st [].
Proof.
  intros Hn. induction 1 as [|st st' body depth me p tr _ IH Hrun].
  - apply reached_boot.
  - destruct (keeps_run nproc me _ (reached_closed me) (sync body depth me) p
                (keeps_sync nproc me _ (reached_closed me) body depth)
                st [] IH) as [Hr _].
    + simpl. apply not_elem_of_nil.
    + done.
    + by eapply Hr.
Qed.

Lemma inv_counted st : inv st -> counted nproc st [].
Proof.
  intros (Hr & Hh & _ & Hhd). split; [done|]. split; [done|].
  split; [simpl; lia|]. split; [done|].
  intros i b Hb. rewrite nrefs_nil.
  destruct (Hh i b Hb) as [[-> ->]|[-> ->]]; split; auto.
Qed.

Hypothesis nproc_uint : (Z.of_nat nproc < 2 ^ 32 - 1)%Z.

Lemma reached_counted st w : reached nproc st w -> counted nproc st w.
Proof.
  induction 1 as [|st w me v _ IH Hme
                  |st w me b v st' tr _ IH Hme E
                  |st w me dv bn b st' tr _ IH Hme Hlt E
                  |st w1 w2 me b st' tr _ IH E
                  |st w me b st' tr _ IH Hme Hlt E
                  |st w1 w2 me b st' tr _ IH E];
    [apply inv_counted, inv_boot|..];
    destruct (counted_closed nproc nproc_uint me)
      as (Hg & Hf & Hp & Hl & Hu & Hd).
  - by apply Hg.
  - by eapply Hf.
  - by eapply Hp.
  - by eapply Hl.
  - by eapply Hu.
  - by eapply Hd.
Qed.

End Processes.

Section Stages.
Context {pf : Platform}.
Variable nproc : nat.

(** No process is at two stages. *)
Lemma reached_NoDup st w : reached nproc st w -> NoDup w.*1.
Proof.
  induction 1 as [|st w me v _ IH Hme
                  |st w me b v st' tr _ IH Hme E
                  |st w me dv bn b st' tr _ IH Hme Hlt E
                  |st w1 w2 me b st' tr _ IH E
                  |st w me b st' tr _ IH Hme Hlt E
                  |st w1 w2 me b st' tr _ IH E]; try done.
  - constructor.
  - simpl. by constructor.
  - rewrite fmap_app in IH |- *. simpl in IH.
    apply NoDup_app in IH as (H1 & H2 & H3).
    apply NoDup_cons in H3 as [_ H3]. apply NoDup_app. split; [done|].
    split; [|done]. intros x Hx Hx'. apply (H2 x Hx). by right.
  - simpl. by constructor.
  - rewrite fmap_app in IH |- *. simpl in IH.
    apply NoDup_app in IH as (H1 & H2 & H3).
    apply NoDup_cons in H3 as [_ H3]. apply NoDup_app. split; [done|].
    split; [|done]. intros x Hx Hx'. apply (H2 x Hx). by right.
Qed.

Lemma NoDup_middle_out (w1 w2 : list (Z * stage)) me x :
  NoDup (w1 ++ (me, x) :: w2).*1 -> me ∉ (w1 ++ w2).*1.
Proof.
  rewrite !fmap_app. simpl. intros (H1 & H2 & H3)%NoDup_app.
  apply NoDup_cons in H3 as [H3 _].
  intros [H|H]%elem_of_app; [|done]. apply (H2 me H). by left.
Qed.

End Stages.

(** ** The claims about processes at a stage *)

Section Sleepers.
Context {pf : Platform}.

(** The slot that the second loop of [bget] finds is free to take on a
    cache with the count. *)
Lemma counted_take_free nproc st w me dv bn j :
  counted nproc st w -> test_at st unused j = true ->
  exists st', take_free me dv bn j st = Ret (Slot j) st' [].
Proof.
  intros (_ & _ & _ & _ & Hs) Hu. unfold test_at in Hu. unfold take_free.
  destruct (slots st !! j) as [b|] eqn:Hb; [|done].
  apply andb_true_iff in Hu as [Hrc _]. apply Z.eqb_eq in Hrc.
  destruct (Hs j b Hb) as [Hl Hcnt].
  assert (locked (lock b) = 0%Z) as -> by lia. eauto.
Qed.

(** Lines 79-105 panic exactly on a pool with nothing cached under the
    identity asked for and nothing to recycle; with something to recycle
    and nothing cached they return. *)
Lemma bget_scan_exhausted nproc st w me dv bn :
  counted nproc st w ->
  let full :=
    forall i b, slots st !! i = Some b ->
      ident dv bn b = false /\ ((0 < refcnt b)%Z \/ dirty b = true) in
  ((exists st' tr,
      bget_scan me dv bn st = Stop (Panic "bget: no buffers") st' tr)
   <-> full) /\
  (full -> bget_scan me dv bn st = Stop (Panic "bget: no buffers") st []) /\
  ((forall i b, slots st !! i = Some b -> ident dv bn b = false) ->
   ~ full ->
   exists j st', bget_scan me dv bn st = Ret (Slot j) st' []).
Proof.
  intros Hc full. pose proof Hc as ([l Hr] & _ & _ & _ & Hs).
  assert (full <->
          first_match st (ident dv bn) l = None /\
          first_match st unused (rev l) = None) as Hfull.
  { rewrite first_match_rev_None, !first_match_None. unfold full. split.
    - intros H. split; intros j Hj; unfold test_at;
        destruct (slots st !! j) as [b|] eqn:Hb; try done;
        destruct (H j b Hb) as [H1 H2]; [done|].
      unfold unused. destruct H2 as [H2|H2].
      + apply andb_false_iff. left. apply Z.eqb_neq. lia.
      + apply andb_false_iff. right. by rewrite H2.
    - intros [H1 H2] i b Hb.
      assert (i ∈ l) as Hil by (by eapply ring_slot_elem).
      specialize (H1 i Hil). specialize (H2 i Hil). unfold test_at in H1, H2.
      rewrite Hb in H1, H2. split; [done|].
      apply andb_false_iff in H2 as [H2|H2].
      + left. apply Z.eqb_neq in H2. destruct (Hs i b Hb) as [? ?]. lia.
      + right. by apply negb_false_iff in H2. }
  rewrite (bget_scan_spec _ _ _ _ _ Hr). split; [|split].
  - rewrite Hfull. split.
    + intros (st' & tr & Hst).
      destruct (first_match st (ident dv bn) l) as [i|] eqn:H1.
      { unfold take_hit in Hst. destruct (slots st !! i) as [b|]; [|done].
        by destruct (_ =? _)%Z. }
      split; [done|].
      destruct (first_match st unused (rev l)) as [j|] eqn:H2; [|done].
      apply first_match_elem in H2 as [_ H2].
      destruct (counted_take_free nproc st w me dv bn j Hc H2) as (st'' & E).
      by rewrite E in Hst.
    + intros [-> ->]. eauto.
  - intros [H1 H2]%Hfull. by rewrite H1, H2.
  - intros Hmiss Hnf.
    assert (first_match st (ident dv bn) l = None) as ->.
    { apply first_match_None. intros j Hj. unfold test_at.
      destruct (slots st !! j) as [bj|] eqn:Hbj; [|done]. by eapply Hmiss. }
    destruct (first_match st unused (rev l)) as [j|] eqn:H2.
    + apply first_match_elem in H2 as [_ H2].
      destruct (counted_take_free nproc st w me dv bn j Hc H2) as (st'' & E).
      eauto.
    + exfalso. apply Hnf, Hfull. split; [|done].
      apply first_match_None. intros j Hj. unfold test_at.
      destruct (slots st !! j) as [bj|] eqn:Hbj; [|done]. by eapply Hmiss.
Qed.

(** C3 as the code has it.  On a cache whose reference counts count the
    holders and the processes at a stage, as in every state the processes
    reach, [bget] panics with ["bget: no buffers"] exactly when, on the
    pool as its pressure check of lines 66-77 leaves it, no buffer has the
    identity asked for and every buffer has a reference or is dirty; the
    panic leaves that pool as it is; and when that pool has no buffer with
    the identity and not every buffer has a reference or is dirty, [bget]
    returns a buffer.  When the check does not fire this is the pool
    [bget] was called on.  After a [brelse] has brought the count of a
    buffer that is not dirty to 0, the scan for a block that is not cached
    returns a buffer, and so does [bget] when its check does not fire. *)
Theorem bget_exhausted nproc st w me dv bn :
  (Z.of_nat nproc < 2 ^ 32 - 1)%Z ->
  counted nproc st w ->
  me ∉ w.*1 ->
  length w < nproc ->
  let full := fun s =>
    forall i b, slots s !! i = Some b ->
      ident dv bn b = false /\ ((0 < refcnt b)%Z \/ dirty b = true) in
  ((exists st' tr,
      bget_scan me dv bn st = Stop (Panic "bget: no buffers") st' tr)
   <-> full st) /\
  (full st ->
   bget_scan me dv bn st = Stop (Panic "bget: no buffers") st []) /\
  (forall syn,
     isfull st <> 0%Z \/ (Z.of_nat (ndirty st) < Z.of_nat NBUF - 3)%Z ->
     bget syn me dv bn st = bget_scan me dv bn st /\
     ((exists st' tr,
         bget syn me dv bn st = Stop (Panic "bget: no buffers") st' tr)
      <-> full st)) /\
  (forall body depth st1 t1,
     bget_flush (sync body depth me) st = Ret tt st1 t1 ->
     ((exists st' tr,
         bget (sync body depth me) me dv bn st
         = Stop (Panic "bget: no buffers") st' tr)
      <-> full st1) /\
     (full st1 ->
      bget (sync body depth me) me dv bn st
      = Stop (Panic "bget: no buffers") st1 t1) /\
     ((forall i b, slots st1 !! i = Some b -> ident dv bn b = false) ->
      ~ full st1 ->
      exists j st',
        bget (sync body depth me) me dv bn st = Ret (Slot j) st' t1)) /\
  (forall who i b st' tr,
     slots st !! i = Some b ->
     dirty b = false ->
     refcnt b = 1%Z ->
     brelse who (Slot i) st = Ret tt st' tr ->
     (forall j bj, slots st' !! j = Some bj -> ident dv bn bj = false) ->
     exists j st'',
       bget_scan me dv bn st' = Ret (Slot j) st'' [] /\
       forall syn,
         isfull st' <> 0%Z \/
         (Z.of_nat (ndirty st') < Z.of_nat NBUF - 3)%Z ->
         bget syn me dv bn st' = Ret (Slot j) st'' []).
Proof.
  intros Hn Hc Hme Hlt full. pose proof Hc as ([l Hr] & _ & _ & _ & Hs).
  destruct (bget_scan_exhausted nproc st w me dv bn Hc)
    as (Hiff & Hstop & _).
  split; [exact Hiff|]. split; [exact Hstop|]. split; [|split].
  - intros syn Hno. rewrite (bget_no_flush _ _ _ _ _ _ Hr Hno). done.
  - intros body depth st1 t1 Hf.
    assert (counted nproc st1 w) as Hc1.
    { destruct (keeps_bget_flush nproc me _ (counted_closed nproc Hn me)
                  (sync body depth me)
                  (keeps_sync nproc me _ (counted_closed nproc Hn me)
                     body depth) st w Hc Hme Hlt) as [H _].
      by eapply H. }
    destruct (bget_scan_exhausted nproc st1 w me dv bn Hc1)
      as (Hiff1 & Hstop1 & Hret1).
    assert (bget (sync body depth me) me dv bn st
            = prepend t1 (bget_scan me dv bn st1)) as ->.
    { unfold bget. by rewrite (bind_Ret_tr _ _ _ _ _ _ Hf). }
    split; [|split].
    + split.
      * intros (st' & tr & Hst). refine (proj1 Hiff1 _).
        destruct (bget_scan me dv bn st1) as [|h st2 t2]; simpl in Hst;
          [done|].
        injection Hst as -> _ _. eauto.
      * intros Hfull. rewrite (Hstop1 Hfull). simpl. eauto.
    + intros Hfull. rewrite (Hstop1 Hfull). simpl. by rewrite app_nil_r.
    + intros Hmiss Hnf. destruct (Hret1 Hmiss Hnf) as (j & st' & ->).
      exists j, st'. simpl. by rewrite app_nil_r.
  - intros who i b st' tr Hb Hclean Hone Hrel Hmiss.
    rewrite brelse_parts in Hrel.
    apply bind_Ret_inv in Hrel as ([] & st1 & t1 & t2 & E1 & E2 & _).
    pose proof (counted_brelse_unlock nproc st w who _ _ _ Hc Hlt E1) as Hc1.
    destruct (counted_brelse_drop nproc Hn st1 [] w who _ _ _ Hc1 E2)
      as (Hc' & i' & b1 & b' & [= <-] & Hb1 & Hb' & _ & Hrc' & Hfl').
    simpl in Hc'. pose proof Hc' as ([l' Hr'] & _).
    destruct (bget_scan_exhausted nproc st' w me dv bn Hc')
      as (_ & _ & Hret').
    destruct Hret' as (j & st'' & Hscan); [done| |].
    { intros Hfull.
      rewrite (brelse_unlock_spec who (Slot i) st b Hb) in E1.
      destruct (holdingsleep who (lock b)); [|done].
      injection E1 as <- _.
      change (slots (store (Slot i) ?x st) !! i)
        with (deref (store (Slot i) x st) (Slot i)) in Hb1.
      rewrite deref_store_eq in Hb1 by (by eexists). injection Hb1 as <-.
      simpl in Hrc'. rewrite Hone in Hrc'.
      simpl in Hfl'.
      destruct (Hfull i b' Hb') as [_ [H|H]]; [lia|].
      unfold dirty in H, Hclean. rewrite Hfl' in H. congruence. }
    exists j, st''. split; [done|]. intros syn Hno.
    by rewrite (bget_no_flush _ _ _ _ _ _ Hr' Hno).
Qed.

(** C7.  In every state that [nproc] processes, fewer than the unsigned
    counter can count, bring the cache to by running the file in turn,
    whatever the stage each of them is at inside [bget] or [brelse], the
    reference count of every buffer is the number of processes that hold
    its lock (0 or 1), that go for it in [bget], asleep in [acquiresleep]
    or about to call it, or that have released it in [brelse] and have the
    reference still to give back.  So it is never negative, nor more than
    the counter can hold; it is at least 1 whenever a process holds the
    lock, and a [brelse] by the holder returns with a count one lower and
    not below 0, without wrapping the unsigned counter; and it is at least
    1 at every decrement the file makes (line 142), whenever that runs.
    These states contain what every client leaves from any of them,
    whether it returns or stays asleep in a [bread], and what a process
    leaves that has taken its lock in [acquiresleep] and runs what it has
    left. *)
Theorem refcnt_never_negative nproc st w :
  (Z.of_nat nproc < 2 ^ 32 - 1)%Z ->
  reached nproc st w ->
  (forall i b, slots st !! i = Some b ->
     (0 <= refcnt b <= Z.of_nat nproc + 1)%Z /\
     (locked (lock b) = 0 \/ locked (lock b) = 1)%Z /\
     refcnt b = (locked (lock b) + Z.of_nat (nrefs (Slot i) w))%Z /\
     forall me, holdingsleep me (lock b) = true ->
       (1 <= refcnt b)%Z /\
       wrap_uint (refcnt b - 1) = (refcnt b - 1)%Z /\
       exists st' b',
         brelse me (Slot i) st = Ret tt st' [] /\
         slots st' !! i = Some b' /\
         refcnt b' = (refcnt b - 1)%Z /\
         (0 <= refcnt b')%Z) /\
  (forall w1 w2 me p st' tr,
     w = w1 ++ (me, Dropping p) :: w2 ->
     brelse_drop p st = Ret tt st' tr ->
     reached nproc st' (w1 ++ w2) /\
     exists i b b',
       p = Slot i /\ slots st !! i = Some b /\ slots st' !! i = Some b' /\
       (1 <= refcnt b)%Z /\ refcnt b' = (refcnt b - 1)%Z) /\
  (forall body depth me p st' tr,
     me ∉ w.*1 ->
     length w < nproc ->
     (run (sync body depth me) me p st = Ret tt st' tr ->
      reached nproc st' w) /\
     (forall q,
        run (sync body depth me) me p st = Stop (Blocked q) st' tr ->
        reached nproc st' ((me, Locking q) :: w))) /\
  (forall w1 w2 me b st1 t1 body depth k outer st' tr,
     w = w1 ++ (me, Locking b) :: w2 ->
     acquiresleep me b st = Ret tt st1 t1 ->
     (resume body me depth b k outer st1 = Ret tt st' tr ->
      reached nproc st' (w1 ++ w2)) /\
     (forall q,
        resume body me depth b k outer st1 = Stop (Blocked q) st' tr ->
        reached nproc st' ((me, Locking q) :: w1 ++ w2))).
Proof.
  intros Hn Hreach.
  pose proof (reached_counted nproc Hn st w Hreach) as Hc.
  split; [|split; [|split]].
  - destruct Hc as ([l Hr] & _ & Hlen & _ & Hs).
    intros i b Hb. destruct (Hs i b Hb) as [Hl Hrc].
    pose proof (nrefs_length (Slot i) w) as Hle.
    split; [lia|]. split; [done|]. split; [done|].
    intros me Hh. pose proof Hh as [Hlk _]%holdingsleep_locked.
    assert (wrap_uint (refcnt b - 1) = (refcnt b - 1)%Z) as Hw
      by (apply wrap_uint_id; lia).
    split; [lia|]. split; [done|].
    assert (i ∈ l) as Hil by (by eapply ring_slot_elem).
    apply list_elem_of_split in Hil as (l1 & l2 & ->).
    destruct Hr as (Hl' & _).
    destruct (brelse_spec me i st l1 l2 b Hl' Hb Hh) as (st2 & E & Hd & _).
    destruct Hd as (Hd & _). specialize (Hd (Slot i)).
    rewrite deref_store_eq in Hd by (by eexists). simpl in Hd.
    destruct (slots st2 !! i) as [b'|] eqn:Hb'; [|done].
    simpl in Hd.
    assert (core b' = core (set_refcnt (wrap_uint (refcnt b - 1))
                              (set_lock (mkLock 0 0) b))) as Hcore
      by congruence.
    apply core_eq in Hcore as (_ & _ & _ & _ & Hrc'). simpl in Hrc'.
    exists st2, b'. rewrite Hrc', Hw. split; [done|]. split; [done|].
    split; [done|]. lia.
  - intros w1 w2 me p st' tr -> Hdrop.
    split; [by eapply reached_drop|].
    destruct (counted_brelse_drop nproc Hn st w1 w2 me p st' tr Hc Hdrop)
      as (_ & i & b & b' & H1 & H2 & H3 & H4 & H5 & _).
    by exists i, b, b'.
  - intros body depth me p st' tr Hme Hlt.
    destruct (keeps_run nproc me _ (reached_closed nproc me)
                (sync body depth me) p
                (keeps_sync nproc me _ (reached_closed nproc me) body depth)
                st w Hreach Hme Hlt) as [Hr Hs].
    split; [apply Hr|]. intros q. by apply Hs.
  - intros w1 w2 me b st1 t1 body depth k outer st' tr -> Hlock.
    assert (reached nproc st1 (w1 ++ w2)) as Hreach1
      by (by eapply reached_lock).
    assert (me ∉ (w1 ++ w2).*1) as Hme.
    { eapply NoDup_middle_out, reached_NoDup. exact Hreach. }
    assert (length (w1 ++ w2) < nproc) as Hlt.
    { destruct Hc as (_ & _ & Hlen & _). rewrite length_app in Hlen |- *.
      simpl in Hlen. lia. }
    destruct (keeps_resume nproc me _ (reached_closed nproc me)
                body outer depth b k st1 (w1 ++ w2) Hreach1 Hme Hlt)
      as [Hr Hs].
    split; [apply Hr|]. intros q. by apply Hs.
Qed.

End Sleepers.

(** ** The claims on the small pool *)

Section Scenarios.
#[local] Existing Instance tiny.

Lemma reachable_after p :
  returned (run (sync Done 1 7) 7 p boot) = true -> reachable (after p).
Proof. intros H. apply reachable_final; [apply reach_boot|done]. Qed.

Lemma all_slots (P : buf -> bool) st :
  forallb P (slots st) = true ->
  forall i b, slots st !! i = Some b -> P b = true.
Proof.
  intros H i b Hb. rewrite forallb_forall in H. apply H.
  by eapply list_elem_of_In, list_elem_of_lookup_2.
Qed.

Lemma reachable_two_dirty : reachable two_dirty.
Proof. apply reachable_after. vm_compute. reflexivity. Qed.

Lemma reachable_one_held : reachable one_held.
Proof. apply reachable_after. vm_compute. reflexivity. Qed.

Lemma reachable_all_held : reachable all_held.
Proof. apply reachable_after. vm_compute. reflexivity. Qed.

Lemma reachable_lru_dirty : reachable lru_dirty.
Proof. apply reachable_after. vm_compute. reflexivity. Qed.

(** C1, the claim as stated fails twice.  With two of five buffers dirty
    and the guard clear, a [bget] of block [(1, 10)], which is cached in
    slot 0, calls [sync()] before it returns that slot.  And at boot a
    [bread] of block [(0, 0)] finds the identity in slot 4, which no read
    has filled yet, and reads the device. *)
Lemma bget_hit_counterexample :
  reachable two_dirty /\
  (exists b, slots two_dirty !! 0 = Some b /\ ident 1 10 b = true) /\
  (exists st', bget (sync Done 1 7) 7 1 10 two_dirty
               = Ret (Slot 0) st' [EvSync]) /\
  reachable boot /\
  (exists b, slots boot !! 4 = Some b /\ ident 0 0 b = true) /\
  (exists st', bread (sync Done 1 7) 7 0 0 boot
               = Ret (Slot 4) st'
                   [EvIderw (Slot 4)
                      (mkBuf 0 0 0 (mkLock 1 7) 1 Head (Slot 3))]).
Proof.
  split; [apply reachable_two_dirty|].
  split; [eexists; split; vm_compute; reflexivity|].
  split; [eexists; vm_compute; reflexivity|].
  split; [apply reach_boot|].
  split; [eexists; split; vm_compute; reflexivity|].
  eexists; vm_compute; reflexivity.
Qed.

Lemma bget_hit_witness :
  ring two_dirty [1; 0; 4; 3; 2] /\
  bget_flush (sync Done 1 7) two_dirty = Ret tt two_dirty [EvSync] /\
  first_match two_dirty (ident 1 10) [1; 0; 4; 3; 2] = Some 0 /\
  slots two_dirty !! 0
  = Some (mkBuf 6 1 10 (mkLock 0 0) 0 (Slot 1) (Slot 4)) /\
  bread (sync Done 1 7) 7 1 10 two_dirty
  = Ret (Slot 0)
      (store (Slot 0) (mkBuf 6 1 10 (mkLock 1 7) 1 (Slot 1) (Slot 4))
         two_dirty)
      [EvSync].
Proof.
  assert (ring two_dirty [1; 0; 4; 3; 2]) as Hr
    by (apply ring_check_sound; vm_compute; reflexivity).
  assert (bget_flush (sync Done 1 7) two_dirty = Ret tt two_dirty [EvSync])
    as Hfl by (vm_compute; reflexivity).
  assert (first_match two_dirty (ident 1 10) [1; 0; 4; 3; 2] = Some 0) as Hf
    by (vm_compute; reflexivity).
  assert (slots two_dirty !! 0
          = Some (mkBuf 6 1 10 (mkLock 0 0) 0 (Slot 1) (Slot 4))) as Hb
    by (vm_compute; reflexivity).
  split; [exact Hr|]. split; [exact Hfl|]. split; [exact Hf|].
  split; [exact Hb|].
  destruct (bget_hit two_dirty [1; 0; 4; 3; 2] (sync Done 1 7) 7 1 10 Hr)
    as (_ & _ & _ & H).
  destruct (H two_dirty [EvSync] [1; 0; 4; 3; 2] 0 _ Hfl Hr Hf Hb) as [H1 _].
  destruct (H1 eq_refl) as [_ H2]. exact H2.
Defined.

Lemma bget_never_recycles_dirty_witness :
  reachable lru_dirty /\
  let o := bread (sync Done 1 7) 7 1 15 lru_dirty in
  o = Ret (Slot 1) (final o) (trace o) /\
  exists st1 t1 l i b,
    bget_flush (sync Done 1 7) lru_dirty = Ret tt st1 t1 /\
    ring st1 l /\
    Slot 1 = Slot i /\
    slots st1 !! i = Some b /\
    (forall j bj, slots st1 !! j = Some bj -> dirty bj = true ->
       exists bj', slots (final o) !! j = Some bj' /\
                   dev bj' = dev bj /\ blockno bj' = blockno bj) /\
    (first_match st1 (ident 1 15) l = Some i \/
     (first_match st1 (ident 1 15) l = None /\
      first_match st1 unused (rev l) = Some i /\
      refcnt b = 0%Z /\
      dirty b = false /\
      let b1 := mkBuf 0 1 15 (mkLock 1 7) 1 (prev b) (next b) in
      final o = store (Slot i) (set_flags (iderw b1) b1) st1 /\
      trace o = t1 ++ [EvIderw (Slot i) b1])).
Proof.
  split; [apply reachable_lru_dirty|]. intros o.
  assert (o = Ret (Slot 1) (final o) (trace o)) as E
    by (vm_compute; reflexivity).
  split; [exact E|].
  exact (bget_never_recycles_dirty lru_dirty Done 1 7 1 15 _ _ _
           reachable_lru_dirty E).
Defined.

Lemma reachable_all_dirty : reachable all_dirty.
Proof. apply reachable_after. vm_compute. reflexivity. Qed.

(** C3, the claim as stated fails both ways when the pressure check
    fires, because what is recycled is decided on the pool the flush
    leaves.  With all five buffers dirty and block [(1, 99)] not cached, a
    [bget] whose flush writes one buffer back returns that buffer.  With
    two buffers dirty and three without reference and clean, a [bget]
    whose flush reads three blocks and keeps them panics. *)
Lemma bget_exhausted_counterexample :
  (reachable all_dirty /\
   (forall i b, slots all_dirty !! i = Some b ->
      ident 1 99 b = false /\ dirty b = true) /\
   exists st',
     bget (sync (write_back 10) 1 7) 7 1 99 all_dirty
     = Ret (Slot 0) st'
         [EvSync;
          EvIderw (Slot 0) (mkBuf 6 1 10 (mkLock 1 7) 1 (Slot 1) Head)]) /\
  (reachable two_dirty /\
   (forall i b, slots two_dirty !! i = Some b -> ident 1 99 b = false) /\
   (exists b, slots two_dirty !! 2 = Some b /\
              refcnt b = 0%Z /\ dirty b = false) /\
   exists st' tr,
     bget (sync keep3 1 7) 7 1 99 two_dirty
     = Stop (Panic "bget: no buffers") st' tr).
Proof.
  split; [split; [|split]|split; [|split; [|split]]].
  - apply reachable_all_dirty.
  - intros i b Hb.
    apply (all_slots (fun b => negb (ident 1 99 b) && @dirty tiny b)
             all_dirty ltac:(vm_compute; reflexivity)) in Hb.
    apply andb_true_iff in Hb as [Hi Hd]. split; [by apply negb_true_iff|done].
  - eexists. vm_compute. reflexivity.
  - apply reachable_two_dirty.
  - intros i b Hb.
    apply (all_slots (fun b => negb (ident 1 99 b))
             two_dirty ltac:(vm_compute; reflexivity)) in Hb.
    by apply negb_true_iff.
  - eexists. split; [vm_compute; reflexivity|]. split; vm_compute; reflexivity.
  - eexists _, _. vm_compute. reflexivity.
Qed.

Lemma bget_exhausted_witness :
  counted 64 all_held [] /\
  bget_scan 7 1 15 all_held = Stop (Panic "bget: no buffers") all_held [] /\
  exists j st'',
    bget_scan 7 1 15 (final (brelse 7 (Slot 0) all_held))
    = Ret (Slot j) st'' [].
Proof.
  assert (Z.of_nat 64 < 2 ^ 32 - 1)%Z as Hn by (vm_compute; reflexivity).
  pose proof (inv_counted 64 _ (reachable_inv _ reachable_all_held)) as Hc.
  assert (7%Z ∉ ([] : list (Z * stage)).*1) as Hme by apply not_elem_of_nil.
  assert (length ([] : list (Z * stage)) < 64) as Hlt by (simpl; lia).
  split; [exact Hc|].
  destruct (bget_exhausted 64 all_held [] 7 1 15 Hn Hc Hme Hlt)
    as (_ & H2 & _ & _ & H4).
  split.
  - apply H2. intros i b Hb.
    apply (all_slots (fun b => negb (ident 1 15 b) && (0 <? refcnt b)%Z)
             all_held ltac:(vm_compute; reflexivity)) in Hb.
    apply andb_true_iff in Hb as [Hi Hrc].
    split; [by apply negb_true_iff|]. left. by apply Z.ltb_lt.
  - destruct (H4 7%Z 0 (mkBuf 2 1 10 (mkLock 1 7) 1 (Slot 1) Head)
                (final (brelse 7 (Slot 0) all_held))
                (trace (brelse 7 (Slot 0) all_held)))
      as (j & st'' & Hs & _).
    + vm_compute. reflexivity.
    + vm_compute. reflexivity.
    + reflexivity.
    + vm_compute. reflexivity.
    + intros j bj Hbj.
      apply (all_slots (fun b => negb (ident 1 15 b))
               (final (brelse 7 (Slot 0) all_held))
               ltac:(vm_compute; reflexivity)) in Hbj.
      by apply negb_true_iff.
    + exists j, st''. exact Hs.
Defined.

Lemma logDirtyBuffer_hands_dirty_witness :
  ring two_dirty [1; 0; 4; 3; 2] /\
  exists st' tr,
    logDirtyBuffer two_dirty = Ret 2%Z st' tr /\
    List.filter (logs (Slot 0)) tr
    = [EvLogWrite (Slot 0) (mkBuf 6 1 10 (mkLock 0 0) 0 (Slot 1) (Slot 4))] /\
    List.filter (logs (Slot 2)) tr = [].
Proof.
  assert (ring two_dirty [1; 0; 4; 3; 2]) as Hr
    by (apply ring_check_sound; vm_compute; reflexivity).
  split; [exact Hr|].
  destruct (logDirtyBuffer_hands_dirty two_dirty _ Hr)
    as (st' & tr & E & H1 & _).
  exists st', tr. split; [exact E|]. split.
  - apply (H1 0 (mkBuf 6 1 10 (mkLock 0 0) 0 (Slot 1) (Slot 4))).
    vm_compute. reflexivity.
  - apply (H1 2 (mkBuf 0 0 0 (mkLock 0 0) 0 (Slot 3) Head)).
    vm_compute. reflexivity.
Defined.

Lemma bwrite_brelse_lock_witness :
  deref one_held (Slot 0) = Some (mkBuf 2 1 10 (mkLock 1 7) 1 (Slot 1) Head) /\
  bwrite 8 (Slot 0) one_held = Stop (Panic "bwrite") one_held [] /\
  brelse 8 (Slot 0) one_held = Stop (Panic "brelse") one_held [] /\
  bwrite 7 (Slot 0) one_held
  = Ret tt
      (store (Slot 0) (mkBuf 2 1 10 (mkLock 1 7) 1 (Slot 1) Head) one_held)
      [EvIderw (Slot 0) (mkBuf 6 1 10 (mkLock 1 7) 1 (Slot 1) Head)].
Proof.
  assert (deref one_held (Slot 0)
          = Some (mkBuf 2 1 10 (mkLock 1 7) 1 (Slot 1) Head)) as Hb
    by (vm_compute; reflexivity).
  split; [exact Hb|].
  destruct (bwrite_brelse_lock 8 (Slot 0) one_held _ Hb) as (H1 & H2 & _).
  destruct (bwrite_brelse_lock 7 (Slot 0) one_held _ Hb) as (_ & _ & _ & H4).
  split; [apply H1; reflexivity|]. split; [apply H2; reflexivity|].
  destruct (H4 eq_refl) as [_ H5]. exact H5.
Defined.

Lemma refcnt_never_negative_witness :
  reached 64 waiting [(8%Z, Locking (Slot 0))] /\
  slots waiting !! 0 = Some (mkBuf 2 1 10 (mkLock 1 7) 2 (Slot 1) Head) /\
  (2 = 1 + Z.of_nat (nrefs (Slot 0) [(8%Z, Locking (Slot 0))]))%Z /\
  exists st' b',
    brelse 7 (Slot 0) waiting = Ret tt st' [] /\
    slots st' !! 0 = Some b' /\
    refcnt b' = 1%Z.
Proof.
  assert (Z.of_nat 64 < 2 ^ 32 - 1)%Z as Hn by (vm_compute; reflexivity).
  assert (reached 64 waiting [(8%Z, Locking (Slot 0))]) as Hreach.
  { apply (reached_pick 64 one_held [] 8 1 10 (Slot 0) waiting []).
    - apply reachable_reached; [lia|apply reachable_one_held].
    - apply not_elem_of_nil.
    - simpl. lia.
    - vm_compute. reflexivity. }
  assert (slots waiting !! 0
          = Some (mkBuf 2 1 10 (mkLock 1 7) 2 (Slot 1) Head)) as Hb
    by (vm_compute; reflexivity).
  split; [exact Hreach|]. split; [exact Hb|].
  destruct (refcnt_never_negative 64 waiting [(8%Z, Locking (Slot 0))]
              Hn Hreach) as [H _].
  destruct (H 0 _ Hb) as (_ & _ & H3 & H4). split; [exact H3|].
  destruct (H4 7%Z eq_refl) as (_ & _ & st' & b' & E & Hb' & Hrc & _).
  exists st', b'. split; [exact E|]. split; [exact Hb'|]. exact Hrc.
Defined.



Lemma buffer_isfull_flush_once_witness :
  inv two_dirty /\
  buffer_isfull two_dirty = Ret 1%Z two_dirty [] /\
  trace (bget (sync (visit 12 Done) 1 7) 7 1 10 two_dirty)
  = [EvSync; EvIderw (Slot 2) (mkBuf 0 1 12 (mkLock 1 7) 1 (Slot 3) Head)].
Proof.
  pose proof (reachable_inv _ reachable_two_dirty) as Hinv.
  split; [exact Hinv|].
  destruct (buffer_isfull_flush_once two_dirty (visit 12 Done) 0 7 1 10 Hinv)
    as (H1 & H2 & _).
  split.
  - rewrite H1. vm_compute. reflexivity.
  - destruct (H2 eq_refl ltac:(vm_compute; discriminate) (stop Diverge))
      as (H3 & _).
    rewrite H3. vm_compute. reflexivity.
Defined.

(** The two observers on the pool with two dirty buffers, under the
    [log_write] of stock xv6. *)
Example observers_two_dirty :
  final (buffer_isfull two_dirty) = two_dirty /\
  final (logDirtyBuffer two_dirty) = two_dirty.
Proof. split; vm_compute; reflexivity. Qed.

End Scenarios.

(** * Further properties of the buffer cache *)

(** ** binit on any memory *)

Lemma rev_seq_S n : rev (seq 0 (S n)) = n :: rev (seq 0 n).
Proof. rewrite seq_S, rev_app_distr. done. Qed.

Lemma rev_seq_lookup n : forall k,
  k < n -> rev (seq 0 n) !! k = Some (n - 1 - k).
Proof.
  induction n as [|n IH]; intros k Hk; [lia|]. rewrite rev_seq_S.
  destruct k as [|k]; simpl; [f_equal; lia|].
  rewrite IH by lia. f_equal. lia.
Qed.

Lemma same_data_slot_fwd st st' i b :
  same_data st st' -> slots st !! i = Some b ->
  exists b', slots st' !! i = Some b' /\ core b' = core b.
Proof.
  intros (H & _) Hb. specialize (H (Slot i)). simpl in H. rewrite Hb in H.
  destruct (slots st' !! i) as [b'|]; [|done]. simpl in H.
  exists b'. split; [done|]. congruence.
Qed.

Section Pool.
Context {pf : Platform}.

(** [initsleeplock] makes the lock the buffer came with irrelevant. *)
Lemma binit_step_unlock st i b :
  slots st !! i = Some b ->
  binit_step i st
  = binit_step i (store (Slot i) (set_lock (mkLock 0 0) b) st).
Proof.
  intros Hb. set (b0 := set_lock (mkLock 0 0) b). set (st0 := store (Slot i) b0 st).
  assert (forall x, deref (store (Slot i) x st) (Slot i) = Some x) as Hd
    by (intros; apply deref_store_eq; by eexists).
  unfold binit_step.
  rewrite (bind_load Head _ st (head st)) by done.
  rewrite (bind_load Head _ st0 (head st)) by done.
  rewrite (bind_update (Slot i) _ _ st b Hb).
  rewrite (bind_update (Slot i) _ _ st0 b0 (Hd _)). unfold st0.
  rewrite store_store.
  rewrite !(bind_update (Slot i) _ _ _ _ (Hd _)), !store_store.
  unfold initsleeplock.
  rewrite !(bind_update (Slot i) _ _ _ _ (Hd _)), !store_store.
  done.
Qed.

Lemma binit_loop_any todo : forall st l,
  linked st l ->
  NoDup todo ->
  (forall i, i ∈ todo -> (i ∉ l) /\ i < length (slots st)) ->
  exists st',
    binit_loop todo st = Ret tt st' [] /\
    linked st' (rev todo ++ l) /\
    isfull st' = isfull st /\
    length (slots st') = length (slots st) /\
    forall j b, slots st !! j = Some b ->
      exists b', slots st' !! j = Some b' /\
        flags b' = flags b /\ dev b' = dev b /\ blockno b' = blockno b /\
        refcnt b' = refcnt b /\
        lock b' = if bool_decide (j ∈ todo) then mkLock 0 0 else lock b.
Proof.
  induction todo as [|i todo IH]; intros st l Hl Hnd Hin.
  - exists st. simpl. split; [done|]. split; [done|]. split; [done|].
    split; [done|]. intros j b Hb. exists b. done.
  - apply NoDup_cons in Hnd as [Hi Hnd].
    destruct (Hin i) as [Hil Hilt]; [by left|].
    destruct (lookup_lt_is_Some_2 _ _ Hilt) as [bi Hbi].
    set (b0 := set_lock (mkLock 0 0) bi). set (st0 := store (Slot i) b0 st).
    assert (linked st0 l) as Hl0 by (by eapply linked_store_data).
    assert (deref st0 (Slot i) = Some b0) as Hb0
      by (apply deref_store_eq; by eexists).
    destruct (binit_step_spec st0 i (pos l 1)) as (st1 & E1 & N1 & P1 & D1).
    + by exists b0.
    + rewrite <- (linked_head_next _ _ Hl0). done.
    + apply (linked_pos_valid st0 l 1 Hl0). lia.
    + intros (k' & _ & Hk')%pos_Slot. apply Hil.
      by eapply list_elem_of_lookup_2.
    + assert (length (slots st0) = length (slots st)) as Hlen0
        by apply length_slots_store.
      assert (linked st1 (i :: l)) as Hl1.
      { eapply linked_insert; try done; [by rewrite Hlen0|apply D1]. }
      destruct (IH st1 (i :: l) Hl1 Hnd) as (st2 & E2 & Hl2 & Hf2 & Hlen2 & Hd2).
      { intros j Hj. destruct (Hin j) as [Hjl Hjlt]; [by right|]. split.
        - intros [->|?]%elem_of_cons; done.
        - destruct D1 as (_ & _ & ->). by rewrite Hlen0. }
      exists st2. split; [|split; [|split; [|split]]].
      * cbn [binit_loop]. rewrite (bind_Ret _ _ st tt st1); [done|].
        by rewrite (binit_step_unlock st i bi Hbi).
      * simpl. by rewrite <- app_assoc.
      * destruct D1 as (_ & D1 & _). rewrite Hf2, D1. apply isfull_store.
      * destruct D1 as (_ & _ & D1). by rewrite Hlen2, D1.
      * intros j b Hb.
        assert (exists x, slots st0 !! j = Some x /\
                  flags x = flags b /\ dev x = dev b /\
                  blockno x = blockno b /\ refcnt x = refcnt b /\
                  lock x = if decide (j = i) then mkLock 0 0 else lock b)
          as (x & Hx & X1 & X2 & X3 & X4 & X5).
        { change (slots st0 !! j) with (deref st0 (Slot j)). unfold st0.
          rewrite deref_store by (by eexists).
          destruct (decide (j = i)) as [->|Hji].
          - rewrite decide_True by done. exists b0.
            assert (bi = b) as -> by congruence. done.
          - rewrite decide_False by congruence. exists b. done. }
        destruct (same_data_slot_fwd _ _ _ _ D1 Hx) as (y & Hy & Hc).
        apply core_eq in Hc as (Y1 & Y2 & Y3 & Y5 & Y4).
        destruct (Hd2 j y Hy) as (b' & Hb' & Z1 & Z2 & Z3 & Z4 & Z5).
        exists b'. split; [done|].
        split; [congruence|]. split; [congruence|]. split; [congruence|].
        split; [congruence|]. rewrite Z5, Y5, X5.
        destruct (decide (j = i)) as [->|Hji].
        -- rewrite (bool_decide_eq_true_2 (i ∈ i :: todo)) by (by left).
           by destruct (bool_decide _).
        -- assert (bool_decide (j ∈ i :: todo) = bool_decide (j ∈ todo)) as ->.
           { apply bool_decide_ext. rewrite elem_of_cons.
             split; [by intros [?|?]|by right]. }
           done.
Qed.

(** X1.  [binit] needs nothing of the memory it is given but the [NBUF]
    slots: whatever the links, the locks and the rest hold before, it
    returns without a call, with [head.next] at the last slot of the array
    and [head.prev] at the first, every buffer linked to its two array
    neighbours (the first and the last to the sentinel), every lock free,
    and the flags, identity and reference count of every buffer, and the
    guard, as they were. *)
Theorem binit_threads_pool st :
  length (slots st) = NBUF ->
  exists st',
    binit st = Ret tt st' [] /\
    ring st' (rev (seq 0 NBUF)) /\
    next (head st') = (match NBUF with O => Head | S n => Slot n end) /\
    prev (head st') = (if decide (NBUF = 0) then Head else Slot 0) /\
    isfull st' = isfull st /\
    forall i b, slots st !! i = Some b ->
      slots st' !! i
      = Some (mkBuf (flags b) (dev b) (blockno b) (mkLock 0 0) (refcnt b)
                (if decide (S i = NBUF) then Head else Slot (S i))
                (match i with O => Head | S j => Slot j end)).
Proof.
  intros Hlen. unfold binit.
  destruct (update_prev_spec st Head (head st) Head eq_refl)
    as (st1 & E1 & N1 & P1 & D1).
  rewrite (bind_Ret _ _ _ _ _ E1).
  destruct (update_next_spec st1 Head (head st1) Head eq_refl)
    as (st2 & E2 & N2 & P2 & D2).
  rewrite (bind_Ret _ _ _ _ _ E2).
  assert (linked st2 []) as Hl.
  { split; [constructor|]. split; [by intros i ?%elem_of_nil|].
    intros k Hk. simpl in Hk. assert (k = 0) as -> by lia.
    split; simpl; [by rewrite N2|by rewrite P2, P1]. }
  pose proof (same_data_trans _ _ _ D1 D2) as D12.
  assert (length (slots st2) = NBUF) as Hlen2.
  { destruct D12 as (_ & _ & ->). done. }
  destruct (binit_loop_any (seq 0 NBUF) st2 [] Hl)
    as (st3 & E3 & Hl3 & Hf3 & Hlen3 & Hd3).
  { apply NoDup_seq. }
  { intros i Hi. split; [by intros ?%elem_of_nil|].
    apply elem_of_seq in Hi. lia. }
  rewrite app_nil_r in Hl3. set (l := rev (seq 0 NBUF)) in *.
  assert (length l = NBUF) as Hll by (unfold l; by rewrite length_rev, length_seq).
  exists st3. split; [done|]. split; [|split; [|split; [|split]]].
  - split; [done|]. split; [congruence|].
    intros i Hi. apply list_elem_of_In, (proj1 (in_rev _ _)), in_seq. lia.
  - rewrite (linked_head_next _ _ Hl3). unfold l.
    destruct NBUF as [|n]; [done|]. by rewrite rev_seq_S.
  - rewrite (linked_head_prev _ _ Hl3), Hll.
    destruct (decide (NBUF = 0)) as [H0|H0]; [by rewrite H0|].
    destruct NBUF as [|n] eqn:HN; [done|]. simpl.
    unfold l. rewrite rev_seq_lookup by lia. f_equal. lia.
  - destruct D12 as (_ & D & _). by rewrite Hf3, D.
  - intros i b Hb.
    assert (i < NBUF) as Hi by (rewrite <- Hlen; by eapply lookup_lt_Some).
    destruct (same_data_slot_fwd _ _ _ _ D12 Hb) as (b2 & Hb2 & Hc).
    apply core_eq in Hc as (Y1 & Y2 & Y3 & Y5 & Y4).
    destruct (Hd3 i b2 Hb2) as (b' & Hb' & Z1 & Z2 & Z3 & Z4 & Z5).
    rewrite bool_decide_eq_true_2 in Z5 by (apply elem_of_seq; lia).
    assert (l !! (NBUF - 1 - i) = Some i) as Hk.
    { unfold l. rewrite rev_seq_lookup by lia. f_equal. lia. }
    destruct Hl3 as (_ & _ & Hs).
    destruct (Hs (NBUF - 1 - i)) as [_ Hp]; [lia|].
    destruct (Hs (S (NBUF - 1 - i))) as [Hn _]; [lia|].
    rewrite (pos_S_lookup _ _ _ Hk) in Hp, Hn.
    apply prv_Some in Hp as (x & Hx & Hxp).
    apply nxt_Some in Hn as (x' & Hx' & Hxn).
    simpl in Hx, Hx'. assert (x = b') as -> by congruence.
    assert (x' = b') as -> by congruence.
    rewrite Hb'. f_equal.
    assert (prev b' = if decide (S i = NBUF) then Head else Slot (S i)) as Hpv.
    { rewrite Hxp. destruct (decide (S i = NBUF)) as [He|He].
      - replace (NBUF - 1 - i) with 0 by lia. done.
      - replace (NBUF - 1 - i) with (S (NBUF - 1 - S i)) by lia.
        apply pos_S_lookup. unfold l. rewrite rev_seq_lookup by lia.
        f_equal. lia. }
    assert (next b' = match i with O => Head | S j => Slot j end) as Hnx.
    { rewrite Hxn. destruct i as [|j].
      - apply pos_S_ge. lia.
      - apply pos_S_lookup. unfold l. rewrite rev_seq_lookup by lia.
        f_equal. lia. }
    destruct b'. simpl in *. congruence.
Qed.

End Pool.

(** ** The list in the states the kernel reaches *)

Section Wellformed.
Context {pf : Platform}.

Lemma first_match_slot st P l i :
  first_match st P l = Some i ->
  exists b, slots st !! i = Some b /\ P b = true.
Proof.
  intros [_ H]%first_match_elem. unfold test_at in H.
  destruct (slots st !! i) as [b|]; [eauto|done].
Qed.

(** X2.  In every state the kernel can reach, following [next] from
    [head.next] meets every one of the [NBUF] buffers exactly once and then
    the sentinel, and following [prev] from [head.prev] meets them in the
    opposite order: no function of the file ever breaks the list.  So every
    walk of it ends: [buffer_isfull] and [logDirtyBuffer] return, and the
    two scans of [bget] end with a buffer, asleep on the taken lock of the
    buffer that caches the block, or in the panic, never outside the cache
    and never asleep on a buffer they recycle. *)
Theorem reachable_list_intact st :
  reachable st ->
  exists l,
    l ≡ₚ seq 0 NBUF /\
    chain_next st (next (head st)) l /\
    chain_prev st (prev (head st)) (rev l) /\
    (exists n, buffer_isfull st = Ret n st []) /\
    (exists n st' tr, logDirtyBuffer st = Ret n st' tr) /\
    forall me dv bn h st' tr,
      bget_scan me dv bn st = Stop h st' tr ->
      h = Panic "bget: no buffers" \/
      exists i b,
        h = Blocked (Slot i) /\ slots st !! i = Some b /\
        ident dv bn b = true /\ locked (lock b) <> 0%Z.
Proof.
  intros Hinv%reachable_inv. pose proof Hinv as ([l Hr] & Hheld & _).
  pose proof Hr as (Hl & _). exists l.
  split; [by eapply ring_perm|].
  split; [by apply linked_chain_next|].
  split; [by apply linked_chain_prev|].
  split; [eexists; by eapply buffer_isfull_spec|].
  split; [do 3 eexists; by eapply logDirtyBuffer_spec|].
  intros me dv bn h st' tr. rewrite (bget_scan_spec _ _ _ _ _ Hr).
  destruct (first_match st (ident dv bn) l) as [i|] eqn:Hhit.
  - destruct (first_match_slot _ _ _ _ Hhit) as (b & Hb & Hid).
    unfold take_hit. rewrite Hb.
    destruct (locked (lock b) =? 0)%Z eqn:Hlk; [done|].
    apply Z.eqb_neq in Hlk. intros [= <- _ _]. right. eauto 6.
  - destruct (first_match st unused (rev l)) as [j|] eqn:Hfree.
    + apply first_match_elem in Hfree as [_ Hu].
      destruct (take_free_returns st me dv bn j Hinv Hu) as (st'' & ->). done.
    + intros [= <- _ _]. by left.
Qed.

(** [brelse] on a buffer of the list, field by field. *)
Lemma brelse_ring me i st l1 l2 b :
  ring st (l1 ++ i :: l2) ->
  slots st !! i = Some b ->
  holdingsleep me (lock b) = true ->
  let rest := wrap_uint (refcnt b - 1) in
  exists st',
    brelse me (Slot i) st = Ret tt st' [] /\
    ring st' (if (rest =? 0)%Z then i :: l1 ++ l2 else l1 ++ i :: l2) /\
    isfull st' = isfull st /\
    (exists b', slots st' !! i = Some b' /\
       core b' = (flags b, dev b, blockno b, mkLock 0 0, rest)) /\
    forall j bj, j <> i -> slots st !! j = Some bj ->
      exists bj', slots st' !! j = Some bj' /\ core bj' = core bj.
Proof.
  intros (Hl & Hlen & Hall) Hb Hh rest.
  destruct (brelse_spec me i st l1 l2 b Hl Hb Hh) as (st' & E & Hd & Hl').
  cbn [refcnt set_refcnt] in Hl'. fold rest in Hl'.
  exists st'. split; [done|]. split; [|split; [|split]].
  - split; [done|]. split.
    + destruct Hd as (_ & _ & ->). by rewrite length_slots_store.
    + intros j Hj. specialize (Hall j Hj). destruct (rest =? 0)%Z; [|done].
      apply elem_of_app in Hall as [H|[->|H]%elem_of_cons].
      * right. apply elem_of_app. by left.
      * by left.
      * right. apply elem_of_app. by right.
  - destruct Hd as (_ & -> & _). apply isfull_store.
  - set (b2 := set_refcnt rest (set_lock (mkLock 0 0) b)) in *.
    assert (slots (store (Slot i) b2 st) !! i = Some b2) as Hb2.
    { change (deref (store (Slot i) b2 st) (Slot i) = Some b2).
      apply deref_store_eq. by eexists. }
    destruct (same_data_slot_fwd _ _ _ _ Hd Hb2) as (b' & Hb' & Hc).
    exists b'. split; [done|]. by rewrite Hc.
  - intros j bj Hji Hbj. apply (same_data_slot_fwd _ _ j bj Hd).
    rewrite slots_store_ne by done. done.
Qed.

(** X3.  [brelse] by the holder of the lock of a buffer on the list
    returns without a call, with the lock free and one reference fewer.
    When that was the last reference, [head.next] is now this buffer and
    the walk from it meets the other buffers in the order they had, in
    both directions; with references left, the order is as it was.  The
    flags and the identity of the buffer, and every field but the links of
    every other buffer, are as before. *)
Theorem brelse_moves_to_head me i st l1 l2 b :
  ring st (l1 ++ i :: l2) ->
  slots st !! i = Some b ->
  holdingsleep me (lock b) = true ->
  let rest := wrap_uint (refcnt b - 1) in
  let l' := if (rest =? 0)%Z then i :: l1 ++ l2 else l1 ++ i :: l2 in
  exists st',
    brelse me (Slot i) st = Ret tt st' [] /\
    (rest = 0%Z -> next (head st') = Slot i) /\
    chain_next st' (next (head st')) l' /\
    chain_prev st' (prev (head st')) (rev l') /\
    isfull st' = isfull st /\
    (exists b', slots st' !! i = Some b' /\
       core b' = (flags b, dev b, blockno b, mkLock 0 0, rest)) /\
    forall j bj, j <> i -> slots st !! j = Some bj ->
      exists bj', slots st' !! j = Some bj' /\ core bj' = core bj.
Proof.
  intros Hr Hb Hh rest l'.
  destruct (brelse_ring me i st l1 l2 b Hr Hb Hh)
    as (st' & E & Hr' & Hf & Hi & Ho).
  fold rest in Hr', Hi. fold l' in Hr'. pose proof Hr' as (Hl' & _).
  exists st'. split; [done|]. split; [|split; [|split]].
  - intros H0. rewrite (linked_head_next _ _ Hl'). unfold l'.
    by rewrite H0.
  - by apply linked_chain_next.
  - by apply linked_chain_prev.
  - done.
Qed.

Lemma ring_logged s : forall st l, ring st l -> ring (logged st s) l.
Proof.
  induction s as [|i s IH]; intros st l Hr; simpl; [done|].
  apply IH. destruct (slots st !! i) as [b|] eqn:Hb; [|done].
  destruct (dirty b); [|done]. by eapply ring_store_data.
Qed.

Lemma ring_take_hit st l me i p st' tr :
  ring st l -> take_hit me i st = Ret p st' tr -> ring st' l.
Proof.
  intros Hr. unfold take_hit. destruct (slots st !! i) as [b|] eqn:Hb; [|done].
  destruct (_ =? _)%Z; [|done]. intros [= _ <- _].
  by eapply ring_store_data.
Qed.

Lemma ring_take_free st l me dv bn i p st' tr :
  ring st l -> take_free me dv bn i st = Ret p st' tr -> ring st' l.
Proof.
  intros Hr. unfold take_free. destruct (slots st !! i) as [b|] eqn:Hb; [|done].
  destruct (_ =? _)%Z; [|done]. intros [= _ <- _].
  by eapply ring_store_data.
Qed.

Lemma ring_bget_scan st l me dv bn p st' tr :
  ring st l -> bget_scan me dv bn st = Ret p st' tr -> ring st' l.
Proof.
  intros Hr. rewrite (bget_scan_spec _ _ _ _ _ Hr).
  destruct (first_match st (ident dv bn) l) as [i|].
  - by apply ring_take_hit.
  - destruct (first_match st unused (rev l)) as [j|]; [|done].
    by apply ring_take_free.
Qed.

(** X4.  The order of the list, which is the order of eviction, changes in
    [brelse] alone: a scan of [bget], hit or miss, a [bread] whose pressure
    check does not fire, a [bwrite] and a [logDirtyBuffer] all leave every
    buffer where it was on the list.  Use does not make a buffer recent,
    release does. *)
Theorem order_changes_in_brelse_only st l :
  ring st l ->
  (forall me dv bn p st' tr,
     bget_scan me dv bn st = Ret p st' tr -> ring st' l) /\
  (forall syn me dv bn p st' tr,
     isfull st <> 0%Z \/ (Z.of_nat (ndirty st) < Z.of_nat NBUF - 3)%Z ->
     bread syn me dv bn st = Ret p st' tr -> ring st' l) /\
  (forall me p st' tr, bwrite me p st = Ret tt st' tr -> ring st' l) /\
  (forall n st' tr, logDirtyBuffer st = Ret n st' tr -> ring st' l) /\
  (forall n st' tr, buffer_isfull st = Ret n st' tr -> ring st' l).
Proof.
  intros Hr. split; [|split; [|split; [|split]]].
  - intros me dv bn p st' tr. by apply ring_bget_scan.
  - intros syn me dv bn p st' tr Hno. rewrite bread_spec.
    rewrite (bget_no_flush _ _ _ _ _ _ Hr Hno).
    destruct (bget_scan me dv bn st) as [q st1 t1|] eqn:Hs; [|done].
    apply (ring_bget_scan _ _ _ _ _ _ _ _ Hr) in Hs.
    destruct (deref st1 q) as [b|] eqn:Hb; [|done].
    destruct (valid b); intros [= _ <- _]; [done|].
    by eapply ring_store_data.
  - intros me p st' tr. destruct (deref st p) as [b|] eqn:Hb.
    + rewrite (bwrite_spec _ _ _ _ Hb).
      destruct (holdingsleep me (lock b)); [|done]. intros [= <- _].
      by eapply ring_store_data.
    + unfold bwrite. by rewrite (bind_load_fault _ _ _ Hb).
  - intros n st' tr. rewrite (logDirtyBuffer_spec _ _ Hr).
    intros [= _ <- _]. by apply ring_logged.
  - intros n st' tr. rewrite (buffer_isfull_spec _ _ Hr). by intros [= _ <- _].
Qed.

End Wellformed.

(** ** What [bread] returns, and what the driver is handed *)

Section Handout.
Context {pf : Platform}.

Lemma bget_cached_post me dv bn fuel : forall p st r st' tr,
  bget_cached fuel me p dv bn st = Ret r st' tr ->
  tr = [] /\
  match r with
  | None => st' = st
  | Some q =>
      q <> Head /\
      exists b, deref st' q = Some b /\
                dev b = dv /\ blockno b = bn /\ lock b = mkLock 1 me
  end.
Proof.
  induction fuel as [|fuel IH]; intros p st r st' tr; simpl; [done|].
  case_decide as Hp; [by intros [= <- <- <-]|].
  destruct (deref st p) as [b|] eqn:Hb.
  2:{ by rewrite (bind_load_fault _ _ _ Hb). }
  rewrite (bind_load _ _ _ _ Hb).
  destruct ((dev b =? dv)%Z && (blockno b =? bn)%Z) eqn:Hid; [|apply IH].
  apply andb_true_iff in Hid as [Hd Hn].
  apply Z.eqb_eq in Hd. apply Z.eqb_eq in Hn.
  rewrite (bind_update _ _ _ _ _ Hb).
  set (b1 := set_refcnt _ b).
  assert (deref (store p b1 st) p = Some b1) as Hb1
    by (apply deref_store_eq; by eexists).
  unfold bind at 1. rewrite (acquiresleep_eq _ _ _ _ Hb1).
  destruct (_ =? _)%Z; [|done]. simpl. intros [= <- <- <-].
  split; [done|]. split; [done|]. rewrite store_store. eexists. split.
  - apply deref_store_eq. by eexists.
  - done.
Qed.

Lemma bget_recycle_post me dv bn fuel : forall p st r st' tr,
  bget_recycle fuel me p dv bn st = Ret r st' tr ->
  tr = [] /\
  match r with
  | None => st' = st
  | Some q =>
      q <> Head /\
      exists b, deref st' q = Some b /\
                dev b = dv /\ blockno b = bn /\ lock b = mkLock 1 me
  end.
Proof.
  induction fuel as [|fuel IH]; intros p st r st' tr; simpl; [done|].
  case_decide as Hp; [by intros [= <- <- <-]|].
  destruct (deref st p) as [b|] eqn:Hb.
  2:{ by rewrite (bind_load_fault _ _ _ Hb). }
  rewrite (bind_load _ _ _ _ Hb).
  destruct ((refcnt b =? 0)%Z && negb (dirty b)); [|apply IH].
  assert (forall x, deref (store p x st) p = Some x) as Hd
    by (intros; apply deref_store_eq; by eexists).
  rewrite (bind_update _ _ _ _ _ Hb).
  do 3 (rewrite (bind_update _ _ _ _ _ (Hd _)), store_store).
  unfold bind at 1. rewrite (acquiresleep_eq _ _ _ _ (Hd _)).
  destruct (_ =? _)%Z; [|done]. simpl. intros [= <- <- <-].
  split; [done|]. split; [done|]. rewrite store_store. eexists.
  split; [apply Hd|done].
Qed.

(** "In either case, return locked buffer", on any cache at all. *)
Lemma bget_scan_post me dv bn st p st' tr :
  bget_scan me dv bn st = Ret p st' tr ->
  tr = [] /\
  p <> Head /\
  exists b, deref st' p = Some b /\
            dev b = dv /\ blockno b = bn /\ lock b = mkLock 1 me.
Proof.
  unfold bget_scan. rewrite (bind_load Head _ st (head st)) by done.
  intros ([q|] & st1 & t1 & t2 & E1 & E2 & ->)%bind_Ret_inv;
    apply bget_cached_post in E1 as [-> H1].
  - injection E2 as <- <- <-. done.
  - subst st1. rewrite (bind_load Head _ st (head st)) in E2 by done.
    apply bind_Ret_inv in E2 as ([q|] & st2 & t3 & t4 & E3 & E4 & ->);
      apply bget_recycle_post in E3 as [-> H3]; [|done].
    injection E4 as <- <- <-. done.
Qed.

Lemma holdingsleep_taken me : holdingsleep me (mkLock 1 me) = true.
Proof. unfold holdingsleep. simpl. by rewrite Z.eqb_refl. Qed.

Lemma bread_post syn me dv bn st p st' tr :
  bread syn me dv bn st = Ret p st' tr ->
  exists st1 t1 b1,
    bget syn me dv bn st = Ret p st1 t1 /\
    p <> Head /\
    deref st1 p = Some b1 /\
    dev b1 = dv /\ blockno b1 = bn /\ lock b1 = mkLock 1 me /\
    ((valid b1 = true /\ st' = st1 /\ tr = t1) \/
     (valid b1 = false /\ st' = store p (set_flags (iderw b1) b1) st1 /\
      tr = t1 ++ [EvIderw p b1])).
Proof.
  rewrite bread_spec.
  destruct (bget syn me dv bn st) as [q st1 t1|] eqn:Hg; [|done].
  unfold bget in Hg.
  apply bind_Ret_inv in Hg as ([] & st0 & t0 & t2 & Hf & Hs & ->).
  apply bget_scan_post in Hs as (-> & Hq & b1 & Hb1 & Hd & Hn & Hl).
  rewrite Hb1. destruct (valid b1) eqn:Hv; intros [= <- <- <-];
    exists st1, (t0 ++ []), b1; (split; [done|]); (split; [done|]);
    (split; [done|]); (split; [done|]); (split; [done|]);
    (split; [done|]); auto.
Qed.

(** The buffer [bread] returns, as [bread] leaves it. *)
Lemma bread_buffer syn me dv bn st p st' tr :
  bread syn me dv bn st = Ret p st' tr ->
  exists i b,
    p = Slot i /\
    deref st' p = Some b /\
    dev b = dv /\ blockno b = bn /\ lock b = mkLock 1 me /\
    ((forall x, Z.land (iderw x) B_VALID <> 0%Z) -> valid b = true).
Proof.
  intros (st1 & t1 & b1 & _ & Hp & Hb1 & Hd & Hn & Hl & Hcase)%bread_post.
  destruct p as [| |i]; [done|done|]. exists i.
  destruct Hcase as [(Hv & -> & _)|(Hv & -> & _)].
  - exists b1. done.
  - exists (set_flags (iderw b1) b1). split; [done|]. split.
    + apply deref_store_eq. by eexists.
    + split; [done|]. split; [done|]. split; [done|]. intros Hdrv.
      unfold valid. simpl. apply negb_true_iff, Z.eqb_neq, Hdrv.
Qed.

(** X5.  Whatever the cache, what a [bread] returns is one of the slots
    of the pool, never the sentinel; the buffer carries the identity asked
    for and is locked by the caller, so the caller's next [bwrite] or
    [brelse] of it does not panic; and it is valid when the driver leaves
    the buffers it is handed valid. *)
Theorem bread_returns_locked syn me dv bn st p st' tr :
  bread syn me dv bn st = Ret p st' tr ->
  exists i b,
    p = Slot i /\
    deref st' p = Some b /\
    dev b = dv /\ blockno b = bn /\
    lock b = mkLock 1 me /\
    holdingsleep me (lock b) = true /\
    ((forall x, Z.land (iderw x) B_VALID <> 0%Z) -> valid b = true) /\
    (exists st'' e, bwrite me p st' = Ret tt st'' [e]) /\
    (forall msg s t, brelse me p st' <> Stop (Panic msg) s t).
Proof.
  intros (i & b & Hp & Hb & Hd' & Hn' & Hl' & Hv')%bread_buffer.
  assert (holdingsleep me (lock b) = true) as Hh
    by (rewrite Hl'; apply holdingsleep_taken).
  exists i, b. split; [done|]. split; [done|]. split; [done|].
  split; [done|]. split; [done|]. split; [done|]. split; [done|]. split.
  - rewrite (bwrite_spec _ _ _ _ Hb), Hh. eauto.
  - intros msg s t H.
    by apply (brelse_held_calm _ _ _ _ _ _ _ Hb Hh) in H.
Qed.

(** Code that makes no call at all satisfies every discipline. *)
Lemma emits_bind P {A B} (m : M A) (f : A -> M B) :
  emits P m -> (forall a, emits P (f a)) -> emits P (bind m f).
Proof.
  intros Hm Hf st. rewrite trace_bind. specialize (Hm st).
  destruct (m st) as [a st1 t1|h st1 t1]; [|done].
  apply Forall_app. split; [done|apply Hf].
Qed.

Lemma emits_nil P {A} (m : M A) :
  (forall st, trace (m st) = []) -> emits P m.
Proof. intros H st. rewrite H. constructor. Qed.

Lemma emits_ret P {A} (a : A) : emits P (ret a).
Proof. by apply emits_nil. Qed.

Lemma emits_stop P {A} (h : halt) : emits P (@stop A h).
Proof. by apply emits_nil. Qed.

Lemma emits_load P p : emits P (load p).
Proof. apply emits_nil. intros st. unfold load. by destruct (deref st p). Qed.

Lemma emits_modify P g : emits P (modify g).
Proof. by apply emits_nil. Qed.

Lemma emits_update P p g : emits P (update p g).
Proof.
  apply emits_bind; [apply emits_load|]. intros b. apply emits_modify.
Qed.

Lemma emits_emit (P : event -> Prop) e : P e -> emits P (emit e).
Proof. intros H st. simpl. by constructor. Qed.

Lemma emits_acquiresleep P me p : emits P (acquiresleep me p).
Proof.
  apply emits_bind; [apply emits_load|]. intros b.
  destruct (_ =? _)%Z; [apply emits_update|apply emits_stop].
Qed.

Lemma emits_bget_cached P me dv bn fuel : forall p,
  emits P (bget_cached fuel me p dv bn).
Proof.
  induction fuel as [|fuel IH]; intros p; simpl; [apply emits_stop|].
  case_decide; [apply emits_ret|].
  apply emits_bind; [apply emits_load|]. intros b.
  destruct (_ && _); [|apply IH].
  apply emits_bind; [apply emits_update|]. intros _.
  apply emits_bind; [apply emits_acquiresleep|]. intros _. apply emits_ret.
Qed.

Lemma emits_bget_recycle P me dv bn fuel : forall p,
  emits P (bget_recycle fuel me p dv bn).
Proof.
  induction fuel as [|fuel IH]; intros p; simpl; [apply emits_stop|].
  case_decide; [apply emits_ret|].
  apply emits_bind; [apply emits_load|]. intros b.
  destruct (_ && _); [|apply IH].
  do 4 (apply emits_bind; [apply emits_update|]; intros _).
  apply emits_bind; [apply emits_acquiresleep|]. intros _. apply emits_ret.
Qed.

Lemma emits_bget_scan P me dv bn : emits P (bget_scan me dv bn).
Proof.
  apply emits_bind; [apply emits_load|]. intros h.
  apply emits_bind; [apply emits_bget_cached|]. intros [b|]; [apply emits_ret|].
  apply emits_bind; [apply emits_load|]. intros h'.
  apply emits_bind; [apply emits_bget_recycle|].
  intros [b|]; [apply emits_ret|apply emits_stop].
Qed.

Lemma emits_buffer_isfull P : emits P buffer_isfull.
Proof. apply emits_nil. intros st. apply pure_buffer_isfull. Qed.

Lemma emits_brelse P me p : emits P (brelse me p).
Proof.
  apply emits_bind; [apply emits_load|]. intros b.
  destruct (negb _); [apply emits_stop|].
  apply emits_bind; [apply emits_update|]. intros _.
  apply emits_bind; [apply emits_load|]. intros b1.
  apply emits_bind; [apply emits_update|]. intros _.
  apply emits_bind; [apply emits_load|]. intros b2.
  destruct (_ =? _)%Z; [|apply emits_ret].
  apply emits_bind; [apply emits_load|]. intros x.
  apply emits_bind; [apply emits_update|]. intros _.
  apply emits_bind; [apply emits_load|]. intros x'.
  apply emits_bind; [apply emits_update|]. intros _.
  apply emits_bind; [apply emits_load|]. intros h.
  do 2 (apply emits_bind; [apply emits_update|]; intros _).
  apply emits_bind; [apply emits_load|]. intros h'.
  apply emits_bind; [apply emits_update|]. intros _. apply emits_update.
Qed.

Lemma emits_bget_flush P syn :
  P EvSync -> emits P syn -> emits P (bget_flush syn).
Proof.
  intros HP Hsyn. unfold bget_flush.
  apply emits_bind; [by apply emits_nil|]. intros st0.
  apply emits_bind.
  { destruct (_ =? _)%Z; [apply emits_buffer_isfull|apply emits_ret]. }
  intros full. destruct (_ && _); [|apply emits_ret].
  apply emits_bind; [apply emits_modify|]. intros _.
  apply emits_bind; [by apply emits_emit|]. intros _.
  apply emits_bind; [done|]. intros _. apply emits_modify.
Qed.

Lemma emits_call_log_write P p :
  (forall b, P (EvLogWrite p b)) -> emits P (call_log_write p).
Proof.
  intros HP. apply emits_bind; [apply emits_load|]. intros b.
  apply emits_bind; [by apply emits_emit|]. intros _. apply emits_update.
Qed.

Lemma emits_logDirtyBuffer P :
  (forall q b, P (EvLogWrite q b)) -> emits P logDirtyBuffer.
Proof.
  intros HP st. unfold logDirtyBuffer.
  rewrite (bind_load Head _ st (head st)) by done.
  destruct (logDirtyBuffer_loop_frame (S NBUF) (next (head st)) 0 st)
    as (_ & H & _).
  apply Forall_forall. intros e He. destruct (H e He) as (q & b & ->).
  apply HP.
Qed.

Lemma emits_bwrite me p : emits (iderw_ok me) (bwrite me p).
Proof.
  intros st. destruct (deref st p) as [b|] eqn:Hb.
  - rewrite (bwrite_spec _ _ _ _ Hb).
    destruct (holdingsleep me (lock b)) eqn:Hh; simpl; [|constructor].
    constructor; [|constructor]. split; [done|]. right.
    unfold dirty. simpl. rewrite land_lor_same.
    apply negb_true_iff, Z.eqb_neq, B_DIRTY_flag.
  - unfold bwrite. rewrite (bind_load_fault _ _ _ Hb). constructor.
Qed.

Lemma emits_bread syn me dv bn :
  emits (iderw_ok me) syn -> emits (iderw_ok me) (bread syn me dv bn).
Proof.
  intros Hsyn st. rewrite bread_spec.
  assert (Forall (iderw_ok me) (trace (bget syn me dv bn st))) as Hg.
  { apply emits_bind; [by apply emits_bget_flush|].
    intros _. apply emits_bget_scan. }
  destruct (bget syn me dv bn st) as [p st1 t1|h st1 t1] eqn:Eg; [|done].
  simpl in Hg. destruct (deref st1 p) as [b|] eqn:Hb; [|done].
  destruct (valid b) eqn:Hv; [done|]. simpl.
  apply Forall_app. split; [done|]. constructor; [|constructor].
  unfold bget in Eg.
  apply bind_Ret_inv in Eg as ([] & st0 & t0 & t2 & _ & Hs & _).
  apply bget_scan_post in Hs as (_ & _ & b' & Hb' & _ & _ & Hl).
  assert (b' = b) as -> by congruence.
  split; [rewrite Hl; apply holdingsleep_taken|by left].
Qed.

Lemma emits_run syn me p :
  emits (iderw_ok me) syn -> emits (iderw_ok me) (run syn me p).
Proof.
  intros Hsyn. induction p as [|dv bn k IH|b k IH|b k IH|k IH|k IH|b k IH];
    simpl.
  - apply emits_ret.
  - apply emits_bind; [by apply emits_bread|done].
  - apply emits_bind; [apply emits_bwrite|done].
  - apply emits_bind; [apply emits_brelse|done].
  - apply emits_bind; [by apply emits_logDirtyBuffer|done].
  - apply emits_bind; [apply emits_buffer_isfull|done].
  - apply emits_bind; [by apply emits_call_log_write|done].
Qed.

Lemma emits_sync body depth me : emits (iderw_ok me) (sync body depth me).
Proof.
  induction depth as [|d IH]; simpl; [apply emits_stop|]. by apply emits_run.
Qed.

(** X6.  Whatever the cache and whatever a client does with the five
    functions, flushes included and also when a call of it never returns,
    every buffer that the file hands to the driver is locked by the calling
    process at that moment, and there is something for the driver to do
    with it: it is not valid yet ([bread]) or it is dirty ([bwrite]). *)
Theorem iderw_only_locked body depth me p st q b :
  EvIderw q b ∈ trace (run (sync body depth me) me p st) ->
  holdingsleep me (lock b) = true /\ (valid b = false \/ dirty b = true).
Proof.
  intros He.
  pose proof (emits_run _ me p (emits_sync body depth me) st) as Hall.
  rewrite Forall_forall in Hall. exact (Hall _ He).
Qed.

End Handout.

(** ** The guard between calls *)

Section Balance.
Context {pf : Platform}.

Lemma balanced_bind {A B} (m : M A) (f : A -> M B) :
  balanced m -> (forall a, balanced (f a)) -> balanced (bind m f).
Proof.
  intros Hm Hf st b st' tr (a & st1 & t1 & t2 & E1 & E2 & _)%bind_Ret_inv.
  rewrite (Hf _ _ _ _ _ E2). by eapply Hm.
Qed.

Lemma balanced_quiet {A} (m : M A) : quiet m -> balanced m.
Proof.
  intros Hq st a st' tr E. destruct (Hq st) as [H _]. by rewrite E in H.
Qed.

Lemma balanced_bget_flush syn : balanced syn -> balanced (bget_flush syn).
Proof.
  intros Hsyn st [] st' tr. unfold bget_flush. rewrite bind_get.
  destruct (isfull st =? 0)%Z eqn:H0.
  - intros (full & st1 & t1 & t2 & E1 & E2 & _)%bind_Ret_inv.
    assert (st1 = st) as ->.
    { destruct (pure_buffer_isfull st) as [H _]. by rewrite E1 in H. }
    simpl in E2. destruct (negb (full =? 0)%Z).
    + rewrite bind_modify, bind_emit in E2.
      destruct (bind syn (fun _ => modify (set_isfull 0)) (set_isfull 1 st))
        as [[] st3 t3|] eqn:E3; [|done].
      apply bind_Ret_inv in E3 as ([] & st2 & t4 & t5 & _ & E4 & _).
      injection E4 as <- _. injection E2 as <- _. simpl.
      apply Z.eqb_eq in H0. by rewrite H0.
    + by injection E2 as <- _.
  - rewrite bind_ret. simpl. by intros [= <- _].
Qed.

Lemma balanced_bread syn me dv bn :
  balanced syn -> balanced (bread syn me dv bn).
Proof.
  intros Hsyn. unfold bread, bget.
  apply balanced_bind.
  { apply balanced_bind; [by apply balanced_bget_flush|].
    intros _. apply balanced_quiet, quiet_bget_scan. }
  intros b. apply balanced_quiet.
  apply quiet_bind; [apply quiet_load|]. intros bb.
  apply quiet_bind; [|intros _; apply quiet_ret].
  destruct (valid bb); [apply quiet_ret|apply quiet_call_iderw].
Qed.

Lemma balanced_run syn me p : balanced syn -> balanced (run syn me p).
Proof.
  intros Hsyn. induction p as [|dv bn k IH|b k IH|b k IH|k IH|k IH|b k IH];
    simpl.
  - by intros st [] st' tr [= <- _].
  - apply balanced_bind; [by apply balanced_bread|done].
  - apply balanced_bind; [apply balanced_quiet, quiet_bwrite|done].
  - apply balanced_bind; [apply balanced_quiet, quiet_brelse|done].
  - apply balanced_bind; [apply balanced_quiet, quiet_logDirtyBuffer|done].
  - apply balanced_bind; [apply balanced_quiet, quiet_buffer_isfull|done].
  - apply balanced_bind; [apply balanced_quiet, quiet_call_log_write|done].
Qed.

Lemma balanced_sync body depth me : balanced (sync body depth me).
Proof.
  induction depth as [|d IH]; simpl; [done|]. by apply balanced_run.
Qed.

Lemma reachable_guard_clear st : reachable st -> isfull st = 0%Z.
Proof.
  induction 1 as [|st st' body depth me p tr _ IH Hrun].
  - destruct boot_spec as (_ & _ & (_ & -> & _)). done.
  - rewrite <- IH. eapply balanced_run; [apply balanced_sync|done].
Qed.

(** X7.  The guard [isfull] is set only while a flush runs.  Whatever a
    client does with the cache, when it returns the guard is as it found
    it, so between the calls of the kernel the guard is clear and a fetch
    under pressure does flush.  But the guard is cleared on return only: a
    flush that does not return, because it panics or sleeps on a lock,
    leaves the guard set, and from that cache on no fetch, by any process,
    flushes again. *)
Theorem guard_set_only_in_flush body depth me :
  (forall p st st' tr,
     run (sync body depth me) me p st = Ret tt st' tr ->
     isfull st' = isfull st) /\
  (forall st, reachable st -> isfull st = 0%Z) /\
  (forall st l dv bn h st2 t2,
     ring st l ->
     isfull st = 0%Z ->
     (Z.of_nat (ndirty st) >= Z.of_nat NBUF - 3)%Z ->
     sync body depth me (set_isfull 1 st) = Stop h st2 t2 ->
     bget (sync body depth me) me dv bn st = Stop h st2 (EvSync :: t2) /\
     isfull st2 = 1%Z /\
     forall syn who dv' bn',
       bget syn who dv' bn' st2 = bget_scan who dv' bn' st2).
Proof.
  split; [|split].
  - intros p st st' tr. apply balanced_run, balanced_sync.
  - apply reachable_guard_clear.
  - intros st l dv bn h st2 t2 Hr H0 Hp%pressure_true Hs.
    assert (isfull st2 = 1%Z) as H1.
    { destruct depth as [|d].
      - simpl in Hs. by injection Hs as _ <- _.
      - destruct (sync_guarded body d me (sync body d me) (set_isfull 1 st))
          as (E & Hi & _); [done|].
        rewrite <- E, Hs in Hi. done. }
    split; [|split; [done|]].
    + unfold bget, bind. by rewrite (bget_flush_spec _ _ _ Hr H0), Hp, Hs.
    + intros syn who dv' bn'. apply bget_guarded. by rewrite H1.
Qed.

End Balance.

(** ** The protocol of a client: read, use, release *)

Section Protocol.
Context {pf : Platform}.

(** On a cache with the invariant, [bread] returns a slot with its one
    reference. *)
Lemma bread_slot st syn me dv bn p st1 t1 :
  inv st -> preserves zero_ident syn ->
  bread syn me dv bn st = Ret p st1 t1 ->
  inv st1 /\
  exists i b,
    p = Slot i /\ slots st1 !! i = Some b /\
    dev b = dv /\ blockno b = bn /\ lock b = mkLock 1 me /\
    refcnt b = 1%Z /\
    ((forall x, Z.land (iderw x) B_VALID <> 0%Z) -> valid b = true).
Proof.
  intros Hinv Hsyn Hrun.
  assert (inv st1) as Hinv1 by (by eapply preserves_bread).
  split; [done|].
  apply bread_buffer in Hrun as (i & b & -> & Hb & Hd & Hn & Hl & Hv).
  pose proof Hinv1 as (_ & Hheld & _ & Hhd).
  exists i, b. split; [done|]. split; [done|]. split; [done|].
  split; [done|]. split; [done|]. split; [|done].
  destruct (Hheld i b Hb) as [[H0 _]|[_ H1]]; [by rewrite Hl in H0|done].
Qed.

(** The [brelse] of the one reference. *)
Lemma brelse_last me i st b :
  inv st ->
  slots st !! i = Some b ->
  holdingsleep me (lock b) = true ->
  exists st' l',
    brelse me (Slot i) st = Ret tt st' [] /\
    inv st' /\ ring st' (i :: l') /\ (i ∉ l') /\
    isfull st' = isfull st /\
    (exists b', slots st' !! i = Some b' /\
       core b' = (flags b, dev b, blockno b, mkLock 0 0, 0%Z)) /\
    forall j bj, j <> i -> slots st !! j = Some bj ->
      exists bj', slots st' !! j = Some bj' /\ core bj' = core bj.
Proof.
  intros Hinv Hb Hh. pose proof Hinv as ([l Hr] & Hheld & _).
  pose proof (ring_slot_elem _ _ _ _ Hr Hb) as Hil.
  apply list_elem_of_split in Hil as (l1 & l2 & ->).
  destruct (brelse_ring me i st l1 l2 b Hr Hb Hh)
    as (st' & E & Hr' & Hf & Hi & Ho).
  assert (refcnt b = 1%Z) as Hrc.
  { apply holdingsleep_locked in Hh as [Hlk _].
    destruct (Hheld i b Hb) as [[? _]|[_ ?]]; done. }
  rewrite Hrc in Hr', Hi. change (wrap_uint (1 - 1)) with 0%Z in Hr', Hi.
  simpl in Hr'.
  exists st', (l1 ++ l2). split; [done|].
  split; [by eapply (preserves_brelse zero_ident)|]. split; [done|].
  split; [|done].
  destruct Hr' as ((Hnd & _) & _). by apply NoDup_cons in Hnd as [? _].
Qed.

(** X8.  The round trip of the cache.  On a cache with the invariant of
    the reachable states and with a driver that leaves what it is handed
    valid: the buffer a [bread] returned can be released by its holder,
    and the next [bread] of the same block, by any process, that does not
    flush first gets the same buffer, at once and without a call to the
    device. *)
Theorem bread_brelse_bread st body depth me dv bn p st1 t1 :
  inv st ->
  (forall x, Z.land (iderw x) B_VALID <> 0%Z) ->
  bread (sync body depth me) me dv bn st = Ret p st1 t1 ->
  exists st2,
    brelse me p st1 = Ret tt st2 [] /\
    forall syn who,
      isfull st2 <> 0%Z \/ (Z.of_nat (ndirty st2) < Z.of_nat NBUF - 3)%Z ->
      exists st3, bread syn who dv bn st2 = Ret p st3 [].
Proof.
  intros Hinv Hdrv Hrun.
  destruct (bread_slot _ _ _ _ _ _ _ _ Hinv (preserves_sync _ body depth me) Hrun)
    as (Hinv1 & i & b & -> & Hb & Hd & Hn & Hl & Hrc & Hv).
  specialize (Hv Hdrv).
  assert (holdingsleep me (lock b) = true) as Hh
    by (rewrite Hl; apply holdingsleep_taken).
  destruct (brelse_last me i st1 b Hinv1 Hb Hh)
    as (st2 & l' & E & Hinv2 & Hr2 & Hil & Hf & (b' & Hb' & Hc) & _).
  exists st2. split; [done|]. intros syn who Hno.
  unfold core in Hc. injection Hc as Hfl Hdv Hbn Hlk Hrf.
  assert (test_at st2 (ident dv bn) i = true) as Hid.
  { unfold test_at, ident. rewrite Hb', Hdv, Hbn, Hd, Hn, !Z.eqb_refl. done. }
  rewrite bread_spec, (bget_no_flush _ _ _ _ _ _ Hr2 Hno).
  rewrite (bget_scan_spec _ _ _ _ _ Hr2). cbn [first_match]. rewrite Hid.
  unfold take_hit. rewrite Hb', Hlk. cbn [locked Z.eqb].
  rewrite deref_store_eq by (by eexists).
  assert (valid (set_lock (mkLock 1 who)
                   (set_refcnt (wrap_uint (refcnt b' + 1)) b')) = true) as ->.
  { unfold valid. simpl. rewrite Hfl. exact Hv. }
  eauto.
Qed.

(** X9.  One holder at a time.  While the buffer that a [bread] of a block
    other than [(0, 0)] returned is held, a [bread] of the same block that
    does not flush first does not return: it has taken a second reference
    and sleeps on the lock of that buffer.  A [bread] of any other block
    that returns meanwhile returns another buffer and leaves the held one
    exactly as it is. *)
Theorem held_buffer_exclusive st body depth me dv bn p st1 t1 :
  reachable st ->
  (dv <> 0 \/ bn <> 0)%Z ->
  bread (sync body depth me) me dv bn st = Ret p st1 t1 ->
  forall syn who,
    isfull st1 <> 0%Z \/ (Z.of_nat (ndirty st1) < Z.of_nat NBUF - 3)%Z ->
    (exists st2 b2,
       bread syn who dv bn st1 = Stop (Blocked p) st2 [] /\
       deref st2 p = Some b2 /\ refcnt b2 = 2%Z /\ lock b2 = mkLock 1 me) /\
    (forall dv' bn' p' st2 tr,
       (dv' <> dv \/ bn' <> bn) ->
       bread syn who dv' bn' st1 = Ret p' st2 tr ->
       p' <> p /\ deref st2 p = deref st1 p).
Proof.
  intros Hinv%reachable_inv Hnz Hrun syn who Hno.
  destruct (bread_slot _ _ _ _ _ _ _ _ Hinv (preserves_sync _ body depth me) Hrun)
    as (Hinv1 & i & b & -> & Hb & Hd & Hn & Hl & Hrc & _).
  pose proof Hinv1 as ([l Hr] & Hheld & Hid & _).
  assert (test_at st1 (ident dv bn) i = true) as Hti.
  { unfold test_at, ident. rewrite Hb, Hd, Hn, !Z.eqb_refl. done. }
  split.
  - assert (first_match st1 (ident dv bn) l = Some i) as Hhit.
    { destruct (first_match st1 (ident dv bn) l) as [j|] eqn:Hf.
      - destruct (first_match_slot _ _ _ _ Hf) as (bj & Hbj & Hj).
        apply andb_true_iff in Hj as [Hjd Hjn].
        apply Z.eqb_eq in Hjd. apply Z.eqb_eq in Hjn.
        destruct (decide (j = i)) as [->|Hji]; [done|]. exfalso.
        destruct (Hid j i bj b Hji Hbj Hb) as [H1 H2]; [congruence..|].
        destruct Hnz; congruence.
      - rewrite first_match_None in Hf.
        rewrite (Hf i (ring_slot_elem _ _ _ _ Hr Hb)) in Hti. done. }
    rewrite bread_spec, (bget_no_flush _ _ _ _ _ _ Hr Hno).
    rewrite (bget_scan_spec _ _ _ _ _ Hr), Hhit. unfold take_hit.
    rewrite Hb, Hl. cbn [locked Z.eqb]. do 2 eexists. split; [done|].
    split; [apply (deref_store_eq st1 (Slot i)); by eexists|].
    simpl. by rewrite Hrc.
  - intros dv' bn' p' st2 tr Hne.
    rewrite bread_spec, (bget_no_flush _ _ _ _ _ _ Hr Hno).
    rewrite (bget_scan_spec _ _ _ _ _ Hr).
    assert (forall j q s t,
              (exists bj, slots st1 !! j = Some bj /\
                 (ident dv' bn' bj = true \/ unused bj = true)) ->
              (take_hit who j st1 = Ret q s t \/
               take_free who dv' bn' j st1 = Ret q s t) ->
              q = Slot j /\ j <> i /\ deref s (Slot i) = Some b /\
              is_Some (deref s q)) as Htake.
    { intros j q s t (bj & Hbj & Hwhy) Ht.
      assert (j <> i) as Hji.
      { intros ->. assert (bj = b) as -> by congruence.
        destruct Hwhy as [Hw|Hw].
        - apply andb_true_iff in Hw as [Hw1 Hw2].
          apply Z.eqb_eq in Hw1. apply Z.eqb_eq in Hw2.
          destruct Hne; congruence.
        - apply andb_true_iff in Hw as [Hw _]. apply Z.eqb_eq in Hw.
          congruence. }
      unfold take_hit, take_free in Ht. rewrite Hbj in Ht.
      destruct (locked (lock bj) =? 0)%Z; [|by destruct Ht].
      assert (exists x, q = Slot j /\ s = store (Slot j) x st1) as (x & -> & ->).
      { destruct Ht as [Ht|Ht]; injection Ht as <- <- _; eauto. }
      split; [done|]. split; [done|]. split.
      - rewrite deref_store_ne by congruence. done.
      - rewrite deref_store_eq by (by eexists). by eexists. }
    assert (forall q s t, bget_scan who dv' bn' st1 = Ret q s t ->
              q <> Slot i /\ deref s (Slot i) = Some b /\ is_Some (deref s q))
      as Hscan.
    { intros q s t. rewrite (bget_scan_spec _ _ _ _ _ Hr).
      destruct (first_match st1 (ident dv' bn') l) as [j|] eqn:Hf.
      - destruct (first_match_slot _ _ _ _ Hf) as (bj & Hbj & Hj). intros Ht.
        destruct (Htake j q s t) as (-> & Hji & Hs & Hq); [eauto|auto|].
        split; [congruence|done].
      - destruct (first_match st1 unused (rev l)) as [j|] eqn:Hu; [|done].
        destruct (first_match_slot _ _ _ _ Hu) as (bj & Hbj & Hj). intros Ht.
        destruct (Htake j q s t) as (-> & Hji & Hs & Hq); [eauto|auto|].
        split; [congruence|done]. }
    rewrite <- (bget_scan_spec _ _ _ _ _ Hr).
    destruct (bget_scan who dv' bn' st1) as [q s t|] eqn:Hs; [|done].
    destruct (Hscan q s t eq_refl) as (Hq & Hsi & [x Hx]). rewrite Hx.
    destruct (valid x); intros [= <- <- _].
    + split; [done|]. by rewrite Hsi.
    + split; [done|]. rewrite deref_store_ne by done. by rewrite Hsi.
Qed.

(** X10.  A buffer is released once.  After a [brelse] of a buffer on the
    list has returned, a second [brelse] of it, and a [bwrite] of it, by
    the same or by any other process, panic and leave the cache as it is:
    the lock is free, and nobody gets it back but through [bread]. *)
Theorem brelse_twice_panics me i st l st' tr :
  ring st l ->
  brelse me (Slot i) st = Ret tt st' tr ->
  forall who,
    brelse who (Slot i) st' = Stop (Panic "brelse") st' [] /\
    bwrite who (Slot i) st' = Stop (Panic "bwrite") st' [].
Proof.
  intros Hr Hrun who.
  destruct (slots st !! i) as [b|] eqn:Hb.
  2:{ unfold brelse in Hrun.
      by rewrite (bind_load_fault (Slot i) _ st Hb) in Hrun. }
  destruct (holdingsleep me (lock b)) eqn:Hh.
  2:{ by rewrite (brelse_panic me (Slot i) st b Hb Hh) in Hrun. }
  pose proof (ring_slot_elem _ _ _ _ Hr Hb) as Hil.
  apply list_elem_of_split in Hil as (l1 & l2 & ->).
  destruct (brelse_ring me i st l1 l2 b Hr Hb Hh)
    as (st2 & E & _ & _ & (b' & Hb' & Hc) & _).
  rewrite E in Hrun. injection Hrun as <- _.
  unfold core in Hc. injection Hc as _ _ _ Hlk _.
  assert (holdingsleep who (lock b') = false) as Hfree by (by rewrite Hlk).
  split.
  - by apply (brelse_panic who (Slot i) st2 b').
  - by rewrite (bwrite_spec who (Slot i) st2 b' Hb'), Hfree.
Qed.

Lemma first_match_app st P l1 l2 :
  first_match st P (l1 ++ l2)
  = match first_match st P l1 with
    | Some i => Some i
    | None => first_match st P l2
    end.
Proof.
  induction l1 as [|i l1 IH]; simpl; [done|]. by destruct (test_at st P i).
Qed.

(** X11.  Most recently released, last recycled.  On a cache with the
    invariant, once a [brelse] has dropped the last reference of a buffer,
    a [bget] of a block that is not cached takes that buffer only when
    there is no other buffer to take: every other buffer without reference
    and not dirty goes first. *)
Theorem released_buffer_goes_last st who i b st' tr me dv bn j st'' tr' :
  inv st ->
  slots st !! i = Some b ->
  brelse who (Slot i) st = Ret tt st' tr ->
  (forall k bk, slots st' !! k = Some bk -> ident dv bn bk = false) ->
  bget_scan me dv bn st' = Ret (Slot j) st'' tr' ->
  (j = i <->
   forall k bk, k <> i -> slots st' !! k = Some bk -> unused bk = false).
Proof.
  intros Hinv Hb Hrel Hmiss Hscan.
  destruct (holdingsleep who (lock b)) eqn:Hh.
  2:{ by rewrite (brelse_panic who (Slot i) st b Hb Hh) in Hrel. }
  destruct (brelse_last who i st b Hinv Hb Hh)
    as (st2 & l' & E & Hinv2 & Hr2 & Hil & _).
  rewrite E in Hrel. injection Hrel as <- _.
  rewrite (bget_scan_spec _ _ _ _ _ Hr2) in Hscan.
  assert (first_match st2 (ident dv bn) (i :: l') = None) as Hnone.
  { apply first_match_None. intros k Hk. unfold test_at.
    destruct (slots st2 !! k) as [bk|] eqn:Hbk; [|done]. by eapply Hmiss. }
  rewrite Hnone in Hscan.
  change (rev (i :: l')) with (rev l' ++ [i]) in Hscan.
  rewrite first_match_app in Hscan.
  assert (forall k s, take_free me dv bn k st2 = Ret (Slot j) s tr' -> k = j)
    as Htake.
  { intros k s. unfold take_free. destruct (slots st2 !! k); [|done].
    destruct (_ =? _)%Z; [|done]. by intros [= -> _]. }
  destruct (first_match st2 unused (rev l')) as [k|] eqn:Hf.
  - apply Htake in Hscan as ->.
    pose proof Hf as [Hjl Hju]%first_match_elem.
    apply list_elem_of_In, in_rev, list_elem_of_In in Hjl.
    split.
    + intros ->. done.
    + intros Hall. exfalso. unfold test_at in Hju.
      destruct (slots st2 !! j) as [bj|] eqn:Hbj; [|done].
      rewrite (Hall j bj) in Hju; [done| |done]. intros ->. done.
  - cbn [first_match] in Hscan.
    destruct (test_at st2 unused i); [|done].
    apply Htake in Hscan as <-. split; [|done]. intros _ k bk Hki Hbk.
    apply (proj1 (first_match_rev_None _ _ _)) in Hf.
    rewrite first_match_None in Hf.
    assert (k ∈ l') as Hkl.
    { pose proof (ring_slot_elem _ _ _ _ Hr2 Hbk) as [->|H]%elem_of_cons; done. }
    specialize (Hf k Hkl). unfold test_at in Hf. by rewrite Hbk in Hf.
Qed.

End Protocol.

(** ** Dirty buffers stay *)

Section Pinned.
Context {pf : Platform}.








(** One call of a collaborator on the buffer at [p]. *)
Lemma pinned_call st p x v e i b :
  deref st p = Some x ->
  touches p e = true ->
  slots st !! i = Some b -> dirty b = true ->
  existsb (touches (Slot i)) [e] = true \/
  exists b', slots (store p (set_flags v x) st) !! i = Some b' /\
             dirty b' = true /\ dev b' = dev b /\ blockno b' = blockno b.
Proof.
  intros Hx He Hb Hd. destruct (decide (p = Slot i)) as [->|Hp].
  - left. simpl. by rewrite He.
  - right. exists b.
    change (slots (store p (set_flags v x) st) !! i)
      with (deref (store p (set_flags v x) st) (Slot i)).
    by rewrite deref_store_ne.
Qed.

Lemma touches_same p b : touches p (EvIderw p b) = true.
Proof. simpl. by apply bool_decide_eq_true_2. Qed.


Lemma pinned_call_iderw p : pinned (call_iderw p).
Proof.
  intros st [] st' tr i b _ Hrun Hb Hd. destruct (deref st p) as [x|] eqn:Hx.
  - rewrite (call_iderw_eq _ _ _ Hx) in Hrun. injection Hrun as <- <-.
    eapply pinned_call; [done|apply touches_same|done|done].
  - unfold call_iderw in Hrun. by rewrite (bind_load_fault _ _ _ Hx) in Hrun.
Qed.








Lemma log_events_map st l :
  log_events st l
  = List.map (fun i => EvLogWrite (Slot i) (default zero_buf (slots st !! i)))
      (List.filter (test_at st dirty) l).
Proof.
  induction l as [|i l IH]; cbn [log_events List.filter List.map]; [done|].
  rewrite IH.
  assert (test_at st dirty i
          = match slots st !! i with Some b => dirty b | None => false end)
    as -> by done.
  destruct (slots st !! i) as [b|] eqn:Hb; [|done].
  destruct (dirty b); [|done]. simpl. by rewrite Hb.
Qed.

(** X13.  [logDirtyBuffer] hands the dirty buffers to the log in the order
    of the list, the most recently released first, each one as it was when
    [logDirtyBuffer] was called, and makes no other call. *)
Theorem logDirtyBuffer_in_list_order st l :
  ring st l ->
  trace (logDirtyBuffer st)
  = List.map (fun i => EvLogWrite (Slot i) (default zero_buf (slots st !! i)))
      (List.filter (test_at st dirty) l) /\
  length (trace (logDirtyBuffer st)) = ndirty st.
Proof.
  intros Hr. rewrite (logDirtyBuffer_spec _ _ Hr). cbn [trace].
  split; [apply log_events_map|].
  rewrite log_events_map, length_map, <- (ring_count _ _ Hr).
  clear Hr. induction l as [|i l IH]; simpl; [done|].
  destruct (test_at st dirty i); simpl; by rewrite IH.
Qed.

End Pinned.

(** ** The code with the lock is the code without it *)

Lemma calls_app l1 l2 : spin.calls (l1 ++ l2) = spin.calls l1 ++ spin.calls l2.
Proof.
  induction l1 as [|o l1 IH]; simpl; [done|]. destruct o; simpl; by rewrite ?IH.
Qed.

Lemma calls_map_Call h tr : spin.calls (List.map (spin.Call h) tr) = tr.
Proof. induction tr as [|e tr IH]; simpl; [done|]. by rewrite IH. Qed.

Lemma bind_ret_r {A} (m : M A) st : bind m (fun a => ret a) st = m st.
Proof.
  unfold bind, ret. destruct (m st) as [a st1 t1|h st1 t1]; simpl; [|done].
  by rewrite app_nil_r.
Qed.

Lemma bind_ret_tt (m : M unit) st : bind m (fun _ => ret tt) st = m st.
Proof.
  unfold bind, ret. destruct (m st) as [[] st1 t1|h st1 t1]; simpl; [|done].
  by rewrite app_nil_r.
Qed.

Lemma erases_ret {A} (a : A) : spin.erases (spin.kret a) (ret a).
Proof. intros k. simpl. by rewrite app_nil_r. Qed.

Lemma erases_bind {A B} (fk : spin.K A) (fm : M A)
    (gk : A -> spin.K B) (gm : A -> M B) :
  spin.erases fk fm -> (forall a, spin.erases (gk a) (gm a)) ->
  spin.erases (spin.kbind fk gk) (bind fm gm).
Proof.
  intros Hf Hg k. unfold spin.kbind, bind. specialize (Hf k).
  destruct (fk k) as [a k1|h k1], (fm (spin.mem k)) as [a' st1 t1|h' st1 t1];
    simpl in Hf; try done.
  - injection Hf as -> <- Ht. rewrite (Hg a' k1), Ht.
    by rewrite prepend_prepend.
  - injection Hf as -> <- Ht. simpl. by rewrite Ht.
Qed.

Lemma erases_ext {A} (fk : spin.K A) (fm fm' : M A) :
  (forall st, fm st = fm' st) -> spin.erases fk fm -> spin.erases fk fm'.
Proof. intros He Hf k. by rewrite <- He. Qed.

(** A step of the lock, or a note, before or after a piece of code. *)
Lemma erases_pre {A} (s : spin.K unit) (fk : spin.K A) (fm : M A) :
  spin.erases s (ret tt) -> spin.erases fk fm ->
  spin.erases (spin.kbind s (fun _ => fk)) fm.
Proof.
  intros Hs Hf. apply (erases_ext _ (bind (ret tt) (fun _ => fm))).
  - intros st. apply bind_ret.
  - apply erases_bind; [done|]. by intros _.
Qed.

Lemma erases_post (fk : spin.K unit) (fm : M unit) (s : spin.K unit) :
  spin.erases fk fm -> spin.erases s (ret tt) ->
  spin.erases (spin.kbind fk (fun _ => s)) fm.
Proof.
  intros Hf Hs. apply (erases_ext _ (bind fm (fun _ => ret tt))).
  - apply bind_ret_tt.
  - apply erases_bind; [done|]. by intros _.
Qed.

Lemma erases_lift {A} (m : M A) : spin.erases (spin.lift m) m.
Proof.
  intros k. unfold spin.lift.
  destruct (m (spin.mem k)) as [a st tr|h st tr]; simpl;
    by rewrite calls_app, calls_map_Call.
Qed.

Lemma erases_note o :
  (forall h, spin.calls [o h] = []) -> spin.erases (spin.note o) (ret tt).
Proof. intros H k. simpl. by rewrite calls_app, H. Qed.

Lemma erases_acquire : spin.erases spin.acquire (ret tt).
Proof. intros k. simpl. by rewrite calls_app. Qed.

Lemma erases_release : spin.erases spin.release (ret tt).
Proof. intros k. simpl. by rewrite calls_app. Qed.

Lemma erases_assign p w : spin.erases (spin.assign p w) (update p (snd w)).
Proof. apply erases_pre; [by apply erases_note|apply erases_lift]. Qed.

Lemma erases_isfull_is v :
  spin.erases (spin.isfull_is v) (modify (set_isfull v)).
Proof. apply erases_pre; [by apply erases_note|apply erases_lift]. Qed.

Lemma erases_acquiresleep me p :
  spin.erases (spin.acquiresleep me p) (acquiresleep me p).
Proof. apply erases_pre; [by apply erases_note|apply erases_lift]. Qed.

Section Erasure.
Context {pf : Platform}.

Lemma erases_binit_step i : spin.erases (spin.binit_step i) (binit_step i).
Proof.
  apply erases_bind; [apply erases_lift|]. intros h.
  apply erases_bind; [apply erases_assign|]. intros _.
  apply erases_bind; [apply erases_assign|]. intros _.
  apply erases_bind; [apply erases_assign|]. intros _.
  apply erases_bind; [apply erases_lift|]. intros h'.
  apply erases_bind; [apply erases_assign|]. intros _. apply erases_assign.
Qed.

Lemma erases_binit_loop todo : spin.erases (spin.binit_loop todo) (binit_loop todo).
Proof.
  induction todo as [|i todo IH]; simpl; [apply erases_ret|].
  apply erases_bind; [apply erases_binit_step|done].
Qed.

Lemma erases_binit : spin.erases spin.binit binit.
Proof.
  apply erases_pre; [by apply erases_note|].
  apply erases_bind; [apply erases_assign|]. intros _.
  apply erases_bind; [apply erases_assign|]. intros _.
  apply erases_binit_loop.
Qed.

Lemma erases_buffer_isfull_loop fuel : forall p cnt,
  spin.erases (spin.buffer_isfull_loop fuel p cnt) (buffer_isfull_loop fuel p cnt).
Proof.
  induction fuel as [|fuel IH]; intros p cnt; simpl; [apply erases_lift|].
  case_decide; [apply erases_ret|].
  apply erases_bind; [apply erases_lift|]. intros b. apply IH.
Qed.

Lemma erases_buffer_isfull : spin.erases spin.buffer_isfull buffer_isfull.
Proof.
  apply erases_pre; [apply erases_acquire|].
  apply erases_bind; [apply erases_lift|]. intros h.
  apply erases_bind; [apply erases_buffer_isfull_loop|]. intros cnt.
  apply erases_pre; [apply erases_release|].
  destruct (_ >=? _)%Z; apply erases_ret.
Qed.

Lemma erases_logDirtyBuffer_loop fuel : forall p cnt,
  spin.erases (spin.logDirtyBuffer_loop fuel p cnt)
    (logDirtyBuffer_loop fuel p cnt).
Proof.
  induction fuel as [|fuel IH]; intros p cnt; simpl; [apply erases_lift|].
  case_decide; [apply erases_ret|].
  apply erases_bind; [apply erases_lift|]. intros b.
  apply erases_bind.
  - destruct (dirty b); [|apply erases_ret].
    apply erases_bind; [apply erases_lift|]. intros _. apply erases_ret.
  - intros cnt'. apply erases_bind; [apply erases_lift|]. intros b'. apply IH.
Qed.

Lemma erases_logDirtyBuffer : spin.erases spin.logDirtyBuffer logDirtyBuffer.
Proof.
  apply erases_pre; [apply erases_acquire|].
  apply erases_bind; [apply erases_lift|]. intros h.
  apply (erases_ext _ (bind (logDirtyBuffer_loop (S NBUF) (next h) 0)
                          (fun cnt => ret cnt))); [apply bind_ret_r|].
  apply erases_bind; [apply erases_logDirtyBuffer_loop|]. intros cnt.
  apply erases_pre; [apply erases_release|apply erases_ret].
Qed.

Lemma erases_bget_cached me dv bn fuel : forall p,
  spin.erases (spin.bget_cached fuel me p dv bn) (bget_cached fuel me p dv bn).
Proof.
  induction fuel as [|fuel IH]; intros p; simpl; [apply erases_lift|].
  case_decide; [apply erases_ret|].
  apply erases_bind; [apply erases_lift|]. intros b.
  destruct (_ && _); [|apply IH].
  apply erases_bind; [apply erases_assign|]. intros _.
  apply erases_pre; [apply erases_release|].
  apply erases_bind; [apply erases_acquiresleep|]. intros _. apply erases_ret.
Qed.

Lemma erases_bget_recycle me dv bn fuel : forall p,
  spin.erases (spin.bget_recycle fuel me p dv bn)
    (bget_recycle fuel me p dv bn).
Proof.
  induction fuel as [|fuel IH]; intros p; simpl; [apply erases_lift|].
  case_decide; [apply erases_ret|].
  apply erases_bind; [apply erases_lift|]. intros b.
  destruct (_ && _); [|apply IH].
  do 4 (apply erases_bind; [apply erases_assign|]; intros _).
  apply erases_pre; [apply erases_release|].
  apply erases_bind; [apply erases_acquiresleep|]. intros _. apply erases_ret.
Qed.

Lemma erases_bget_scan me dv bn :
  spin.erases (spin.bget_scan me dv bn) (bget_scan me dv bn).
Proof.
  apply erases_pre; [apply erases_acquire|].
  apply erases_bind; [apply erases_lift|]. intros h.
  apply erases_bind; [apply erases_bget_cached|]. intros [b|]; [apply erases_ret|].
  apply erases_bind; [apply erases_lift|]. intros h'.
  apply erases_bind; [apply erases_bget_recycle|].
  intros [b|]; [apply erases_ret|apply erases_lift].
Qed.

Lemma erases_bget_flush ksync msync :
  spin.erases ksync msync ->
  spin.erases (spin.bget_flush ksync) (bget_flush msync).
Proof.
  intros Hs. apply erases_pre; [by apply erases_note|].
  apply erases_bind; [apply erases_lift|]. intros st.
  apply erases_bind.
  { destruct (_ =? _)%Z; [apply erases_buffer_isfull|apply erases_ret]. }
  intros full. destruct (_ && _); [|apply erases_ret].
  apply erases_pre; [apply erases_acquire|].
  apply erases_bind; [apply erases_isfull_is|]. intros _.
  apply erases_pre; [apply erases_release|].
  apply erases_bind; [apply erases_lift|]. intros _.
  apply erases_bind; [done|]. intros _.
  apply erases_pre; [apply erases_acquire|].
  apply erases_post; [apply erases_isfull_is|apply erases_release].
Qed.

Lemma erases_bget ksync msync me dv bn :
  spin.erases ksync msync ->
  spin.erases (spin.bget ksync me dv bn) (bget msync me dv bn).
Proof.
  intros Hs. apply erases_bind; [by apply erases_bget_flush|].
  intros _. apply erases_bget_scan.
Qed.

Lemma erases_bread ksync msync me dv bn :
  spin.erases ksync msync ->
  spin.erases (spin.bread ksync me dv bn) (bread msync me dv bn).
Proof.
  intros Hs. apply erases_bind; [by apply erases_bget|]. intros b.
  apply erases_bind; [apply erases_lift|]. intros bb.
  apply erases_bind; [|intros _; apply erases_ret].
  destruct (valid bb); [apply erases_ret|apply erases_lift].
Qed.

Lemma erases_bwrite me p : spin.erases (spin.bwrite me p) (bwrite me p).
Proof.
  apply erases_bind; [apply erases_lift|]. intros b.
  destruct (negb _); [apply erases_lift|].
  apply erases_bind; [apply erases_assign|]. intros _. apply erases_lift.
Qed.

Lemma erases_brelse me p : spin.erases (spin.brelse me p) (brelse me p).
Proof.
  apply erases_bind; [apply erases_lift|]. intros b.
  destruct (negb _); [apply erases_lift|].
  apply erases_bind; [apply erases_assign|]. intros _.
  apply erases_pre; [apply erases_acquire|].
  apply erases_bind; [apply erases_lift|]. intros b1.
  apply erases_bind; [apply erases_assign|]. intros _.
  apply erases_bind; [apply erases_lift|]. intros b2.
  apply erases_post; [|apply erases_release].
  destruct (_ =? _)%Z; [|apply erases_ret].
  apply erases_bind; [apply erases_lift|]. intros x.
  apply erases_bind; [apply erases_assign|]. intros _.
  apply erases_bind; [apply erases_lift|]. intros x'.
  apply erases_bind; [apply erases_assign|]. intros _.
  apply erases_bind; [apply erases_lift|]. intros h.
  do 2 (apply erases_bind; [apply erases_assign|]; intros _).
  apply erases_bind; [apply erases_lift|]. intros h'.
  apply erases_bind; [apply erases_assign|]. intros _. apply erases_assign.
Qed.

Lemma erases_run ksync msync me p :
  spin.erases ksync msync ->
  spin.erases (spin.run ksync me p) (run msync me p).
Proof.
  intros Hs. induction p as [|dv bn k IH|b k IH|b k IH|k IH|k IH|b k IH];
    simpl.
  - apply erases_ret.
  - apply erases_bind; [by apply erases_bread|done].
  - apply erases_bind; [apply erases_bwrite|done].
  - apply erases_bind; [apply erases_brelse|done].
  - apply erases_bind; [apply erases_logDirtyBuffer|done].
  - apply erases_bind; [apply erases_buffer_isfull|done].
  - apply erases_bind; [apply erases_lift|done].
Qed.

Lemma erases_sync body depth me :
  spin.erases (spin.sync body depth me) (sync body depth me).
Proof.
  induction depth as [|d IH]; simpl; [apply erases_lift|]. by apply erases_run.
Qed.

End Erasure.

(** ** The discipline of the pool lock *)

Lemma obeys_ret P Q {A} pre (post : A -> bool) a :
  post a = pre -> spin.obeys P Q pre post (spin.kret a).
Proof.
  intros H k Hk. exists []. simpl. rewrite app_nil_r. split; [done|].
  split; [constructor|]. by rewrite H.
Qed.

Lemma obeys_bind P Q {A B} pre (mid : A -> bool) (post : B -> bool)
    (fk : spin.K A) (gk : A -> spin.K B) :
  spin.obeys P Q pre mid fk -> (forall a, spin.obeys P Q (mid a) post (gk a)) ->
  spin.obeys P Q pre post (spin.kbind fk gk).
Proof.
  intros Hf Hg k Hk. unfold spin.kbind.
  destruct (Hf k Hk) as (n1 & E1 & F1 & P1).
  destruct (fk k) as [a k1|h k1]; simpl in *.
  - destruct (Hg a k1 P1) as (n2 & E2 & F2 & P2). exists (n1 ++ n2).
    rewrite E2, E1, app_assoc. split; [done|].
    split; [by apply Forall_app|done].
  - exists n1. done.
Qed.

(** A piece of the code without the lock, run with the lock as [pre]. *)
Lemma obeys_lift P Q {A} pre (post : A -> bool) (m : M A) :
  emits (fun e => P (spin.Call pre e)) m ->
  (forall st h st' tr, m st = Stop h st' tr -> Q h pre) ->
  (forall st a st' tr, m st = Ret a st' tr -> post a = pre) ->
  spin.obeys P Q pre post (spin.lift m).
Proof.
  intros He Hh Hr k Hk. unfold spin.lift. specialize (He (spin.mem k)).
  destruct (m (spin.mem k)) as [a st tr|h st tr] eqn:E; simpl in *;
    exists (List.map (spin.Call (spin.held k)) tr);
    (split; [done|]); (split; [rewrite Hk; by apply List.Forall_map|]).
  - rewrite Hk. by erewrite Hr.
  - rewrite Hk. by eapply Hh.
Qed.

Lemma obeys_calm P (Q : halt -> bool -> Prop) {A} pre (m : M A) :
  (forall b, Q Fault b) ->
  calm m -> (forall st, trace (m st) = []) ->
  spin.obeys P Q pre (fun _ => pre) (spin.lift m).
Proof.
  intros HQ Hc Ht. apply obeys_lift; [by apply emits_nil| |done].
  intros st h st' tr E. by rewrite (Hc _ _ _ _ E).
Qed.

Lemma trace_load p st : trace (load p st) = [].
Proof. unfold load. by destruct (deref st p). Qed.

Lemma trace_update p g st : trace (update p g st) = [].
Proof.
  unfold update. rewrite trace_bind. unfold load.
  by destruct (deref st p).
Qed.

Lemma obeys_load P (Q : halt -> bool -> Prop) pre p :
  (forall b, Q Fault b) ->
  spin.obeys P Q pre (fun _ => pre) (spin.load p).
Proof.
  intros HQ. apply obeys_calm; [done|apply calm_load|apply trace_load].
Qed.

Lemma obeys_note (P : spin.op -> Prop) Q pre o :
  P (o pre) -> spin.obeys P Q pre (fun _ => pre) (spin.note o).
Proof.
  intros H k Hk. exists [o pre]. simpl. rewrite Hk. split; [done|].
  split; [by constructor|done].
Qed.

Lemma obeys_acquire (P : spin.op -> Prop) Q pre :
  P (spin.Acquire pre) -> spin.obeys P Q pre (fun _ => true) spin.acquire.
Proof.
  intros H k Hk. exists [spin.Acquire pre]. simpl. rewrite Hk.
  split; [done|]. split; [by constructor|done].
Qed.

Lemma obeys_release (P : spin.op -> Prop) Q pre :
  P (spin.Release pre) -> spin.obeys P Q pre (fun _ => false) spin.release.
Proof.
  intros H k Hk. exists [spin.Release pre]. simpl. rewrite Hk.
  split; [done|]. split; [by constructor|done].
Qed.

Lemma obeys_assign (P : spin.op -> Prop) (Q : halt -> bool -> Prop) pre p w :
  (forall b, Q Fault b) ->
  P (spin.Store pre p (fst w)) ->
  spin.obeys P Q pre (fun _ => pre) (spin.assign p w).
Proof.
  intros HQ H. eapply obeys_bind; [by apply obeys_note|]. intros ?.
  apply obeys_calm; [done|apply calm_update|apply trace_update].
Qed.

Lemma halt_ok_Fault b : spin.halt_ok Fault b.
Proof. done. Qed.

Section Discipline.
Context {pf : Platform}.

Lemma calm_call_iderw p : calm (call_iderw p).
Proof.
  intros st h st' tr. destruct (deref st p) as [b|] eqn:Hb.
  - by rewrite (call_iderw_eq _ _ _ Hb).
  - unfold call_iderw. rewrite (bind_load_fault _ _ _ Hb). by intros [= <- _ _].
Qed.

Lemma calm_call_log_write p : calm (call_log_write p).
Proof.
  intros st h st' tr. destruct (deref st p) as [b|] eqn:Hb.
  - by rewrite (call_log_write_eq _ _ _ Hb).
  - unfold call_log_write. rewrite (bind_load_fault _ _ _ Hb).
    by intros [= <- _ _].
Qed.

Lemma emits_call_iderw (P : event -> Prop) p :
  (forall b, P (EvIderw p b)) -> emits P (call_iderw p).
Proof.
  intros HP. apply emits_bind; [apply emits_load|]. intros b.
  apply emits_bind; [by apply emits_emit|]. intros ?. apply emits_update.
Qed.


Lemma ok_load pre p :
  spin.obeys spin.op_ok spin.halt_ok pre (fun _ => pre) (spin.load p).
Proof. by apply obeys_load. Qed.

Lemma ok_assign_locked p w :
  spin.obeys spin.op_ok spin.halt_ok true (fun _ => true) (spin.assign p w).
Proof.
  apply obeys_assign; [done|]. simpl. by destruct (fst w).
Qed.

Lemma ok_acquiresleep me p :
  spin.obeys spin.op_ok spin.halt_ok false (fun _ => false) (spin.acquiresleep me p).
Proof.
  eapply obeys_bind; [by apply obeys_note|]. intros ?.
  apply obeys_lift; [apply emits_acquiresleep| |done].
  intros st h st' tr. destruct (deref st p) as [b|] eqn:Hb.
  - rewrite (acquiresleep_eq _ _ _ _ Hb). destruct (_ =? _)%Z; [done|].
    by intros [= <- _ _].
  - unfold acquiresleep. rewrite (bind_load_fault _ _ _ Hb).
    by intros [= <- _ _].
Qed.

Lemma ok_panic {A} pre (post : A -> bool) msg :
  pre = String.eqb msg "bget: no buffers" ->
  spin.obeys spin.op_ok spin.halt_ok pre post (spin.panic msg).
Proof.
  intros H. apply obeys_lift; [by apply emits_nil| |done].
  by intros st h st' tr [= <- _ _].
Qed.

Lemma ok_stop {A} pre (post : A -> bool) :
  spin.obeys spin.op_ok spin.halt_ok pre post (spin.lift (stop Diverge)).
Proof.
  apply obeys_lift; [by apply emits_nil| |done].
  by intros st h st' tr [= <- _ _].
Qed.

Lemma ok_buffer_isfull_loop fuel : forall p cnt,
  spin.obeys spin.op_ok spin.halt_ok true (fun _ => true) (spin.buffer_isfull_loop fuel p cnt).
Proof.
  induction fuel as [|fuel IH]; intros p cnt; simpl; [apply ok_stop|].
  case_decide; [by apply obeys_ret|].
  eapply obeys_bind; [apply ok_load|]. intros b. apply IH.
Qed.

Lemma ok_buffer_isfull :
  spin.obeys spin.op_ok spin.halt_ok false (fun _ => false) spin.buffer_isfull.
Proof.
  eapply obeys_bind; [by apply obeys_acquire|]. intros ?.
  eapply obeys_bind; [apply ok_load|]. intros h.
  eapply obeys_bind; [apply ok_buffer_isfull_loop|]. intros cnt.
  eapply obeys_bind; [by apply obeys_release|]. intros ?.
  destruct (_ >=? _)%Z; by apply obeys_ret.
Qed.

Lemma ok_call_log_write pre p :
  spin.obeys spin.op_ok spin.halt_ok pre (fun _ => pre) (spin.lift (call_log_write p)).
Proof.
  apply obeys_lift; [by apply emits_call_log_write| |done].
  intros st h st' tr E. by rewrite (calm_call_log_write _ _ _ _ _ E).
Qed.

Lemma ok_call_iderw p :
  spin.obeys spin.op_ok spin.halt_ok false (fun _ => false) (spin.lift (call_iderw p)).
Proof.
  apply obeys_lift; [by apply emits_call_iderw| |done].
  intros st h st' tr E. by rewrite (calm_call_iderw _ _ _ _ _ E).
Qed.

Lemma ok_logDirtyBuffer_loop fuel : forall p cnt,
  spin.obeys spin.op_ok spin.halt_ok true (fun _ => true) (spin.logDirtyBuffer_loop fuel p cnt).
Proof.
  induction fuel as [|fuel IH]; intros p cnt; simpl; [apply ok_stop|].
  case_decide; [by apply obeys_ret|].
  eapply obeys_bind; [apply ok_load|]. intros b.
  eapply (obeys_bind _ _ _ (fun _ => true)).
  - destruct (dirty b); [|by apply obeys_ret].
    eapply obeys_bind; [apply ok_call_log_write|]. intros ?.
    by apply obeys_ret.
  - intros cnt'. eapply obeys_bind; [apply ok_load|]. intros b'. apply IH.
Qed.

Lemma ok_logDirtyBuffer :
  spin.obeys spin.op_ok spin.halt_ok false (fun _ => false) spin.logDirtyBuffer.
Proof.
  eapply obeys_bind; [by apply obeys_acquire|]. intros ?.
  eapply obeys_bind; [apply ok_load|]. intros h.
  eapply obeys_bind; [apply ok_logDirtyBuffer_loop|]. intros cnt.
  eapply obeys_bind; [by apply obeys_release|]. intros ?.
  by apply obeys_ret.
Qed.

Lemma ok_bget_cached me dv bn fuel : forall p,
  spin.obeys spin.op_ok spin.halt_ok true spin.taken (spin.bget_cached fuel me p dv bn).
Proof.
  induction fuel as [|fuel IH]; intros p; simpl; [apply ok_stop|].
  case_decide; [by apply obeys_ret|].
  eapply obeys_bind; [apply ok_load|]. intros b.
  destruct (_ && _); [|apply IH].
  eapply obeys_bind; [apply ok_assign_locked|]. intros ?.
  eapply obeys_bind; [by apply obeys_release|]. intros ?.
  eapply obeys_bind; [apply ok_acquiresleep|]. intros ?.
  by apply obeys_ret.
Qed.

Lemma ok_bget_recycle me dv bn fuel : forall p,
  spin.obeys spin.op_ok spin.halt_ok true spin.taken (spin.bget_recycle fuel me p dv bn).
Proof.
  induction fuel as [|fuel IH]; intros p; simpl; [apply ok_stop|].
  case_decide; [by apply obeys_ret|].
  eapply obeys_bind; [apply ok_load|]. intros b.
  destruct (_ && _); [|apply IH].
  do 4 (eapply obeys_bind; [apply ok_assign_locked|]; intros ?).
  eapply obeys_bind; [by apply obeys_release|]. intros ?.
  eapply obeys_bind; [apply ok_acquiresleep|]. intros ?.
  by apply obeys_ret.
Qed.

Lemma ok_bget_scan me dv bn :
  spin.obeys spin.op_ok spin.halt_ok false (fun _ => false) (spin.bget_scan me dv bn).
Proof.
  eapply obeys_bind; [by apply obeys_acquire|]. intros ?.
  eapply obeys_bind; [apply ok_load|]. intros h.
  eapply obeys_bind; [apply ok_bget_cached|].
  intros [b|]; [by apply obeys_ret|].
  eapply obeys_bind; [apply ok_load|]. intros h'.
  eapply obeys_bind; [apply ok_bget_recycle|].
  intros [b|]; [by apply obeys_ret|by apply ok_panic].
Qed.

Lemma ok_isfull_is v :
  spin.obeys spin.op_ok spin.halt_ok true (fun _ => true) (spin.isfull_is v).
Proof.
  eapply obeys_bind; [by apply obeys_note|]. intros ?.
  apply obeys_calm; [done| |done]. by intros st h st' tr.
Qed.

Lemma ok_bget_flush ksync :
  spin.obeys spin.op_ok spin.halt_ok false (fun _ => false) ksync ->
  spin.obeys spin.op_ok spin.halt_ok false (fun _ => false) (spin.bget_flush ksync).
Proof.
  intros Hs. eapply obeys_bind; [by apply obeys_note|]. intros ?.
  eapply (obeys_bind _ _ _ (fun _ => false)).
  { apply obeys_calm; [done| |done]. by intros s h s' tr. }
  intros st. eapply (obeys_bind _ _ _ (fun _ => false)).
  { destruct (_ =? _)%Z; [apply ok_buffer_isfull|by apply obeys_ret]. }
  intros full. destruct (_ && _); [|by apply obeys_ret].
  eapply obeys_bind; [by apply obeys_acquire|]. intros ?.
  eapply obeys_bind; [apply ok_isfull_is|]. intros ?.
  eapply obeys_bind; [by apply obeys_release|]. intros ?.
  eapply (obeys_bind _ _ _ (fun _ => false)).
  { apply obeys_lift; [by apply emits_emit|by intros s h s' tr|done]. }
  intros ?. eapply obeys_bind; [exact Hs|]. intros ?.
  eapply obeys_bind; [by apply obeys_acquire|]. intros ?.
  eapply obeys_bind; [apply ok_isfull_is|]. intros ?.
  by apply obeys_release.
Qed.

Lemma ok_bread ksync me dv bn :
  spin.obeys spin.op_ok spin.halt_ok false (fun _ => false) ksync ->
  spin.obeys spin.op_ok spin.halt_ok false (fun _ => false) (spin.bread ksync me dv bn).
Proof.
  intros Hs. eapply (obeys_bind _ _ _ (fun _ => false)).
  { eapply obeys_bind; [by apply ok_bget_flush|]. intros ?.
    apply ok_bget_scan. }
  intros b. eapply obeys_bind; [apply ok_load|]. intros bb.
  eapply (obeys_bind _ _ _ (fun _ => false)); [|intros ?; by apply obeys_ret].
  destruct (valid bb); [by apply obeys_ret|apply ok_call_iderw].
Qed.

Lemma ok_bwrite me p :
  spin.obeys spin.op_ok spin.halt_ok false (fun _ => false) (spin.bwrite me p).
Proof.
  eapply obeys_bind; [apply ok_load|]. intros b.
  destruct (negb _); [by apply ok_panic|].
  eapply obeys_bind; [by apply obeys_assign|]. intros ?.
  apply ok_call_iderw.
Qed.

Lemma ok_brelse me p :
  spin.obeys spin.op_ok spin.halt_ok false (fun _ => false) (spin.brelse me p).
Proof.
  eapply obeys_bind; [apply ok_load|]. intros b.
  destruct (negb _); [by apply ok_panic|].
  eapply obeys_bind; [by apply obeys_assign|]. intros ?.
  eapply obeys_bind; [by apply obeys_acquire|]. intros ?.
  eapply obeys_bind; [apply ok_load|]. intros b1.
  eapply obeys_bind; [apply ok_assign_locked|]. intros ?.
  eapply obeys_bind; [apply ok_load|]. intros b2.
  eapply (obeys_bind _ _ _ (fun _ => true)); [|intros ?; by apply obeys_release].
  destruct (_ =? _)%Z; [|by apply obeys_ret].
  eapply obeys_bind; [apply ok_load|]. intros x.
  eapply obeys_bind; [apply ok_assign_locked|]. intros ?.
  eapply obeys_bind; [apply ok_load|]. intros x'.
  eapply obeys_bind; [apply ok_assign_locked|]. intros ?.
  eapply obeys_bind; [apply ok_load|]. intros h.
  do 2 (eapply obeys_bind; [apply ok_assign_locked|]; intros ?).
  eapply obeys_bind; [apply ok_load|]. intros h'.
  eapply obeys_bind; [apply ok_assign_locked|]. intros ?.
  apply ok_assign_locked.
Qed.

Lemma ok_run ksync me p :
  spin.obeys spin.op_ok spin.halt_ok false (fun _ => false) ksync ->
  spin.obeys spin.op_ok spin.halt_ok false (fun _ => false) (spin.run ksync me p).
Proof.
  intros Hs. induction p as [|dv bn k IH|b k IH|b k IH|k IH|k IH|b k IH];
    simpl.
  - by apply obeys_ret.
  - eapply obeys_bind; [by apply ok_bread|done].
  - eapply obeys_bind; [apply ok_bwrite|done].
  - eapply obeys_bind; [apply ok_brelse|done].
  - eapply obeys_bind; [apply ok_logDirtyBuffer|done].
  - eapply obeys_bind; [apply ok_buffer_isfull|done].
  - eapply obeys_bind; [apply ok_call_log_write|done].
Qed.

Lemma ok_sync body depth me :
  spin.obeys spin.op_ok spin.halt_ok false (fun _ => false) (spin.sync body depth me).
Proof.
  induction depth as [|d IH]; simpl; [apply ok_stop|]. by apply ok_run.
Qed.

(** X14.  The discipline of [bcache.lock].  The file with its [acquire]
    and [release] calls computes what the file without them computes.
    Whatever the cache and whatever a client does with the five functions,
    starting with the lock free: the lock is taken only when free and
    released only when held; no process goes to sleep on the lock of a
    buffer, calls [sync()] or calls the driver with the lock held; every
    store to a link, a reference count, an identity or the guard is made
    with the lock held, while the test of the guard that opens [bget] is
    made with the lock free, so that test and store are two critical
    sections and not one; a call that returns returns with the lock free;
    and of the ways a call can end otherwise, the panic of [bget] is with
    the lock held, the panics of [bwrite] and [brelse] and the sleep on a
    buffer are without it. *)
Theorem pool_lock_discipline body depth me p k :
  spin.held k = false ->
  let r := spin.run (spin.sync body depth me) me p k in
  spin.view r
  = prepend (spin.calls (spin.ops k))
      (run (sync body depth me) me p (spin.mem k)) /\
  exists new,
    spin.ops (spin.kfinal r) = spin.ops k ++ new /\
    Forall spin.op_ok new /\
    match r with
    | spin.Ok _ k' => spin.held k' = false
    | spin.Halt h k' => spin.halt_ok h (spin.held k')
    end.
Proof.
  intros Hk r. split.
  - apply erases_run, erases_sync.
  - exact (ok_run _ me p (ok_sync body depth me) k Hk).
Qed.

Lemma under_logDirtyBuffer_loop fuel : forall p cnt,
  spin.obeys spin.under_lock (fun _ _ => True) true (fun _ => true) (spin.logDirtyBuffer_loop fuel p cnt).
Proof.
  induction fuel as [|fuel IH]; intros p cnt; simpl.
  { apply obeys_lift; [by apply emits_nil|done|done]. }
  case_decide; [by apply obeys_ret|].
  eapply obeys_bind; [by apply obeys_load|]. intros b.
  eapply (obeys_bind _ _ _ (fun _ => true)).
  - destruct (dirty b); [|by apply obeys_ret].
    eapply (obeys_bind _ _ _ (fun _ => true)); [|intros ?; by apply obeys_ret].
    apply obeys_lift; [|done|done].
    apply emits_call_log_write. intros x. simpl. eauto.
  - intros cnt'. eapply obeys_bind; [by apply obeys_load|]. intros b'.
    apply IH.
Qed.

Lemma boot_time_assign p w :
  spin.obeys spin.unlocked_store (fun _ _ => True) false (fun _ => false) (spin.assign p w).
Proof. by apply obeys_assign. Qed.

Lemma boot_time_binit_loop todo :
  spin.obeys spin.unlocked_store (fun _ _ => True) false (fun _ => false) (spin.binit_loop todo).
Proof.
  induction todo as [|i todo IH]; simpl; [by apply obeys_ret|].
  eapply (obeys_bind _ _ _ (fun _ => false)); [|done].
  eapply obeys_bind; [by apply obeys_load|]. intros h.
  do 3 (eapply obeys_bind; [apply boot_time_assign|]; intros ?).
  eapply obeys_bind; [by apply obeys_load|]. intros h'.
  eapply obeys_bind; [apply boot_time_assign|]. intros ?.
  apply boot_time_assign.
Qed.

(** X15.  The two places where the file does not follow the rule.
    [logDirtyBuffer] makes every one of its [log_write] calls with
    [bcache.lock] held, and returns with the lock free.  [binit] never
    takes the lock: after [initlock] it makes all its stores, links
    included, with the lock free, and calls nothing. *)
Theorem calls_and_stores_off_the_rule k :
  spin.held k = false ->
  (exists new,
     spin.ops (spin.kfinal (spin.logDirtyBuffer k)) = spin.ops k ++ new /\
     (forall h e, spin.Call h e ∈ new ->
        h = true /\ exists q b, e = EvLogWrite q b) /\
     spin.view (spin.logDirtyBuffer k)
     = prepend (spin.calls (spin.ops k)) (logDirtyBuffer (spin.mem k)) /\
     (forall n k', spin.logDirtyBuffer k = spin.Ok n k' ->
        spin.held k' = false)) /\
  (exists new,
     spin.ops (spin.kfinal (spin.binit k)) = spin.ops k ++ spin.Initlock :: new /\
     (forall o, o ∈ new -> exists p f, o = spin.Store false p f) /\
     spin.view (spin.binit k)
     = prepend (spin.calls (spin.ops k)) (binit (spin.mem k))).
Proof.
  intros Hk. split.
  - assert (spin.obeys spin.under_lock (fun _ _ => True) false (fun _ => false) spin.logDirtyBuffer) as H.
    { eapply obeys_bind; [by apply obeys_acquire|]. intros ?.
      eapply obeys_bind; [by apply obeys_load|]. intros h.
      eapply obeys_bind; [apply under_logDirtyBuffer_loop|]. intros cnt.
      eapply obeys_bind; [by apply obeys_release|]. intros ?.
      by apply obeys_ret. }
    destruct (H k Hk) as (new & E & F & P). exists new. split; [done|].
    split; [|split].
    + intros h e He. rewrite Forall_forall in F. exact (F _ He).
    + apply erases_logDirtyBuffer.
    + intros n k' E'. by rewrite E' in P.
  - assert (spin.obeys spin.unlocked_store (fun _ _ => True) false (fun _ => false)
              (spin.kbind (spin.assign Head (spin.prev_is Head)) (fun _ =>
                 spin.kbind (spin.assign Head (spin.next_is Head)) (fun _ =>
                   spin.binit_loop (seq 0 NBUF))))) as H.
    { do 2 (eapply obeys_bind; [apply boot_time_assign|]; intros ?).
      apply boot_time_binit_loop. }
    unfold spin.binit, spin.kbind at 1. simpl.
    set (k1 := spin.mkKernel _ _ _).
    destruct (H k1 Hk) as (new & E & F & _). exists new.
    split; [|split].
    + rewrite E. unfold k1. simpl. by rewrite <- app_assoc.
    + intros o Ho. rewrite Forall_forall in F. specialize (F o Ho).
      destruct o; simpl in F; try done. subst. eauto.
    + pose proof (erases_binit k) as Hb.
      unfold spin.binit, spin.kbind at 1 in Hb. simpl in Hb. exact Hb.
Qed.

End Discipline.

(** ** The further properties on the small pool *)

Section Trials.
#[local] Existing Instance tiny.

Lemma tiny_iderw_valid (x : buf) : Z.land (iderw x) B_VALID <> 0%Z.
Proof.
  simpl. intros H. apply (f_equal (fun z => Z.testbit z 1)) in H.
  rewrite !Z.land_spec, Z.lor_spec in H. simpl in H.
  by rewrite orb_true_r in H.
Qed.

Lemma binit_threads_pool_witness :
  length (slots scrap) = NBUF /\
  exists st',
    binit scrap = Ret tt st' [] /\
    next (head st') = Slot 4 /\
    prev (head st') = Slot 0 /\
    slots st' !! 0 = Some (mkBuf 7 3 9 (mkLock 0 0) 2 (Slot 1) Head) /\
    slots st' !! 4 = Some (mkBuf 7 3 9 (mkLock 0 0) 2 Head (Slot 3)).
Proof.
  assert (length (slots scrap) = NBUF) as Hlen by reflexivity.
  split; [exact Hlen|].
  destruct (binit_threads_pool scrap Hlen)
    as (st' & E & _ & Hn & Hp & _ & Hs).
  exists st'. split; [exact E|]. split; [exact Hn|]. split; [exact Hp|].
  split.
  - exact (Hs 0 (mkBuf 7 3 9 (mkLock 1 4) 2 Null (Slot 9)) eq_refl).
  - exact (Hs 4 (mkBuf 7 3 9 (mkLock 1 4) 2 Null (Slot 9)) eq_refl).
Defined.

Lemma reachable_list_intact_witness :
  reachable one_held /\
  exists l,
    l ≡ₚ seq 0 NBUF /\
    chain_next one_held (next (head one_held)) l /\
    chain_prev one_held (prev (head one_held)) (rev l).
Proof.
  split; [apply reachable_one_held|].
  destruct (reachable_list_intact one_held reachable_one_held)
    as (l & H1 & H2 & H3 & _).
  exists l. split; [exact H1|]. split; [exact H2|exact H3].
Defined.

Lemma brelse_moves_to_head_witness :
  ring one_held ([4; 3; 2; 1] ++ 0 :: []) /\
  slots one_held !! 0 = Some (mkBuf 2 1 10 (mkLock 1 7) 1 (Slot 1) Head) /\
  exists st',
    brelse 7 (Slot 0) one_held = Ret tt st' [] /\
    next (head st') = Slot 0 /\
    chain_next st' (next (head st')) [0; 4; 3; 2; 1].
Proof.
  assert (ring one_held ([4; 3; 2; 1] ++ 0 :: [])) as Hr
    by (apply ring_check_sound; vm_compute; reflexivity).
  assert (slots one_held !! 0
          = Some (mkBuf 2 1 10 (mkLock 1 7) 1 (Slot 1) Head)) as Hb
    by (vm_compute; reflexivity).
  split; [exact Hr|]. split; [exact Hb|].
  destruct (brelse_moves_to_head 7 0 one_held [4; 3; 2; 1] [] _ Hr Hb eq_refl)
    as (st' & E & Hn & Hc & _).
  exists st'. split; [exact E|]. split; [exact (Hn eq_refl)|exact Hc].
Defined.

Lemma order_changes_in_brelse_only_witness :
  ring one_dirty [0; 4; 3; 2; 1] /\
  let o := bread (sync Done 1 7) 7 1 12 one_dirty in
  o = Ret (Slot 1) (final o) (trace o) /\
  ring (final o) [0; 4; 3; 2; 1].
Proof.
  assert (ring one_dirty [0; 4; 3; 2; 1]) as Hr
    by (apply ring_check_sound; vm_compute; reflexivity).
  split; [exact Hr|]. intros o.
  assert (o = Ret (Slot 1) (final o) (trace o)) as E
    by (vm_compute; reflexivity).
  split; [exact E|].
  destruct (order_changes_in_brelse_only one_dirty _ Hr) as (_ & H & _).
  apply (H (sync Done 1 7) 7%Z 1%Z 12%Z (Slot 1) (final o) (trace o));
    [right; vm_compute; reflexivity|exact E].
Defined.

Lemma bread_returns_locked_witness :
  let o := bread (sync Done 1 7) 7 1 10 boot in
  o = Ret (Slot 0) (final o) (trace o) /\
  exists i b,
    Slot 0 = Slot i /\
    deref (final o) (Slot 0) = Some b /\
    dev b = 1%Z /\ blockno b = 10%Z /\ lock b = mkLock 1 7 /\
    valid b = true.
Proof.
  intros o.
  assert (o = Ret (Slot 0) (final o) (trace o)) as E
    by (vm_compute; reflexivity).
  split; [exact E|].
  destruct (bread_returns_locked _ _ _ _ _ _ _ _ E)
    as (i & b & Hp & Hb & Hd & Hn & Hl & _ & Hv & _).
  exists i, b. split; [exact Hp|]. split; [exact Hb|]. split; [exact Hd|].
  split; [exact Hn|]. split; [exact Hl|]. exact (Hv tiny_iderw_valid).
Defined.

Lemma iderw_only_locked_witness :
  EvIderw (Slot 0) (mkBuf 0 1 10 (mkLock 1 7) 1 (Slot 1) Head)
    ∈ trace (run (sync Done 1 7) 7 (hold 10 Done) boot) /\
  holdingsleep 7 (mkLock 1 7) = true.
Proof.
  assert (EvIderw (Slot 0) (mkBuf 0 1 10 (mkLock 1 7) 1 (Slot 1) Head)
            ∈ trace (run (sync Done 1 7) 7 (hold 10 Done) boot)) as He.
  { apply list_elem_of_In. vm_compute. left. reflexivity. }
  split; [exact He|].
  exact (proj1 (iderw_only_locked Done 1 7 (hold 10 Done) boot _ _ He)).
Defined.

Lemma guard_set_only_in_flush_witness :
  isfull two_dirty = 0%Z /\
  bget (sync (DoBrelse (Slot 0) Done) 1 7) 7 1 12 two_dirty
  = Stop (Panic "brelse") (set_isfull 1 two_dirty) [EvSync] /\
  isfull (set_isfull 1 two_dirty) = 1%Z.
Proof.
  assert (ring two_dirty [1; 0; 4; 3; 2]) as Hr
    by (apply ring_check_sound; vm_compute; reflexivity).
  destruct (guard_set_only_in_flush (DoBrelse (Slot 0) Done) 1 7)
    as (_ & H2 & H3).
  split; [exact (H2 two_dirty reachable_two_dirty)|].
  destruct (H3 two_dirty _ 1%Z 12%Z (Panic "brelse") (set_isfull 1 two_dirty)
              [] Hr ltac:(vm_compute; reflexivity)
              ltac:(vm_compute; discriminate)
              ltac:(vm_compute; reflexivity)) as (E & H1 & _).
  split; [exact E|exact H1].
Defined.

Lemma bread_brelse_bread_witness :
  inv boot /\
  let o := bread (sync Done 1 7) 7 1 10 boot in
  o = Ret (Slot 0) (final o) (trace o) /\
  exists st2,
    brelse 7 (Slot 0) (final o) = Ret tt st2 [] /\
    exists st3, bread (sync Done 1 8) 8 1 10 st2 = Ret (Slot 0) st3 [].
Proof.
  split; [apply inv_boot|]. intros o.
  assert (o = Ret (Slot 0) (final o) (trace o)) as E
    by (vm_compute; reflexivity).
  split; [exact E|].
  destruct (bread_brelse_bread boot Done 1 7 1 10 _ _ _
              inv_boot tiny_iderw_valid E) as (st2 & E2 & H).
  exists st2. split; [exact E2|].
  apply (H (sync Done 1 8) 8%Z). right.
  assert (st2 = final (brelse 7 (Slot 0) (final o))) as ->
    by (by rewrite E2).
  vm_compute. reflexivity.
Defined.

Lemma held_buffer_exclusive_witness :
  reachable boot /\
  let o := bread (sync Done 1 7) 7 1 10 boot in
  o = Ret (Slot 0) (final o) (trace o) /\
  exists st2 b2,
    bread (sync Done 1 8) 8 1 10 (final o) = Stop (Blocked (Slot 0)) st2 [] /\
    deref st2 (Slot 0) = Some b2 /\ refcnt b2 = 2%Z /\ lock b2 = mkLock 1 7.
Proof.
  split; [apply reach_boot|]. intros o.
  assert (o = Ret (Slot 0) (final o) (trace o)) as E
    by (vm_compute; reflexivity).
  split; [exact E|].
  destruct (held_buffer_exclusive boot Done 1 7 1 10 _ _ _ reach_boot
              ltac:(left; discriminate) E (sync Done 1 8) 8%Z) as [H _].
  - right. vm_compute. reflexivity.
  - exact H.
Defined.

Lemma brelse_twice_panics_witness :
  ring one_held [4; 3; 2; 1; 0] /\
  let o := brelse 7 (Slot 0) one_held in
  o = Ret tt (final o) (trace o) /\
  brelse 7 (Slot 0) (final o) = Stop (Panic "brelse") (final o) [] /\
  bwrite 7 (Slot 0) (final o) = Stop (Panic "bwrite") (final o) [].
Proof.
  assert (ring one_held [4; 3; 2; 1; 0]) as Hr
    by (apply ring_check_sound; vm_compute; reflexivity).
  split; [exact Hr|]. intros o.
  assert (o = Ret tt (final o) (trace o)) as E by (vm_compute; reflexivity).
  split; [exact E|].
  exact (brelse_twice_panics 7 0 one_held _ _ _ Hr E 7%Z).
Defined.

Lemma released_buffer_goes_last_witness :
  inv one_held /\
  let o := brelse 7 (Slot 0) one_held in
  o = Ret tt (final o) (trace o) /\
  (exists st'', bget_scan 7 1 15 (final o) = Ret (Slot 1) st'' []) /\
  ~ (forall k bk,
       k <> 0 -> slots (final o) !! k = Some bk -> unused bk = false).
Proof.
  pose proof (reachable_inv _ reachable_one_held) as Hinv.
  split; [exact Hinv|]. intros o.
  assert (o = Ret tt (final o) (trace o)) as E by (vm_compute; reflexivity).
  split; [exact E|].
  assert (bget_scan 7 1 15 (final o)
          = Ret (Slot 1) (final (bget_scan 7 1 15 (final o))) []) as Es
    by (vm_compute; reflexivity).
  split; [eexists; exact Es|].
  assert (1 = 0 <->
          forall k bk,
            k <> 0 -> slots (final o) !! k = Some bk -> unused bk = false)
    as Hiff.
  { apply (released_buffer_goes_last one_held 7 0
             (mkBuf 2 1 10 (mkLock 1 7) 1 (Slot 1) Head) (final o) (trace o)
             7 1 15 1 (final (bget_scan 7 1 15 (final o))) [] Hinv).
    - vm_compute. reflexivity.
    - exact E.
    - intros k bk Hbk.
      apply (all_slots (fun b => negb (ident 1 15 b)) (final o)
               ltac:(vm_compute; reflexivity)) in Hbk.
      by apply negb_true_iff.
    - exact Es. }
  intros Hall. apply Hiff in Hall. discriminate Hall.
Defined.


Lemma logDirtyBuffer_in_list_order_witness :
  ring two_dirty [1; 0; 4; 3; 2] /\
  trace (logDirtyBuffer two_dirty)
  = [EvLogWrite (Slot 1) (mkBuf 6 1 11 (mkLock 0 0) 0 Head (Slot 0));
     EvLogWrite (Slot 0) (mkBuf 6 1 10 (mkLock 0 0) 0 (Slot 1) (Slot 4))].
Proof.
  assert (ring two_dirty [1; 0; 4; 3; 2]) as Hr
    by (apply ring_check_sound; vm_compute; reflexivity).
  split; [exact Hr|].
  destruct (logDirtyBuffer_in_list_order two_dirty _ Hr) as [H _].
  rewrite H. vm_compute. reflexivity.
Defined.

Lemma pool_lock_discipline_witness :
  let k := spin.mkKernel boot false [] in
  let r := spin.run (spin.sync Done 1 7) 7 (visit 10 Done) k in
  spin.held k = false /\
  r = spin.Ok tt (spin.kfinal r) /\
  spin.ops (spin.kfinal r)
  = [spin.Test false;
     spin.Acquire false; spin.Release true; spin.Acquire false;
     spin.Store true (Slot 0) spin.Fdev;
     spin.Store true (Slot 0) spin.Fblockno;
     spin.Store true (Slot 0) spin.Fflags;
     spin.Store true (Slot 0) spin.Frefcnt; spin.Release true;
     spin.Sleep false (Slot 0);
     spin.Call false
       (EvIderw (Slot 0) (mkBuf 0 1 10 (mkLock 1 7) 1 (Slot 1) Head));
     spin.Store false (Slot 0) spin.Flock; spin.Acquire false;
     spin.Store true (Slot 0) spin.Frefcnt;
     spin.Store true Head spin.Fprev; spin.Store true (Slot 1) spin.Fnext;
     spin.Store true (Slot 0) spin.Fnext;
     spin.Store true (Slot 0) spin.Fprev;
     spin.Store true (Slot 4) spin.Fprev; spin.Store true Head spin.Fnext;
     spin.Release true] /\
  Forall spin.op_ok (spin.ops (spin.kfinal r)) /\
  spin.held (spin.kfinal r) = false.
Proof.
  intros k r. split; [reflexivity|].
  assert (r = spin.Ok tt (spin.kfinal r)) as E by (vm_compute; reflexivity).
  split; [exact E|]. split; [vm_compute; reflexivity|].
  destruct (pool_lock_discipline Done 1 7 (visit 10 Done) k eq_refl)
    as (_ & new & En & F & P).
  fold r in En, P. split.
  - rewrite En. exact F.
  - rewrite E in P. exact P.
Defined.

Lemma calls_and_stores_off_the_rule_witness :
  let k := spin.mkKernel two_dirty false [] in
  spin.held k = false /\
  spin.ops (spin.kfinal (spin.logDirtyBuffer k))
  = [spin.Acquire false;
     spin.Call true
       (EvLogWrite (Slot 1) (mkBuf 6 1 11 (mkLock 0 0) 0 Head (Slot 0)));
     spin.Call true
       (EvLogWrite (Slot 0) (mkBuf 6 1 10 (mkLock 0 0) 0 (Slot 1) (Slot 4)));
     spin.Release true] /\
  exists new,
    spin.ops (spin.kfinal (spin.logDirtyBuffer k)) = spin.ops k ++ new /\
    forall h e, spin.Call h e ∈ new ->
      h = true /\ exists q b, e = EvLogWrite q b.
Proof.
  intros k. split; [reflexivity|]. split; [vm_compute; reflexivity|].
  destruct (calls_and_stores_off_the_rule k eq_refl)
    as ((new & E & H & _) & _).
  exists new. split; [exact E|exact H].
Defined.

End Trials.

End bio.

(** * The claim about the admission guard *)

Section Admission.
Import proc.

Lemma first_ready_elem qs : forall lvl l i,
  first_ready qs lvl = Some (l, i) ->
  exists k q, l = lvl + k /\ qs !! k = Some (i :: q).
Proof.
  induction qs as [|q qs IH]; intros lvl l i; simpl; [done|].
  destruct q as [|j q].
  - intros (k & q' & -> & Hk)%IH. exists (S k), q'. split; [lia|done].
  - intros [= <- <-]. exists 0, q. split; [lia|done].
Qed.

(** C9.  A second [enqueue] of a process changes nothing, whatever the
    state of the scheduler.  For a process in slot [i] that is not queued
    (guard clear, no entry in the queue of its level), two calls of
    [enqueue] leave exactly one entry for it in that queue, with the guard
    set.  [enqueue] never clears a guard, and a dispatch clears the guard
    of the process it takes off its queue and of no other. *)
Theorem enqueue_idempotent (s : sched) (i : nat) (p : proc) (l : nat) :
  ptable s !! i = Some p ->
  already_enqueued p = 0%Z ->
  (0 <= level p)%Z -> Z.to_nat (level p) = l ->
  l < length (level_queue s) ->
  entries i l s = 0 ->
  (forall s0 j, enqueue j (enqueue j s0) = enqueue j s0) /\
  entries i l (enqueue i (enqueue i s)) = 1 /\
  ptable (enqueue i (enqueue i s)) !! i = Some (set_queued 1 p) /\
  (forall s0 j k pk pk',
     ptable s0 !! k = Some pk -> already_enqueued pk <> 0%Z ->
     ptable (enqueue j s0) !! k = Some pk' -> already_enqueued pk' <> 0%Z) /\
  (forall quantum fresh s0 j s1,
     dispatch quantum fresh s0 = Some (j, s1) ->
     (exists lvl q, level_queue s0 !! lvl = Some (j :: q) /\
                    level_queue s1 !! lvl = Some q) /\
     (exists pj, ptable s1 !! j = Some pj /\ already_enqueued pj = 0%Z /\
                 state pj = RUNNING) /\
     forall k, k <> j -> ptable s1 !! k = ptable s0 !! k).
Proof.
  intros Hp Hg Hl0 Hl Hlen Hnone.
  assert (forall s0 j, enqueue j (enqueue j s0) = enqueue j s0) as Hidem.
  { intros s0 j. unfold enqueue at 2 3.
    destruct (ptable s0 !! j) as [pj|] eqn:Hj.
    - destruct (already_enqueued pj =? 0)%Z eqn:Hq.
      + unfold enqueue. simpl. rewrite list_lookup_insert_eq
          by (by eapply lookup_lt_Some). done.
      + unfold enqueue. by rewrite Hj, Hq.
    - unfold enqueue. by rewrite Hj. }
  split; [exact Hidem|]. rewrite Hidem.
  assert (enqueue i s
          = mkSched (<[i := set_queued 1 p]> (ptable s))
              (alter (fun q => q ++ [i]) l (level_queue s))
              (global_tick s)) as ->.
  { unfold enqueue. rewrite Hp, Hg, Hl. done. }
  split; [|split; [|split]].
  - unfold entries in *. simpl. rewrite list_lookup_alter_eq.
    destruct (level_queue s !! l) as [q|] eqn:Hq.
    + simpl. rewrite count_occ_app, Hnone. simpl.
      by destruct (Nat.eq_dec i i).
    + apply lookup_ge_None in Hq. lia.
  - simpl. apply list_lookup_insert_eq. by eapply lookup_lt_Some.
  - intros s0 j k pk pk' Hk Hqk. unfold enqueue.
    destruct (ptable s0 !! j) as [pj|] eqn:Hj; [|congruence].
    destruct (already_enqueued pj =? 0)%Z; [|congruence]. simpl.
    destruct (decide (j = k)) as [->|Hjk].
    + rewrite list_lookup_insert_eq by (by eapply lookup_lt_Some).
      by intros [= <-].
    + rewrite list_lookup_insert_ne by done. congruence.
  - intros quantum fresh s0 j s1. unfold dispatch.
    destruct (first_ready (level_queue s0) 0) as [[lvl j']|] eqn:Hf; [|done].
    destruct (ptable s0 !! j') as [pj|] eqn:Hj; [|done].
    intros [= <- <-]. split; [|split].
    + apply first_ready_elem in Hf as (k & q & -> & Hk). exists k, q.
      split; [done|]. simpl. by rewrite list_lookup_alter_eq, Hk.
    + exists (set_running (if fresh then quantum lvl else time_quantum pj) pj).
      simpl. split; [|done].
      apply list_lookup_insert_eq. by eapply lookup_lt_Some.
    + intros k Hk. simpl. by apply list_lookup_insert_ne.
Qed.

Lemma enqueue_idempotent_witness :
  ptable two_procs !! 1 = Some (mkProc RUNNABLE 2 1 0 0 0 0 0) /\
  entries 1 1 two_procs = 0 /\
  enqueue 1 (enqueue 1 two_procs)
  = mkSched [mkProc RUNNABLE 1 0 0 0 0 0 0; mkProc RUNNABLE 2 1 0 0 0 0 1]
      [[]; [1]; []] 0 /\
  entries 1 1 (enqueue 1 (enqueue 1 two_procs)) = 1.
Proof.
  split; [reflexivity|]. split; [reflexivity|]. split; [reflexivity|].
  apply (enqueue_idempotent two_procs 1 (mkProc RUNNABLE 2 1 0 0 0 0 0) 1);
    [reflexivity|reflexivity|simpl; lia|reflexivity|simpl; lia|reflexivity].
Defined.

End Admission.
